(** * The Kafka exporter's scrape coordinator (plugins/kafka/exporter/exporter.go)

    A shallow embedding of [Exporter.Collect], [Exporter.collectChans] and
    [Exporter.collect] with its two closures [getTopicMetrics] and
    [getConsumerGroupMetrics], and the properties of the scrape that the
    specification states about them; then the descriptors of [Setup] and
    [Describe], and the key-value parser of package dsn that the second
    source file carries, with further properties of all of these.

    Conventions of the embedding.
    - Go's [int], [int32] and [int64] values are [Z]; the three [int64]
      operations of the source that can overflow ([+=] on the two sums and the
      lag subtraction) are written with their wrap-around ([add64], [sub64]).
    - A metric carries the integer that the source hands to [float64(...)];
      the conversion itself is not modelled.
    - A Go map that the source ranges over is the list of its entries in the
      order of that iteration; the offset table, which is looked up by key, is
      a [gmap].
    - Calls to the cluster are oracles: a record field holds the answer the
      cluster gives during the scrape.  A [(value, err)] result whose value is
      a pointer or a slice is an [option] ([None]: [err != nil] and the value
      is [nil]); the source itself recognises a failed fetch by the [nil] value
      (l.466, l.476).
    - The refresh of l.376-386 only decides from which metadata the client
      answers; the answers of a scrape are those of the [Client] record.
    - Logging is not modelled. *)

From Stdlib Require Import ZArith String List DecimalString DecimalZ Lia.
From stdpp Require Import gmap strings list fin_maps relations.

Local Open Scope string_scope.
Local Open Scope Z_scope.
Local Open Scope list_scope.

(** ** Machine integers *)

Definition wrap64 (z : Z) : Z := (z + 2 ^ 63) mod 2 ^ 64 - 2 ^ 63.
Definition add64 (a b : Z) : Z := wrap64 (a + b).
Definition sub64 (a b : Z) : Z := wrap64 (a - b).
Definition int64 (z : Z) : Prop := - 2 ^ 63 <= z < 2 ^ 63.

(** [strconv.FormatInt(z, 10)] and [strconv.Itoa]: the decimal numeral. *)
Definition FormatInt (z : Z) : string := NilZero.string_of_int (Z.to_int z).

(** ** prometheus: descriptors and constant metrics *)

Inductive Desc : Set :=
| clusterBrokers
| clusterBrokerInfo
| topicPartitions
| topicCurrentOffset
| topicOldestOffset
| topicPartitionLeader
| topicPartitionReplicas
| topicPartitionInSyncReplicas
| topicPartitionUsesPreferredReplica
| topicUnderReplicatedPartition
| consumergroupCurrentOffset
| consumergroupCurrentOffsetSum
| consumergroupLag
| consumergroupLagSum
| consumergroupLagZookeeper
| consumergroupMembers.

#[global] Instance Desc_eq_dec : EqDecision Desc.
Proof. solve_decision. Defined.

(** [prometheus.MustNewConstMetric(desc, prometheus.GaugeValue, value, labelValues...)] *)
Record Metric : Set := MustNewConstMetric
  { desc : Desc; value : Z; labelValues : list string }.

#[global] Instance Metric_eq_dec : EqDecision Metric.
Proof. solve_decision. Defined.

(** ** sarama: what the exporter asks of the cluster *)

Module sarama.

Definition OffsetNewest : Z := -1.
Definition OffsetOldest : Z := -2.
Definition ErrNoError : Z := 0.

Record OffsetFetchRequest := mkOffsetFetchRequest
  { ConsumerGroup : string;
    Version : Z;
    partitions : gmap string (list Z) }.

(** [r.partitions[topic] = append(r.partitions[topic], partitionID)] *)
Definition AddPartition (topic : string) (partitionID : Z)
    (r : OffsetFetchRequest) : OffsetFetchRequest :=
  {| ConsumerGroup := ConsumerGroup r;
     Version := Version r;
     partitions :=
       <[topic := default [] (partitions r !! topic) ++ [partitionID]]>
         (partitions r) |}.

Record OffsetFetchResponseBlock := mkBlock { Offset : Z; Err : Z }.

(** [Blocks map[string]map[int32]*OffsetFetchResponseBlock], in the order
    in which the exporter ranges over it. *)
Record OffsetFetchResponse := mkOffsetFetchResponse
  { Blocks : list (string * list (Z * OffsetFetchResponseBlock)) }.

(** A member of a described group.  [GetMemberAssignment] is the
    [Topics map[string][]int32] of the decoded assignment, [None] when the
    assignment bytes do not decode. *)
Record GroupMemberDescription := mkMember
  { GetMemberAssignment : option (list (string * list Z)) }.

Record GroupDescription := mkGroup
  { GroupId : string;
    Members : list GroupMemberDescription }.

Record Broker := mkBroker
  { ID : Z;
    Addr : string;
    (** [false]: [Open] failed with an error other than
        [ErrAlreadyConnected] *)
    Open : bool;
    (** the keys of [ListGroupsResponse.Groups] *)
    ListGroups : option (list string);
    DescribeGroups : list string -> option (list GroupDescription);
    FetchOffset : OffsetFetchRequest -> option OffsetFetchResponse }.

Record Client := mkClient
  { Brokers : list Broker;
    Topics : option (list string);
    Partitions : string -> option (list Z);
    Leader : string -> Z -> option Broker;
    (** [(offset, err == nil)]: the offset is used on the zookeeper path
        whether or not the call failed (l.497) *)
    GetOffset : string -> Z -> Z -> Z * bool;
    Replicas : string -> Z -> option (list Z);
    InSyncReplicas : string -> Z -> option (list Z) }.

End sarama.

(** ** kazoo: the zookeeper lag source *)

Module kazoo.

Record Consumergroup := mkConsumergroup
  { Name : string;
    (** [offset, _ := group.FetchOffset(topic, partition)] *)
    FetchOffset : string -> Z -> Z }.

Record Kazoo := mkKazoo
  { (** [None]: the call failed; the source logs and ranges over nothing *)
    Consumergroups : option (list Consumergroup) }.

End kazoo.

(** ** The exporter's configuration *)

Record Exporter := mkExporter
  { client : sarama.Client;
    (** [MatchString] of the four compiled patterns *)
    topicFilter : string -> bool;
    topicExclude : string -> bool;
    groupFilter : string -> bool;
    groupExclude : string -> bool;
    useZooKeeperLag : bool;
    zookeeperClient : kazoo.Kazoo;
    offsetShowAll : bool;
    topicWorkers : Z;
    allowConcurrent : bool }.

(** The offset table of one scrape: [offset := make(map[string]map[int32]int64)]. *)
Abbreviation OffsetTable := (gmap string (gmap Z Z)).

(** [offset[topic][partition]]: a missing topic reads as a nil inner map. *)
Definition lookupOffset (offset : OffsetTable) (topic : string) (partition : Z)
    : option Z :=
  match offset !! topic with
  | Some partitions => partitions !! partition
  | None => None
  end.

(** ** The consumer-group phase: [getConsumerGroupMetrics] (l.547-657) *)

Section ConsumerGroups.

Import sarama.

Variable e : Exporter.
(** The table as the topic phase left it; this phase only reads it. *)
Variable offset : OffsetTable.

(** l.606-612: the topic is consumed when some block has a committed offset. *)
Definition topicConsumed (partitions : list (Z * OffsetFetchResponseBlock)) : bool :=
  existsb (fun pb => negb (Offset pb.2 =? -1)) partitions.

(** The variables of the loop of l.619-648: what has been sent on [ch] and
    the two sums declared at l.617-618. *)
Record partitionLoop := mkLoop
  { sent : list Metric; currentOffsetSum : Z; lagSum : Z }.

(** One iteration of l.619-648. *)
Definition partitionStep (group topic : string) (a : partitionLoop)
    (pb : Z * OffsetFetchResponseBlock) : partitionLoop :=
  let partition := pb.1 in
  let offsetFetchResponseBlock := pb.2 in
  if negb (Err offsetFetchResponseBlock =? ErrNoError) then a
  else
    let currentOffset := Offset offsetFetchResponseBlock in
    let sum := add64 (currentOffsetSum a) currentOffset in
    let m := MustNewConstMetric consumergroupCurrentOffset currentOffset
               [group; topic; FormatInt partition] in
    match lookupOffset offset topic partition with
    | Some off =>
        if Offset offsetFetchResponseBlock =? -1 then
          {| sent := sent a ++
               [m; MustNewConstMetric consumergroupLag (-1)
                     [group; topic; FormatInt partition]];
             currentOffsetSum := sum;
             lagSum := lagSum a |}
        else
          let lag := sub64 off (Offset offsetFetchResponseBlock) in
          {| sent := sent a ++
               [m; MustNewConstMetric consumergroupLag lag
                     [group; topic; FormatInt partition]];
             currentOffsetSum := sum;
             lagSum := add64 (lagSum a) lag |}
    | None =>
        {| sent := sent a ++ [m]; currentOffsetSum := sum; lagSum := lagSum a |}
    end.

Definition partitionsLoop (group topic : string)
    (partitions : list (Z * OffsetFetchResponseBlock)) : partitionLoop :=
  foldl (partitionStep group topic) (mkLoop [] 0 0) partitions.

(** The body of the loop over [offsetFetchResponse.Blocks] (l.603-655). *)
Definition topicBlocks (group topic : string)
    (partitions : list (Z * OffsetFetchResponseBlock)) : list Metric :=
  if topicConsumed partitions then
    let a := partitionsLoop group topic partitions in
    sent a ++
      [MustNewConstMetric consumergroupCurrentOffsetSum (currentOffsetSum a)
         [group; topic];
       MustNewConstMetric consumergroupLagSum (lagSum a) [group; topic]]
  else [].

(** l.575-579: every partition of the offset table. *)
Definition addAllPartitions (r : OffsetFetchRequest) : OffsetFetchRequest :=
  foldl (fun r tp =>
           foldl (fun r pv => AddPartition tp.1 pv.1 r) r (map_to_list tp.2))
        r (map_to_list offset).

(** l.587-591: the partitions of one member's assignment. *)
Definition addAssignment (assignment : list (string * list Z))
    (r : OffsetFetchRequest) : OffsetFetchRequest :=
  foldl (fun r tp => foldl (fun r partition => AddPartition tp.1 partition r) r tp.2)
        r assignment.

(** l.581-592.  [None] is the [return] of l.585, which leaves
    [getConsumerGroupMetrics]. *)
Fixpoint addMembers (members : list GroupMemberDescription)
    (r : OffsetFetchRequest) : option OffsetFetchRequest :=
  match members with
  | [] => Some r
  | member :: members' =>
      match GetMemberAssignment member with
      | None => None
      | Some assignment => addMembers members' (addAssignment assignment r)
      end
  end.

(** l.573-593 *)
Definition buildOffsetFetchRequest (group : GroupDescription)
    : option OffsetFetchRequest :=
  let offsetFetchRequest := mkOffsetFetchRequest (GroupId group) 1 ∅ in
  if offsetShowAll e then Some (addAllPartitions offsetFetchRequest)
  else addMembers (Members group) offsetFetchRequest.

(** The loop over [describeGroups.Groups] (l.572-656): what it sends on [ch]. *)
Fixpoint groupsLoop (broker : Broker) (groups : list GroupDescription)
    : list Metric :=
  match groups with
  | [] => []
  | group :: groups' =>
      match buildOffsetFetchRequest group with
      | None => []
      | Some offsetFetchRequest =>
          MustNewConstMetric consumergroupMembers
            (Z.of_nat (length (Members group))) [GroupId group]
          :: match FetchOffset broker offsetFetchRequest with
             | None => []
             | Some offsetFetchResponse =>
                 flat_map (fun tp => topicBlocks (GroupId group) tp.1 tp.2)
                          (Blocks offsetFetchResponse)
             end
          ++ groupsLoop broker groups'
      end
  end.

(** What one broker's task sends on [ch]. *)
Definition getConsumerGroupMetrics (broker : Broker) : list Metric :=
  if Open broker then
    match ListGroups broker with
    | None => []
    | Some groups =>
        let groupIds :=
          List.filter (fun groupId => groupFilter e groupId && negb (groupExclude e groupId))
                      groups in
        match DescribeGroups broker groupIds with
        | None => []
        | Some describeGroups => groupsLoop broker describeGroups
        end
    end
  else [].

End ConsumerGroups.

(** ** The topic phase: [getTopicMetrics] (l.397-505) *)

(** What a goroutine of [collect] does to the state it shares with the
    others: the sends on [ch], the writes to the offset table under [e.mu],
    and the call that starts the work on a topic.  [Panic] is a run-time
    fault (an index out of range, a write to a nil map). *)
Inductive Event :=
| FetchPartitions (topic : string)
| Send (m : Metric)
| MakeTopic (topic : string)
| SetOffset (topic : string) (partition : Z) (currentOffset : Z)
| Panic.

#[global] Instance Event_eq_dec : EqDecision Event.
Proof. solve_decision. Defined.

(** [len(s)] as the [float64] argument of a metric. *)
Definition len {A} (s : list A) : Z := Z.of_nat (length s).

(** l.466: [broker != nil && replicas != nil && len(replicas) > 0 &&
    broker.ID() == replicas[0]], evaluated left to right.  [replicas[0]] is
    the element at index 0 when there is one; [None] stands for the panic of
    an index out of range. *)
Definition leaderIsPreferred (broker : option sarama.Broker)
    (replicas : option (list Z)) : option bool :=
  match broker, replicas with
  | Some b, Some r =>
      if 0 <? len r then
        match r !! 0%nat with
        | Some r0 => Some (sarama.ID b =? r0)
        | None => None
        end
      else Some false
  | _, _ => Some false
  end.

(** l.476: [replicas != nil && inSyncReplicas != nil &&
    len(inSyncReplicas) < len(replicas)] *)
Definition underReplicated (replicas inSyncReplicas : option (list Z)) : bool :=
  match replicas, inSyncReplicas with
  | Some r, Some isr => len isr <? len r
  | _, _ => false
  end.

Section Topics.

Import sarama.

Variable e : Exporter.

(** l.486-503: the lag against the offsets kept in zookeeper. *)
Definition zookeeperLag (topic : string) (partition currentOffset : Z)
    : list Event :=
  if useZooKeeperLag e then
    flat_map
      (fun group =>
         let offset := kazoo.FetchOffset group topic partition in
         if 0 <? offset then
           [Send (MustNewConstMetric consumergroupLagZookeeper
                    (sub64 currentOffset offset)
                    [kazoo.Name group; topic; FormatInt partition])]
         else [])
      (default [] (kazoo.Consumergroups (zookeeperClient e)))
  else [].

(** One iteration of the loop over the partitions of a topic (l.417-504). *)
Definition partitionEvents (topic : string) (partition : Z) : list Event :=
  let labels := [topic; FormatInt partition] in
  let broker := Leader (client e) topic partition in
  let currentOffset := GetOffset (client e) topic partition OffsetNewest in
  let oldestOffset := GetOffset (client e) topic partition OffsetOldest in
  let replicas := Replicas (client e) topic partition in
  let inSyncReplicas := InSyncReplicas (client e) topic partition in
  match broker with
  | Some b => [Send (MustNewConstMetric topicPartitionLeader (ID b) labels)]
  | None => []
  end
  ++ (if currentOffset.2 then
        [SetOffset topic partition currentOffset.1;
         Send (MustNewConstMetric topicCurrentOffset currentOffset.1 labels)]
      else [])
  ++ (if oldestOffset.2 then
        [Send (MustNewConstMetric topicOldestOffset oldestOffset.1 labels)]
      else [])
  ++ match replicas with
     | Some r => [Send (MustNewConstMetric topicPartitionReplicas (len r) labels)]
     | None => []
     end
  ++ match inSyncReplicas with
     | Some isr =>
         [Send (MustNewConstMetric topicPartitionInSyncReplicas (len isr) labels)]
     | None => []
     end
  ++ match leaderIsPreferred broker replicas with
     | Some true =>
         [Send (MustNewConstMetric topicPartitionUsesPreferredReplica 1 labels)]
     | Some false =>
         [Send (MustNewConstMetric topicPartitionUsesPreferredReplica 0 labels)]
     | None => [Panic]
     end
  ++ [Send (MustNewConstMetric topicUnderReplicatedPartition
              (if underReplicated replicas inSyncReplicas then 1 else 0) labels)]
  ++ zookeeperLag topic partition currentOffset.1.

(** The filter of l.401 and of l.538. *)
Definition accepted (topic : string) : bool :=
  topicFilter e topic && negb (topicExclude e topic).

(** The work on one topic, from the guard of l.401 on. *)
Definition getTopicMetrics (topic : string) : list Event :=
  if negb (topicFilter e topic) || topicExclude e topic then []
  else
    FetchPartitions topic ::
    match Partitions (client e) topic with
    | None => []
    | Some partitions =>
        Send (MustNewConstMetric topicPartitions (len partitions) [topic])
        :: MakeTopic topic
        :: flat_map (partitionEvents topic) partitions
    end.

End Topics.

(** ** [collect] as a system of goroutines (l.363-669)

    The goroutine that runs [collect] spawns the [loopTopics] workers, feeds
    them through [topicChannel], waits on [wg], spawns one
    [getConsumerGroupMetrics] per broker and waits on [wg] again.  A state
    holds the program counter of each goroutine and what they share: the
    counter of [wg], the offset table and the sends on [ch].  A step is one
    action of one goroutine; the scheduler is free. *)

(** A goroutine running [loopTopics] (l.507-517). *)
Inductive Worker :=
| Receiving                            (* blocked in [<-topicChannel] *)
| Working (topic : string) (pc : nat)  (* in [getTopicMetrics(topic)], at event [pc] *)
| Returned.                            (* has seen the channel closed *)

(** A goroutine running [getConsumerGroupMetrics(broker)]. *)
Inductive Task :=
| Running (broker : sarama.Broker) (pc : nat)  (* about to send its metric number [pc] *)
| Done.

(** The goroutine running [collect] itself. *)
Inductive Main :=
| Start                                (* l.364 *)
| Dispatching (topics : list string)   (* in the loop of l.537-542 *)
| WaitTopics                           (* [wg.Wait()] of l.545 *)
| WaitGroups                           (* [wg.Wait()] of l.665 *)
| Finished.                            (* [collect] has returned *)

Record State := mkState
  { main : Main;
    workers : list Worker;
    tasks : list Task;
    wg : nat;
    offset : OffsetTable;
    (** every event so far, oldest first *)
    history : list Event;
    (** a goroutine has panicked *)
    crashed : bool }.

Definition initial : State := mkState Start [] [] 0 ∅ [] false.

Definition withMain (m : Main) (s : State) : State :=
  mkState m (workers s) (tasks s) (wg s) (offset s) (history s) (crashed s).
Definition withWorkers (ws : list Worker) (s : State) : State :=
  mkState (main s) ws (tasks s) (wg s) (offset s) (history s) (crashed s).
Definition withTasks (ts : list Task) (s : State) : State :=
  mkState (main s) (workers s) ts (wg s) (offset s) (history s) (crashed s).
Definition withWg (n : nat) (s : State) : State :=
  mkState (main s) (workers s) (tasks s) n (offset s) (history s) (crashed s).
Definition withOffset (o : OffsetTable) (s : State) : State :=
  mkState (main s) (workers s) (tasks s) (wg s) o (history s) (crashed s).
Definition record (evs : list Event) (s : State) : State :=
  mkState (main s) (workers s) (tasks s) (wg s) (offset s) (history s ++ evs) (crashed s).
Definition crash (s : State) : State :=
  mkState (main s) (workers s) (tasks s) (wg s) (offset s) (history s) true.

(** The effect of one event.  [offset[topic][partition] = v] panics when
    [offset[topic]] is a nil map. *)
Definition execute (ev : Event) (s : State) : State :=
  record [ev]
    match ev with
    | FetchPartitions _ | Send _ => s
    | MakeTopic topic => withOffset (<[topic := ∅]> (offset s)) s
    | SetOffset topic partition currentOffset =>
        match offset s !! topic with
        | Some partitions =>
            withOffset (<[topic := <[partition := currentOffset]> partitions]> (offset s)) s
        | None => crash s
        end
    | Panic => crash s
    end.

(** The metrics received from [ch], oldest first. *)
Definition sends (evs : list Event) : list Metric :=
  omap (fun ev => match ev with Send m => Some m | _ => None end) evs.
Definition ch (s : State) : list Metric := sends (history s).

Section Collect.

Import sarama.

Variable e : Exporter.

(** l.365-372 *)
Definition brokerMetrics : list Metric :=
  MustNewConstMetric clusterBrokers (len (Brokers (client e))) []
  :: List.map (fun b => MustNewConstMetric clusterBrokerInfo 1 [FormatInt (ID b); Addr b])
       (Brokers (client e)).

(** l.519-525 *)
Definition minx (x y : Z) : Z := if x <? y then x else y.

(** l.527-530: the bound [N] of the loop that starts the workers. *)
Definition workerCount (topics : list string) : Z :=
  let N := len topics in
  if 1 <? N then minx (N ÷ 2) (topicWorkers e) else N.

(** l.532-535: [for w := 1; w <= N; w++ { go loopTopics() }] *)
Definition spawnWorkers (topics : list string) : list Worker :=
  replicate (Z.to_nat (workerCount topics)) Receiving.

(** [topicChannel] is closed once the dispatch loop is over. *)
Definition channelClosed (m : Main) : bool :=
  match m with
  | Start | Dispatching _ => false
  | WaitTopics | WaitGroups | Finished => true
  end.

Inductive step : State -> State -> Prop :=
(* l.388-393: no topic list, [collect] returns *)
| step_no_topics s :
    crashed s = false -> main s = Start ->
    Topics (client e) = None ->
    step s (withMain Finished (record (List.map Send brokerMetrics) s))
(* l.365-372, l.388, l.527-535 *)
| step_spawn s topics :
    crashed s = false -> main s = Start ->
    Topics (client e) = Some topics ->
    step s (withMain (Dispatching topics)
              (withWorkers (spawnWorkers topics)
                 (record (List.map Send brokerMetrics) s)))
(* l.538: the topic does not pass the filter *)
| step_skip s topic topics :
    crashed s = false -> main s = Dispatching (topic :: topics) ->
    accepted e topic = false ->
    step s (withMain (Dispatching topics) s)
(* l.539-540 with l.510: [wg.Add(1)] and the hand-over of the topic to a
   worker that is receiving *)
| step_send s topic topics i :
    crashed s = false -> main s = Dispatching (topic :: topics) ->
    accepted e topic = true ->
    workers s !! i = Some Receiving ->
    step s (withMain (Dispatching topics)
              (withWorkers (<[i := Working topic 0]> (workers s))
                 (withWg (S (wg s)) s)))
(* l.543 *)
| step_close s :
    crashed s = false -> main s = Dispatching [] ->
    step s (withMain WaitTopics s)
(* a worker performs the next event of its topic *)
| step_work s i topic pc ev :
    crashed s = false ->
    workers s !! i = Some (Working topic pc) ->
    getTopicMetrics e topic !! pc = Some ev ->
    step s (execute ev (withWorkers (<[i := Working topic (S pc)]> (workers s)) s))
(* l.398: the deferred [wg.Done()], then back to l.510 *)
| step_done s i topic pc :
    crashed s = false ->
    workers s !! i = Some (Working topic pc) ->
    getTopicMetrics e topic !! pc = None ->
    step s (withWorkers (<[i := Receiving]> (workers s)) (withWg (pred (wg s)) s))
(* l.510-512: the receive on the closed channel *)
| step_return s i :
    crashed s = false -> channelClosed (main s) = true ->
    workers s !! i = Some Receiving ->
    step s (withWorkers (<[i := Returned]> (workers s)) s)
(* l.545 passed, l.660-664 *)
| step_groups s :
    crashed s = false -> main s = WaitTopics -> wg s = 0%nat ->
    Brokers (client e) <> [] ->
    step s (withMain WaitGroups
              (withTasks (List.map (fun broker => Running broker 0) (Brokers (client e)))
                 (withWg (length (Brokers (client e))) s)))
(* l.545 passed, l.666-668 *)
| step_no_broker s :
    crashed s = false -> main s = WaitTopics -> wg s = 0%nat ->
    Brokers (client e) = [] ->
    step s (withMain Finished s)
(* a broker's task sends its next metric; it reads the table as it is now *)
| step_task s j broker pc m :
    crashed s = false ->
    tasks s !! j = Some (Running broker pc) ->
    getConsumerGroupMetrics e (offset s) broker !! pc = Some m ->
    step s (record [Send m] (withTasks (<[j := Running broker (S pc)]> (tasks s)) s))
(* l.548: the deferred [wg.Done()] *)
| step_task_done s j broker pc :
    crashed s = false ->
    tasks s !! j = Some (Running broker pc) ->
    getConsumerGroupMetrics e (offset s) broker !! pc = None ->
    step s (withTasks (<[j := Done]> (tasks s)) (withWg (pred (wg s)) s))
(* l.665 passed *)
| step_finish s :
    crashed s = false -> main s = WaitGroups -> wg s = 0%nat ->
    step s (withMain Finished s).

(** The states that an execution of [collect] goes through. *)
Definition reachable (s : State) : Prop := rtc step initial s.

End Collect.

(** ** [Collect] and [collectChans]: coalescing of concurrent scrapes (l.315-361)

    A caller is known by the channel it passes to [Collect]; a wait channel
    by the order in which [Collect] made it.  A step is a critical section
    under [e.sgMutex], or a step of a [collect] that is running.  The
    goroutine of l.341-345 is taken to have appended every metric it received
    by the time [collectChans] reads [container]. *)

(** A goroutine running [collectChans(quit)], before its hand-over. *)
Record Run := mkRun
  { quit : nat;
    (** its [e.collect(original)] *)
    pipeline : State }.

Record Coordinator := mkCoordinator
  { sgChans : list nat;
    (** [e.sgWaitCh]; [None] is [nil] *)
    sgWaitCh : option nat;
    (** how many times l.325-326 ran: wait channels made, [collectChans] started *)
    made : nat;
    (** the wait channels that are closed *)
    closed : list nat;
    (** the [collectChans] that have not handed over yet *)
    runs : list Run;
    (** [allowConcurrent]: the callers that run [e.collect(ch)] themselves *)
    direct : list (nat * State);
    (** the callers at l.334, each with its [waiter] *)
    waiting : list (nat * option nat);
    (** what [collectChans] has sent to the callers, oldest first *)
    delivered : list (nat * Metric) }.

Definition idle : Coordinator := mkCoordinator [] None 0 [] [] [] [] [].

(** What caller [c] has received from [collectChans]. *)
Definition received (c : nat) (x : Coordinator) : list Metric :=
  omap (fun cm => if decide (cm.1 = c) then Some cm.2 else None) (delivered x).

(** A caller of l.334 returns once its wait channel is closed. *)
Definition released (c : nat) (x : Coordinator) : Prop :=
  exists w, (c, Some w) ∈ waiting x /\ w ∈ closed x.

(** l.350-354 *)
Definition broadcast (chans : list nat) (container : list Metric)
    : list (nat * Metric) :=
  flat_map (fun c => List.map (pair c) container) chans.

Inductive Action :=
| Call (c : nat)       (* [Collect(c)] up to l.332, or up to l.317 *)
| Advance              (* a step of a running [collect] *)
| HandOver (w : nat).  (* l.347-360 of [collectChans(w)] *)

Section Coalescing.

Variable e : Exporter.

Inductive transition : Coordinator -> Action -> Coordinator -> Prop :=
(* l.316-317 *)
| call_direct x c :
    allowConcurrent e = true ->
    transition x (Call c)
      (mkCoordinator (sgChans x) (sgWaitCh x) (made x) (closed x) (runs x)
         (direct x ++ [(c, initial)]) (waiting x) (delivered x))
(* l.321-332, first caller: l.325-326 *)
| call_first x c :
    allowConcurrent e = false ->
    length (sgChans x ++ [c]) = 1%nat ->
    transition x (Call c)
      (mkCoordinator (sgChans x ++ [c]) (Some (made x)) (S (made x)) (closed x)
         (runs x ++ [mkRun (made x) initial])
         (direct x) (waiting x ++ [(c, Some (made x))]) (delivered x))
(* l.321-332, a run is in flight: l.328 *)
| call_wait x c :
    allowConcurrent e = false ->
    length (sgChans x ++ [c]) <> 1%nat ->
    transition x (Call c)
      (mkCoordinator (sgChans x ++ [c]) (sgWaitCh x) (made x) (closed x)
         (runs x) (direct x) (waiting x ++ [(c, sgWaitCh x)]) (delivered x))
(* l.346 *)
| advance_run x k r st :
    runs x !! k = Some r ->
    step e (pipeline r) st ->
    transition x Advance
      (mkCoordinator (sgChans x) (sgWaitCh x) (made x) (closed x)
         (<[k := mkRun (quit r) st]> (runs x)) (direct x) (waiting x) (delivered x))
(* l.317 *)
| advance_direct x k c st st' :
    direct x !! k = Some (c, st) ->
    step e st st' ->
    transition x Advance
      (mkCoordinator (sgChans x) (sgWaitCh x) (made x) (closed x) (runs x)
         (<[k := (c, st')]> (direct x)) (waiting x) (delivered x))
(* l.347-360, once [e.collect(original)] has returned *)
| hand_over x k r :
    runs x !! k = Some r ->
    main (pipeline r) = Finished ->
    transition x (HandOver (quit r))
      (mkCoordinator [] (sgWaitCh x) (made x) (quit r :: closed x)
         (delete k (runs x)) (direct x) (waiting x)
         (delivered x ++ broadcast (sgChans x) (ch (pipeline r)))).

(** An execution: the actions taken, oldest first. *)
Inductive execution : Coordinator -> list Action -> Coordinator -> Prop :=
| execution_nil x : execution x [] x
| execution_cons x a y acts z :
    transition x a y -> execution y acts z -> execution x (a :: acts) z.

End Coalescing.

(** The states that the coordinator goes through from the start of the
    exporter. *)
Definition attainable (e : Exporter) (x : Coordinator) : Prop :=
  exists acts, execution e idle acts x.

(** With coalescing, what holds between the critical sections: at most one
    [collectChans] has not handed over yet, there is one exactly when
    callers are registered, and these wait on its wait channel, which is
    still open. *)
Definition coalesced (e : Exporter) (x : Coordinator) : Prop :=
  direct x = []
  /\ (forall w, In w (closed x) -> (w < made x)%nat)
  /\ match runs x with
     | [] => sgChans x = []
     | [r] =>
         sgChans x <> []
         /\ sgWaitCh x = Some (quit r)
         /\ (quit r < made x)%nat
         /\ ~ In (quit r) (closed x)
         /\ reachable e (pipeline r)
         /\ forall c, In c (sgChans x) -> In (c, Some (quit r)) (waiting x)
     | _ => False
     end.

(** The coordinator after the callers [cs] have registered with the first
    run of the exporter, whose [collect] is in state [st]. *)
Definition registered (cs : list nat) (st : State) : Coordinator :=
  mkCoordinator cs (Some 0%nat) 1 [] [mkRun 0 st] []
    (List.map (fun c => (c, Some 0%nat)) cs) [].

(** ** One schedule of [collect], as a function

    The first worker takes every topic and finishes it before the next one is
    handed out; then the brokers' tasks run one after the other. *)

(** A worker performs the events [evs] that are left of its topic. *)
Fixpoint workOn (i : nat) (topic : string) (pc : nat) (evs : list Event)
    (s : State) : State :=
  match evs with
  | [] => s
  | ev :: evs' =>
      workOn i topic (S pc) evs'
        (execute ev (withWorkers (<[i := Working topic (S pc)]> (workers s)) s))
  end.

(** The dispatch loop of l.537-543. *)
Fixpoint dispatch (e : Exporter) (topics : list string) (s : State) : State :=
  match topics with
  | [] => withMain WaitTopics s
  | topic :: topics' =>
      if accepted e topic then
        let s1 := withMain (Dispatching topics')
                    (withWorkers (<[0%nat := Working topic 0]> (workers s))
                       (withWg (S (wg s)) s)) in
        let s2 := workOn 0 topic 0 (getTopicMetrics e topic) s1 in
        dispatch e topics'
          (withWorkers (<[0%nat := Receiving]> (workers s2)) (withWg (pred (wg s2)) s2))
      else dispatch e topics' (withMain (Dispatching topics') s)
  end.

(** A broker's task sends the metrics [ms] that are left and returns. *)
Fixpoint serve (j : nat) (broker : sarama.Broker) (pc : nat) (ms : list Metric)
    (s : State) : State :=
  match ms with
  | [] => withTasks (<[j := Done]> (tasks s)) (withWg (pred (wg s)) s)
  | m :: ms' =>
      serve j broker (S pc) ms'
        (record [Send m] (withTasks (<[j := Running broker (S pc)]> (tasks s)) s))
  end.

Fixpoint serveAll (e : Exporter) (j : nat) (brokers : list sarama.Broker)
    (s : State) : State :=
  match brokers with
  | [] => s
  | broker :: brokers' =>
      serveAll e (S j) brokers'
        (serve j broker 0 (getConsumerGroupMetrics e (offset s) broker) s)
  end.

(** l.659-668 *)
Definition groups (e : Exporter) (s : State) : State :=
  match sarama.Brokers (client e) with
  | [] => withMain Finished s
  | brokers =>
      withMain Finished
        (serveAll e 0 brokers
           (withMain WaitGroups
              (withTasks (List.map (fun broker => Running broker 0) brokers)
                 (withWg (length brokers) s))))
  end.

Definition sequential (e : Exporter) : State :=
  match sarama.Topics (client e) with
  | None => withMain Finished (record (List.map Send (brokerMetrics e)) initial)
  | Some topics =>
      groups e
        (dispatch e topics
           (withMain (Dispatching topics)
              (withWorkers (spawnWorkers e topics)
                 (record (List.map Send (brokerMetrics e)) initial))))
  end.

(** ** Observations on the states of [collect] *)

(** What a worker has still to do on its topic. *)
Definition todo (e : Exporter) (w : Worker) : list Event :=
  match w with
  | Working topic pc => drop pc (getTopicMetrics e topic)
  | _ => []
  end.

Definition working (w : Worker) : bool :=
  match w with Working _ _ => true | _ => false end.

(** What a broker's task has still to send. *)
Definition taskTodo (e : Exporter) (offset : OffsetTable) (t : Task) : list Event :=
  match t with
  | Running broker pc => List.map Send (drop pc (getConsumerGroupMetrics e offset broker))
  | Done => []
  end.

Definition running (t : Task) : bool :=
  match t with Running _ _ => true | Done => false end.

(** The topics that the dispatch loop has not reached yet. *)
Definition pendingTopics (m : Main) : list string :=
  match m with Dispatching topics => topics | _ => [] end.

(** All the events of the topic phase, and all those of the group phase. *)
Definition topicPhase (e : Exporter) (topics : list string) : list Event :=
  flat_map (getTopicMetrics e) topics.

Definition groupPhase (e : Exporter) (offset : OffsetTable) : list Event :=
  flat_map (fun broker => List.map Send (getConsumerGroupMetrics e offset broker))
           (sarama.Brokers (client e)).

(** The workers that are inside [getTopicMetrics], the tasks that have not
    returned: what the counter of [wg] counts. *)
Definition busy (ws : list Worker) : nat := length (List.filter working ws).
Definition active (ts : list Task) : nat := length (List.filter running ts).

(** A worker that is past the [make] of l.415 has an inner map to write to. *)
Definition made_before_set (s : State) : Prop :=
  forall i t pc,
    workers s !! i = Some (Working t pc) -> (3 <= pc)%nat ->
    is_Some (offset s !! t).

(** Where an execution stands.  The sends of l.365-372 come first; then the
    events of the topic phase, in some interleaving; then, once no worker is
    busy, the sends of the brokers' tasks, in some interleaving. *)
Definition phases (e : Exporter) (s : State) : Prop :=
  match main s with
  | Start => s = initial
  | Dispatching _ | WaitTopics =>
      exists topics h,
        sarama.Topics (client e) = Some topics
        /\ wg s = busy (workers s)
        /\ tasks s = []
        /\ history s = List.map Send (brokerMetrics e) ++ h
        /\ h ++ flat_map (todo e) (workers s) ++ topicPhase e (pendingTopics (main s))
           ≡ₚ topicPhase e topics
  | WaitGroups =>
      exists topics hT hG,
        sarama.Topics (client e) = Some topics
        /\ busy (workers s) = 0%nat
        /\ wg s = active (tasks s)
        /\ history s = List.map Send (brokerMetrics e) ++ hT ++ hG
        /\ hT ≡ₚ topicPhase e topics
        /\ hG ++ flat_map (taskTodo e (offset s)) (tasks s) ≡ₚ groupPhase e (offset s)
  | Finished =>
      busy (workers s) = 0%nat
      /\ active (tasks s) = 0%nat
      /\ match sarama.Topics (client e) with
         | None => history s = List.map Send (brokerMetrics e)
         | Some topics =>
             exists hT hG,
               history s = List.map Send (brokerMetrics e) ++ hT ++ hG
               /\ hT ≡ₚ topicPhase e topics
               /\ hG ≡ₚ groupPhase e (offset s)
         end
  end.

(** Where the newest offset [v] of a partition stands during an execution:
    it is in the table, or a worker that is busy with the topic has still to
    store it, or the topic has not been handed to a worker yet. *)
Definition offsetOnItsWay (e : Exporter) (s : State) (t : string) (p v : Z) : Prop :=
  lookupOffset (offset s) t p = Some v
  \/ (exists i pc,
        workers s !! i = Some (Working t pc)
        /\ In (SetOffset t p v) (drop pc (getTopicMetrics e t)))
  \/ In t (pendingTopics (main s))
  \/ main s = Start.

(** ** Quantities the specification names *)

Definition sumZ (l : list Z) : Z := foldr Z.add 0 l.

Definition noError (pb : Z * sarama.OffsetFetchResponseBlock) : bool :=
  sarama.Err pb.2 =? sarama.ErrNoError.

(** The committed offsets of the blocks that carry no error. *)
Definition committedOffsets
    (partitions : list (Z * sarama.OffsetFetchResponseBlock)) : list Z :=
  List.map (fun pb => sarama.Offset pb.2) (List.filter noError partitions).

(** The lag of a block: [None] when the block carries an error or the offset
    table has no entry for the partition; the marker -1 when nothing is
    committed. *)
Definition lagOf (offset : OffsetTable) (topic : string)
    (pb : Z * sarama.OffsetFetchResponseBlock) : option Z :=
  if noError pb then
    match lookupOffset offset topic pb.1 with
    | Some off =>
        Some (if sarama.Offset pb.2 =? -1 then -1 else sub64 off (sarama.Offset pb.2))
    | None => None
    end
  else None.

(** The lags that are differences, not markers. *)
Definition computedLags (offset : OffsetTable) (topic : string)
    (partitions : list (Z * sarama.OffsetFetchResponseBlock)) : list Z :=
  omap (lagOf offset topic)
       (List.filter (fun pb => negb (sarama.Offset pb.2 =? -1)) partitions).

(** What the iteration for one block sends on [ch]. *)
Definition partitionMetrics (offset : OffsetTable) (group topic : string)
    (pb : Z * sarama.OffsetFetchResponseBlock) : list Metric :=
  if noError pb then
    MustNewConstMetric consumergroupCurrentOffset (sarama.Offset pb.2)
      [group; topic; FormatInt pb.1]
    :: match lagOf offset topic pb with
       | Some lag =>
           [MustNewConstMetric consumergroupLag lag [group; topic; FormatInt pb.1]]
       | None => []
       end
  else [].

(** The metrics of the topic phase: the [kafka_topic_*] family and the
    zookeeper lag. *)
Definition topicLevel (m : Metric) : bool :=
  match desc m with
  | topicPartitions | topicCurrentOffset | topicOldestOffset
  | topicPartitionLeader | topicPartitionReplicas | topicPartitionInSyncReplicas
  | topicPartitionUsesPreferredReplica | topicUnderReplicatedPartition
  | consumergroupLagZookeeper => true
  | _ => false
  end.

(** The value of the label [topic] of a metric that has one. *)
Definition topicOf (m : Metric) : option string :=
  match desc m with
  | clusterBrokers | clusterBrokerInfo | consumergroupMembers => None
  | topicPartitions | topicCurrentOffset | topicOldestOffset
  | topicPartitionLeader | topicPartitionReplicas | topicPartitionInSyncReplicas
  | topicPartitionUsesPreferredReplica | topicUnderReplicatedPartition =>
      labelValues m !! 0%nat
  | consumergroupCurrentOffset | consumergroupCurrentOffsetSum | consumergroupLag
  | consumergroupLagSum | consumergroupLagZookeeper =>
      labelValues m !! 1%nat
  end.

(** The newest offset of a partition of an accepted topic, when its fetch
    succeeded. *)
Definition fetched (e : Exporter) (topic : string) (partition v : Z) : Prop :=
  accepted e topic = true
  /\ exists partitions,
      sarama.Partitions (client e) topic = Some partitions
      /\ In partition partitions
      /\ sarama.GetOffset (client e) topic partition sarama.OffsetNewest = (v, true).

(** ** Scenarios *)

Module Scenario.
Import sarama.

(** One broker, the topic t with partitions 0 and 1 at offsets 10/5 and
    20/0, the group g with committed offsets 7 and -1. *)
Definition response : OffsetFetchResponse :=
  mkOffsetFetchResponse [("t", [(0, mkBlock 7 0); (1, mkBlock (-1) 0)])].

Definition broker : Broker :=
  mkBroker 1 "kafka:9092" true (Some ["g"])
    (fun groupIds =>
       Some (List.map (fun g => mkGroup g [mkMember (Some [("t", [0; 1])])]) groupIds))
    (fun _ => Some response).

Definition cluster : Client :=
  mkClient [broker] (Some ["t"]) (fun _ => Some [0; 1])
    (fun _ _ => Some broker)
    (fun _ partition which =>
       (if which =? OffsetNewest then (if partition =? 0 then 10 else 20)
        else (if partition =? 0 then 5 else 0), true))
    (fun _ _ => Some [1]) (fun _ _ => Some [1]).

Definition exporter : Exporter :=
  mkExporter cluster (fun _ => true) (fun _ => false) (fun _ => true)
    (fun _ => false) false (kazoo.mkKazoo None) false 3 false.

Definition table : OffsetTable := {[ "t" := {[ 0 := 10; 1 := 20 ]} ]}.

(** The same response with the two partitions ranged over in the other order. *)
Definition response' : OffsetFetchResponse :=
  mkOffsetFetchResponse [("t", [(1, mkBlock (-1) 0); (0, mkBlock 7 0)])].

(** A broker with two groups; the only member of the first has an
    assignment that does not decode. *)
Definition describe (groupIds : list string) : option (list GroupDescription) :=
  Some (List.map
          (fun g => mkGroup g [mkMember (if String.eqb g "g1" then None
                                         else Some [("t", [0; 1])])])
          groupIds).

Definition broker2 : Broker :=
  mkBroker 1 "kafka:9092" true (Some ["g1"; "g2"]) describe (fun _ => Some response).

(** The same broker when it only knows the second group. *)
Definition broker2' : Broker :=
  mkBroker 1 "kafka:9092" true (Some ["g2"]) describe (fun _ => Some response).

(** Ten topics and three configured workers. *)
Definition tenTopics : list string :=
  ["t0"; "t1"; "t2"; "t3"; "t4"; "t5"; "t6"; "t7"; "t8"; "t9"].

(** Two topics and no configured worker. *)
Definition noWorker : Exporter :=
  mkExporter
    (mkClient [broker] (Some ["a"; "b"]) (fun _ => Some [0; 1])
       (fun _ _ => Some broker) (fun _ _ _ => (0, true))
       (fun _ _ => Some [1]) (fun _ _ => Some [1]))
    (fun _ => true) (fun _ => false) (fun _ => true)
    (fun _ => false) false (kazoo.mkKazoo None) false 0 false.

End Scenario.

(** ** A cluster that does not answer

    The client has no broker and cannot list the topics. *)

Module Outage.
Import sarama.

Definition cluster : Client :=
  mkClient [] None (fun _ => None) (fun _ _ => None) (fun _ _ _ => (0, false))
    (fun _ _ => None) (fun _ _ => None).

Definition exporter : Exporter :=
  mkExporter cluster (fun _ => true) (fun _ => false) (fun _ => true)
    (fun _ => false) false (kazoo.mkKazoo None) false 3 false.

End Outage.

(** ** The scenario with [offsetShowAll]

    The exporter of the scenario asked to show the offsets of every
    partition of the table, and the broker with the group of the
    undecodable assignment. *)

Module ShowAll.

Definition exporter : Exporter :=
  mkExporter Scenario.cluster (fun _ => true) (fun _ => false) (fun _ => true)
    (fun _ => false) false (kazoo.mkKazoo None) true 3 false.

Definition g1 : sarama.GroupDescription :=
  sarama.mkGroup "g1" [sarama.mkMember None].

Definition g2 : sarama.GroupDescription :=
  sarama.mkGroup "g2" [sarama.mkMember (Some [("t", [0; 1])])].

End ShowAll.

(** ** The scenario with [allowConcurrent] *)

Module Concurrent.

Definition exporter : Exporter :=
  mkExporter Scenario.cluster (fun _ => true) (fun _ => false) (fun _ => true)
    (fun _ => false) false (kazoo.mkKazoo None) false 3 true.

End Concurrent.


(** ** The descriptors: [Setup] (l.712-806) and [Describe] (l.296-311) *)

Module prometheus.

(** [prometheus.BuildFQName]: the parts that are not empty joined by an
    underscore; the empty string when the name is empty. *)
Definition BuildFQName (namespace subsystem name : string) : string :=
  if decide (name = "") then ""
  else if decide (namespace = "") then
    if decide (subsystem = "") then name else subsystem ++ "_" ++ name
  else if decide (subsystem = "") then namespace ++ "_" ++ name
  else namespace ++ "_" ++ subsystem ++ "_" ++ name.

(** The arguments of [prometheus.NewDesc]; [constLabels] is [None] for
    [nil]. *)
Record DescOpts := NewDesc
  { fqName : string;
    help : string;
    variableLabels : list string;
    constLabels : option (gmap string string) }.

End prometheus.

Definition namespace : string := "kafka".

(** The descriptor that [Setup] stores in each of the package variables of
    l.38-55. *)
Definition Setup (labels : gmap string string) (d : Desc) : prometheus.DescOpts :=
  match d with
  | clusterBrokers =>
      prometheus.NewDesc (prometheus.BuildFQName namespace "" "brokers")
        "Number of Brokers in the Kafka Cluster."
        [] (Some labels)
  | clusterBrokerInfo =>
      prometheus.NewDesc (prometheus.BuildFQName namespace "" "broker_info")
        "Information about the Kafka Broker."
        ["id"; "address"] (Some labels)
  | topicPartitions =>
      prometheus.NewDesc (prometheus.BuildFQName namespace "topic" "partitions")
        "Number of partitions for this Topic"
        ["topic"] (Some labels)
  | topicCurrentOffset =>
      prometheus.NewDesc
        (prometheus.BuildFQName namespace "topic" "partition_current_offset")
        "Current Offset of a Broker at Topic/Partition"
        ["topic"; "partition"] (Some labels)
  | topicOldestOffset =>
      prometheus.NewDesc
        (prometheus.BuildFQName namespace "topic" "partition_oldest_offset")
        "Oldest Offset of a Broker at Topic/Partition"
        ["topic"; "partition"] (Some labels)
  | topicPartitionLeader =>
      prometheus.NewDesc (prometheus.BuildFQName namespace "topic" "partition_leader")
        "Leader Broker ID of this Topic/Partition"
        ["topic"; "partition"] (Some labels)
  | topicPartitionReplicas =>
      prometheus.NewDesc (prometheus.BuildFQName namespace "topic" "partition_replicas")
        "Number of Replicas for this Topic/Partition"
        ["topic"; "partition"] (Some labels)
  | topicPartitionInSyncReplicas =>
      prometheus.NewDesc
        (prometheus.BuildFQName namespace "topic" "partition_in_sync_replica")
        "Number of In-Sync Replicas for this Topic/Partition"
        ["topic"; "partition"] (Some labels)
  | topicPartitionUsesPreferredReplica =>
      prometheus.NewDesc
        (prometheus.BuildFQName namespace "topic" "partition_leader_is_preferred")
        "1 if Topic/Partition is using the Preferred Broker"
        ["topic"; "partition"] (Some labels)
  | topicUnderReplicatedPartition =>
      prometheus.NewDesc
        (prometheus.BuildFQName namespace "topic" "partition_under_replicated_partition")
        "1 if Topic/Partition is under Replicated"
        ["topic"; "partition"] (Some labels)
  | consumergroupCurrentOffset =>
      prometheus.NewDesc (prometheus.BuildFQName namespace "consumergroup" "current_offset")
        "Current Offset of a ConsumerGroup at Topic/Partition"
        ["consumergroup"; "topic"; "partition"] (Some labels)
  | consumergroupCurrentOffsetSum =>
      prometheus.NewDesc
        (prometheus.BuildFQName namespace "consumergroup" "current_offset_sum")
        "Current Offset of a ConsumerGroup at Topic for all partitions"
        ["consumergroup"; "topic"] (Some labels)
  | consumergroupLag =>
      prometheus.NewDesc (prometheus.BuildFQName namespace "consumergroup" "lag")
        "Current Approximate Lag of a ConsumerGroup at Topic/Partition"
        ["consumergroup"; "topic"; "partition"] (Some labels)
  | consumergroupLagZookeeper =>
      prometheus.NewDesc
        (prometheus.BuildFQName namespace "consumergroupzookeeper" "lag_zookeeper")
        "Current Approximate Lag(zookeeper) of a ConsumerGroup at Topic/Partition"
        ["consumergroup"; "topic"; "partition"] None
  | consumergroupLagSum =>
      prometheus.NewDesc (prometheus.BuildFQName namespace "consumergroup" "lag_sum")
        "Current Approximate Lag of a ConsumerGroup at Topic for all partitions"
        ["consumergroup"; "topic"] (Some labels)
  | consumergroupMembers =>
      prometheus.NewDesc (prometheus.BuildFQName namespace "consumergroup" "members")
        "Amount of members in a consumer group"
        ["consumergroup"] (Some labels)
  end.

(** What [Describe] sends on its channel, in order. *)
Definition Describe : list Desc :=
  [clusterBrokers; topicCurrentOffset; topicOldestOffset; topicPartitions;
   topicPartitionLeader; topicPartitionReplicas; topicPartitionInSyncReplicas;
   topicPartitionUsesPreferredReplica; topicUnderReplicatedPartition;
   consumergroupCurrentOffset; consumergroupCurrentOffsetSum; consumergroupLag;
   consumergroupLagZookeeper; consumergroupLagSum].

(** * Package dsn: connection strings

    The second source file carries the package that parses the datasource
    of the PostgreSQL plugin.  A Go string is taken as the sequence of code
    points that [for _, c := range in] yields, and [string(part)] as the
    sequence itself. *)

Module dsn.

Abbreviation rune := Z.

(** The code points of a literal of ASCII characters. *)
Definition runes (s : string) : list rune :=
  List.map (fun c => Z.of_nat (Ascii.nat_of_ascii c)) (list_ascii_of_string s).

(** [url.Values], with [Set] and [Del]. *)
Abbreviation Values := (gmap (list rune) (list (list rune))).

Record DSN := mkDSN
  { scheme : list rune;
    username : list rune;
    password : list rune;
    host : list rune;
    path : list rune;
    query : Values }.

(** [DSN{}] *)
Definition zero : DSN := mkDSN [] [] [] [] [] ∅.

(** The variables of the loop of [parseKeyValue] (l.285-290). *)
Record parser := mkParser
  { out : gmap (list rune) (list rune);
    inPart : bool;
    inQuote : bool;
    part : list rune;
    key : list rune }.

Section Parser.

(** [unicode.In(c, unicode.Quotation_Mark)] and
    [unicode.In(c, unicode.White_Space)] *)
Variables Quotation_Mark White_Space : rune -> bool.

(** [out[key] = string(part); inPart = false; part = []rune{}] *)
Definition store (p : parser) : parser :=
  mkParser (<[key p := part p]> (out p)) false (inQuote p) [] (key p).

(** One iteration of the loop of l.291-334; [inr out] is
    [return out, fmt.Errorf("invalid input")]. *)
Definition iteration (p : parser) (c : rune)
    : parser + gmap (list rune) (list rune) :=
  if Quotation_Mark c then
    inl (mkParser (out p) (inPart p) (negb (inQuote p)) (part p) (key p))
  else if White_Space c then
    if inPart p then
      if inQuote p then
        inl (mkParser (out p) (inPart p) (inQuote p) (part p ++ [c]) (key p))
      else if decide (key p = []) then inr (out p)
      else inl (store p)
    else if decide (key p = []) then inr (out p)
    else inl (store p)
  else if c =? 61 then
    if inPart p then inl (mkParser (out p) false (inQuote p) [] (part p))
    else inr (out p)
  else inl (mkParser (out p) true (inQuote p) (part p ++ [c]) (key p)).

Fixpoint loop (p : parser) (input : list rune)
    : parser + gmap (list rune) (list rune) :=
  match input with
  | [] => inl p
  | c :: rest =>
      match iteration p c with
      | inl p' => loop p' rest
      | inr o => inr o
      end
  end.

(** l.284-341: the map and the error, [None] for [nil]. *)
Definition parseKeyValue (input : list rune)
    : gmap (list rune) (list rune) * option string :=
  match loop (mkParser ∅ false false [] []) input with
  | inr o => (o, Some "invalid input")
  | inl p =>
      (if bool_decide (key p <> []) && (0 <? len (part p))
       then <[key p := part p]> (out p) else out p,
       None)
  end.

End Parser.

(** The expression of l.230, [^ *[a-zA-Z0-9]+ *= *[^= ]+], as a matcher.
    Each repetition can only be matched in full: what follows it in the
    expression does not match a character that the repetition matches. *)
Definition alnum (c : rune) : bool :=
  ((97 <=? c) && (c <=? 122)) || ((65 <=? c) && (c <=? 90))
  || ((48 <=? c) && (c <=? 57)).

Fixpoint skip (p : rune -> bool) (s : list rune) : list rune :=
  match s with
  | c :: rest => if p c then skip p rest else s
  | [] => []
  end.

Definition connstringRe (input : list rune) : bool :=
  let s1 := skip (Z.eqb 32) input in
  let s2 := skip alnum s1 in
  if (length s2 =? length s1)%nat then false
  else
    match skip (Z.eqb 32) s2 with
    | 61 :: s3 =>
        match skip (Z.eqb 32) s3 with
        | c :: _ => negb (c =? 61)
        | [] => false
        end
    | _ => false
    end.

(** The variables that the loop of l.251-264 assigns. *)
Record fields := mkFields
  { hostname : list rune;
    port : list rune;
    user : list rune;
    pass : list rune;
    rest : Values }.

(** The [switch] of l.252-263. *)
Definition assign (f : fields) (kv : list rune * list rune) : fields :=
  let k := kv.1 in
  let v := kv.2 in
  if decide (k = runes "host") then mkFields v (port f) (user f) (pass f) (rest f)
  else if decide (k = runes "port") then mkFields (hostname f) v (user f) (pass f) (rest f)
  else if decide (k = runes "user") then mkFields (hostname f) (port f) v (pass f) (rest f)
  else if decide (k = runes "password") then
    mkFields (hostname f) (port f) (user f) v (rest f)
  else mkFields (hostname f) (port f) (user f) (pass f) (<[k := [v]]> (rest f)).

(** l.244-278, from the pairs on; the loop ranges over the map in the
    order of [map_to_list]. *)
Definition fromPairs (pairs : gmap (list rune) (list rune)) : DSN :=
  let f := foldl assign (mkFields [] [] [] [] ∅) (map_to_list pairs) in
  let hostname := if decide (hostname f = []) then runes "localhost" else hostname f in
  mkDSN (runes "postgresql") (user f) (pass f)
    (if decide (port f = []) then hostname else hostname ++ runes ":" ++ port f)
    [] (rest f).

Section KeyValue.

Variables Quotation_Mark White_Space : rune -> bool.

(** l.228-279 *)
Definition dsnFromKeyValue (input : list rune) : DSN * option string :=
  if negb (connstringRe input) then (zero, Some "input is not a key-value DSN")
  else
    match parseKeyValue Quotation_Mark White_Space input with
    | (_, Some err) => (zero, Some ("failed to parse key-value DSN: " ++ err)%string)
    | (pairs, None) => (fromPairs pairs, None)
    end.

End KeyValue.

Section Print.

(** [url.Values.Encode] *)
Variable Encode : Values -> list rune.

(** l.139-149 *)
Definition String (d : DSN) : list rune :=
  if decide (password d <> []) then
    scheme d ++ runes "://" ++ username d ++ runes ":******@" ++ host d ++ path d
    ++ runes "?" ++ Encode (query d)
  else if decide (username d <> []) then
    scheme d ++ runes "://" ++ username d ++ runes "@" ++ host d ++ path d
    ++ runes "?" ++ Encode (query d)
  else
    scheme d ++ runes "://" ++ host d ++ path d ++ runes "?" ++ Encode (query d).

End Print.

(** l.129-135 *)
Definition SetUserAndOptions (user pass : list rune)
    (options : gmap (list rune) (list rune)) (d : DSN) : DSN :=
  mkDSN (scheme d) user pass (host d) (path d)
    (foldl (fun q (kv : list rune * list rune) => <[kv.1 := [kv.2]]> q) (query d)
           (map_to_list options)).

(** The runes of the default case of the [switch] of l.292-333, and the
    parts made of them alone. *)
Definition plain (Quotation_Mark White_Space : rune -> bool) (c : rune) : bool :=
  negb (Quotation_Mark c) && negb (White_Space c) && negb (c =? 61).

Definition word (Quotation_Mark White_Space : rune -> bool) (w : list rune) : bool :=
  (0 <? len w) && forallb (plain Quotation_Mark White_Space) w.

(** The tables of package unicode on the code points below 128, for running
    the parser on ASCII input. *)
Definition asciiQuotation (c : rune) : bool := (c =? 34) || (c =? 39).
Definition asciiSpace (c : rune) : bool := ((9 <=? c) && (c <=? 13)) || (c =? 32).

End dsn.

(** * Properties *)

(** ** Integers and labels *)

Lemma wrap64_int64 z : int64 z -> wrap64 z = z.
Proof.
  unfold int64, wrap64. intros H.
  rewrite Z.mod_small by lia. lia.
Qed.

Lemma wrap64_range z : int64 (wrap64 z).
Proof.
  unfold int64, wrap64.
  pose proof (Z.mod_pos_bound (z + 2 ^ 63) (2 ^ 64) ltac:(lia)). lia.
Qed.

Lemma wrap64_add_l a b : wrap64 (wrap64 a + b) = wrap64 (a + b).
Proof.
  unfold wrap64.
  replace ((a + 2 ^ 63) mod 2 ^ 64 - 2 ^ 63 + b + 2 ^ 63)
    with ((a + 2 ^ 63) mod 2 ^ 64 + b) by lia.
  rewrite Zplus_mod_idemp_l. f_equal. f_equal. lia.
Qed.

Lemma wrap64_add_r a b : wrap64 (a + wrap64 b) = wrap64 (a + b).
Proof. rewrite Z.add_comm, wrap64_add_l. f_equal. lia. Qed.

Lemma sub64_exact a b : int64 (a - b) -> sub64 a b = a - b.
Proof. apply wrap64_int64. Qed.

Lemma FormatInt_inj a b : FormatInt a = FormatInt b -> a = b.
Proof.
  unfold FormatInt. intros H.
  apply DecimalZ.to_int_inj.
  assert (Hnn : forall z, Z.to_int z <> Decimal.Pos Decimal.Nil
                          /\ Z.to_int z <> Decimal.Neg Decimal.Nil).
  { intros [|q|q]; simpl; split; try discriminate.
    - unfold Pos.to_int. intros Hq. injection Hq as Hq.
      pose proof (DecimalPos.Unsigned.to_uint_nonnil q). congruence.
    - unfold Pos.to_int. intros Hq. injection Hq as Hq.
      pose proof (DecimalPos.Unsigned.to_uint_nonnil q). congruence. }
  pose proof (NilZero.isi (Z.to_int a) (proj1 (Hnn a)) (proj2 (Hnn a))) as Ha.
  pose proof (NilZero.isi (Z.to_int b) (proj1 (Hnn b)) (proj2 (Hnn b))) as Hb.
  rewrite H in Ha. congruence.
Qed.

(** ** The loop over the blocks of a topic *)

Section PartitionsLoop.

Import sarama.

Variable offset : OffsetTable.
Variables group topic : string.

Lemma partitionStep_sent a pb :
  sent (partitionStep offset group topic a pb)
  = sent a ++ partitionMetrics offset group topic pb.
Proof.
  unfold partitionStep, partitionMetrics, lagOf, noError.
  destruct (Err pb.2 =? ErrNoError); simpl; [|by rewrite app_nil_r].
  destruct (lookupOffset offset topic pb.1); [|done].
  by destruct (Offset pb.2 =? -1).
Qed.

Lemma foldl_partitionStep_sent partitions a :
  sent (foldl (partitionStep offset group topic) a partitions)
  = sent a ++ flat_map (partitionMetrics offset group topic) partitions.
Proof.
  revert a. induction partitions as [|pb partitions IH]; intros a; simpl.
  - by rewrite app_nil_r.
  - by rewrite IH, partitionStep_sent, <- app_assoc.
Qed.

Lemma partitionsLoop_sent partitions :
  sent (partitionsLoop offset group topic partitions)
  = flat_map (partitionMetrics offset group topic) partitions.
Proof. unfold partitionsLoop. by rewrite foldl_partitionStep_sent. Qed.

Lemma foldl_partitionStep_currentOffsetSum partitions a :
  int64 (currentOffsetSum a) ->
  currentOffsetSum (foldl (partitionStep offset group topic) a partitions)
  = wrap64 (currentOffsetSum a + sumZ (committedOffsets partitions)).
Proof.
  revert a. induction partitions as [|pb partitions IH]; intros a Ha; simpl.
  - rewrite Z.add_0_r. symmetry. by apply wrap64_int64.
  - unfold committedOffsets. simpl. unfold noError at 1.
    unfold partitionStep at 2.
    destruct (Err pb.2 =? ErrNoError) eqn:Herr; simpl.
    + fold (committedOffsets partitions).
      assert (Hsum : forall (x : partitionLoop),
                 currentOffsetSum x = add64 (currentOffsetSum a) (Offset pb.2) ->
                 currentOffsetSum (foldl (partitionStep offset group topic) x partitions)
                 = wrap64 (currentOffsetSum a
                           + (Offset pb.2 + sumZ (committedOffsets partitions)))).
      { intros x Hx. rewrite IH by (rewrite Hx; apply wrap64_range).
        rewrite Hx. unfold add64. rewrite wrap64_add_l. f_equal. lia. }
      destruct (lookupOffset offset topic pb.1); [|by apply Hsum].
      destruct (Offset pb.2 =? -1); by apply Hsum.
    + by apply IH.
Qed.

Lemma partitionsLoop_currentOffsetSum partitions :
  currentOffsetSum (partitionsLoop offset group topic partitions)
  = wrap64 (sumZ (committedOffsets partitions)).
Proof.
  unfold partitionsLoop. rewrite foldl_partitionStep_currentOffsetSum; [done|].
  simpl. unfold int64. lia.
Qed.

Lemma computedLags_cons pb partitions :
  computedLags offset topic (pb :: partitions)
  = (if Offset pb.2 =? -1 then []
     else match lagOf offset topic pb with Some lag => [lag] | None => [] end)
    ++ computedLags offset topic partitions.
Proof.
  unfold computedLags. simpl.
  destruct (Offset pb.2 =? -1); simpl; [done|].
  by destruct (lagOf offset topic pb).
Qed.

Lemma foldl_partitionStep_lagSum partitions a :
  int64 (lagSum a) ->
  lagSum (foldl (partitionStep offset group topic) a partitions)
  = wrap64 (lagSum a + sumZ (computedLags offset topic partitions)).
Proof.
  revert a. induction partitions as [|pb partitions IH]; intros a Ha.
  - simpl. rewrite Z.add_0_r. symmetry. by apply wrap64_int64.
  - rewrite computedLags_cons. simpl foldl.
    unfold partitionStep at 2, lagOf, noError.
    destruct (Err pb.2 =? ErrNoError) eqn:Herr; simpl.
    + destruct (lookupOffset offset topic pb.1) as [off|] eqn:Hoff.
      * destruct (Offset pb.2 =? -1) eqn:Hm; simpl.
        -- by rewrite IH.
        -- rewrite IH by apply wrap64_range. simpl.
           unfold add64. rewrite wrap64_add_l. f_equal. lia.
      * destruct (Offset pb.2 =? -1) eqn:Hm; simpl; by rewrite IH.
    + destruct (Offset pb.2 =? -1) eqn:Hm; simpl; by apply IH.
Qed.

Lemma partitionsLoop_lagSum partitions :
  lagSum (partitionsLoop offset group topic partitions)
  = wrap64 (sumZ (computedLags offset topic partitions)).
Proof.
  unfold partitionsLoop. rewrite foldl_partitionStep_lagSum; [done|].
  simpl. unfold int64. lia.
Qed.

End PartitionsLoop.

(** ** The metrics of one topic of an offset-fetch response *)

Section TopicBlocks.

Import sarama.

Variable offset : OffsetTable.
Variables group topic : string.

Lemma topicBlocks_consumed partitions :
  topicConsumed partitions = true ->
  topicBlocks offset group topic partitions
  = flat_map (partitionMetrics offset group topic) partitions
    ++ [MustNewConstMetric consumergroupCurrentOffsetSum
          (wrap64 (sumZ (committedOffsets partitions))) [group; topic];
        MustNewConstMetric consumergroupLagSum
          (wrap64 (sumZ (computedLags offset topic partitions))) [group; topic]].
Proof.
  intros H. unfold topicBlocks. rewrite H. cbv zeta.
  by rewrite partitionsLoop_sent, partitionsLoop_currentOffsetSum,
    partitionsLoop_lagSum.
Qed.

Lemma topicBlocks_not_consumed partitions :
  topicConsumed partitions = false ->
  topicBlocks offset group topic partitions = [].
Proof. intros H. unfold topicBlocks. by rewrite H. Qed.

(** A partition has one block in the map it is a key of. *)
Lemma block_unique (partitions : list (Z * OffsetFetchResponseBlock)) p b b' :
  NoDup (List.map fst partitions) ->
  In (p, b) partitions -> In (p, b') partitions -> b = b'.
Proof.
  induction partitions as [|[q c] partitions IH]; simpl; [done|].
  intros Hnd [Hb|Hb] [Hb'|Hb']; apply NoDup_cons in Hnd as [Hq Hnd].
  - congruence.
  - injection Hb as -> ->. exfalso. apply Hq.
    apply list_elem_of_In, in_map_iff. by exists (p, b').
  - injection Hb' as -> ->. exfalso. apply Hq.
    apply list_elem_of_In, in_map_iff. by exists (p, b).
  - by apply IH.
Qed.

(** The per-partition metrics of a partition come from its own block. *)
Lemma partitionMetrics_labels pb m :
  In m (partitionMetrics offset group topic pb) ->
  labelValues m = [group; topic; FormatInt pb.1]
  /\ (desc m = consumergroupCurrentOffset \/ desc m = consumergroupLag)
  /\ noError pb = true.
Proof.
  unfold partitionMetrics. destruct (noError pb); [|done].
  intros [<-|H]; [by auto|].
  destruct (lagOf offset topic pb); [|done].
  destruct H as [<-|[]]. by auto.
Qed.

Lemma in_topicBlocks_partition partitions p b d v :
  NoDup (List.map fst partitions) ->
  In (p, b) partitions ->
  d = consumergroupCurrentOffset \/ d = consumergroupLag ->
  In (MustNewConstMetric d v [group; topic; FormatInt p])
     (topicBlocks offset group topic partitions)
  <-> topicConsumed partitions = true
      /\ In (MustNewConstMetric d v [group; topic; FormatInt p])
            (partitionMetrics offset group topic (p, b)).
Proof.
  intros Hnd Hb Hd. split.
  - intros H. destruct (topicConsumed partitions) eqn:Hc;
      [|by rewrite topicBlocks_not_consumed in H].
    split; [done|]. rewrite topicBlocks_consumed in H by done.
    apply in_app_iff in H as [H|H].
    + apply in_flat_map in H as ([q c] & Hq & H).
      pose proof (partitionMetrics_labels _ _ H) as (Hl & _ & _). simpl in Hl.
      injection Hl as Hl. apply FormatInt_inj in Hl. subst q.
      by rewrite (block_unique _ _ _ _ Hnd Hb Hq).
    + destruct Hd as [-> | ->]; destruct H as [H|[H|[]]]; discriminate.
  - intros [Hc H]. rewrite topicBlocks_consumed by done.
    apply in_app_iff. left. apply in_flat_map. by exists (p, b).
Qed.

End TopicBlocks.

(** ** The consumer-group metrics of a partition and of a topic *)

(** C2.  For a block of a consumed topic that carries no error and whose
    partition has an entry [off] in the offset table, the [consumergroup_lag]
    sent for (group, topic, partition) is -1 when the committed offset is -1,
    and otherwise the [int64] difference [off - committed], which is the exact
    difference whenever that fits an [int64]. *)
Theorem consumergroup_lag_of_partition
    (offset : OffsetTable) (group topic : string)
    (partitions : list (Z * sarama.OffsetFetchResponseBlock))
    (partition : Z) (block : sarama.OffsetFetchResponseBlock) (off : Z) :
  NoDup (List.map fst partitions) ->
  In (partition, block) partitions ->
  topicConsumed partitions = true ->
  sarama.Err block = sarama.ErrNoError ->
  lookupOffset offset topic partition = Some off ->
  (forall lag,
      In (MustNewConstMetric consumergroupLag lag [group; topic; FormatInt partition])
         (topicBlocks offset group topic partitions)
      <-> lag = if sarama.Offset block =? -1 then -1
                else sub64 off (sarama.Offset block))
  /\ (int64 (off - sarama.Offset block) ->
      sub64 off (sarama.Offset block) = off - sarama.Offset block).
Proof.
  intros Hnd Hb Hc Herr Hoff. split; [|apply sub64_exact].
  intros lag.
  rewrite (in_topicBlocks_partition offset group topic partitions partition block
             consumergroupLag lag Hnd Hb (or_intror eq_refl)).
  unfold partitionMetrics, lagOf, noError. simpl. rewrite Herr, Hoff. simpl.
  split.
  - intros [_ [H|[H|[]]]]; [discriminate|]. by injection H.
  - intros ->. split; [done|]. right. by left.
Qed.

Lemma consumergroup_lag_of_partition_witness :
  In (MustNewConstMetric consumergroupLag 3 ["g"; "t"; FormatInt 0])
     (topicBlocks Scenario.table "g" "t"
        [(0, sarama.mkBlock 7 0); (1, sarama.mkBlock (-1) 0)]).
Proof.
  apply (consumergroup_lag_of_partition Scenario.table "g" "t"
           [(0, sarama.mkBlock 7 0); (1, sarama.mkBlock (-1) 0)]
           0 (sarama.mkBlock 7 0) 10).
  - apply (bool_decide_unpack _). vm_compute. exact I.
  - simpl. left. reflexivity.
  - reflexivity.
  - reflexivity.
  - reflexivity.
  - reflexivity.
Defined.

(** C3, as the code has it.  For a topic with some committed offset other
    than -1, [consumergroup_current_offset_sum] is the [int64] sum of the
    committed offsets of all the blocks without error, the markers -1
    included, and [consumergroup_lag_sum] is the [int64] sum of the lags of
    the blocks without error whose committed offset is not -1 and whose
    partition is in the offset table.  In the scenario (offsets 10 and 20,
    committed 7 and -1) the two sums are 6 and 3. *)
Theorem consumergroup_sums_of_topic
    (offset : OffsetTable) (group topic : string)
    (partitions : list (Z * sarama.OffsetFetchResponseBlock)) :
  (topicConsumed partitions = true ->
   topicBlocks offset group topic partitions
   = flat_map (partitionMetrics offset group topic) partitions
     ++ [MustNewConstMetric consumergroupCurrentOffsetSum
           (wrap64 (sumZ (committedOffsets partitions))) [group; topic];
         MustNewConstMetric consumergroupLagSum
           (wrap64 (sumZ (computedLags offset topic partitions))) [group; topic]])
  /\ getConsumerGroupMetrics Scenario.exporter Scenario.table Scenario.broker
     = [MustNewConstMetric consumergroupMembers 1 ["g"];
        MustNewConstMetric consumergroupCurrentOffset 7 ["g"; "t"; "0"];
        MustNewConstMetric consumergroupLag 3 ["g"; "t"; "0"];
        MustNewConstMetric consumergroupCurrentOffset (-1) ["g"; "t"; "1"];
        MustNewConstMetric consumergroupLag (-1) ["g"; "t"; "1"];
        MustNewConstMetric consumergroupCurrentOffsetSum 6 ["g"; "t"];
        MustNewConstMetric consumergroupLagSum 3 ["g"; "t"]].
Proof.
  split; [apply topicBlocks_consumed | by vm_compute].
Qed.

Lemma consumergroup_sums_of_topic_witness :
  topicBlocks Scenario.table "g" "t"
    [(0, sarama.mkBlock 7 0); (1, sarama.mkBlock (-1) 0)]
  = flat_map (partitionMetrics Scenario.table "g" "t")
      [(0, sarama.mkBlock 7 0); (1, sarama.mkBlock (-1) 0)]
    ++ [MustNewConstMetric consumergroupCurrentOffsetSum
          (wrap64 (sumZ (committedOffsets
                           [(0, sarama.mkBlock 7 0); (1, sarama.mkBlock (-1) 0)])))
          ["g"; "t"];
        MustNewConstMetric consumergroupLagSum
          (wrap64 (sumZ (computedLags Scenario.table "t"
                           [(0, sarama.mkBlock 7 0); (1, sarama.mkBlock (-1) 0)])))
          ["g"; "t"]].
Proof.
  apply (proj1 (consumergroup_sums_of_topic Scenario.table "g" "t"
                  [(0, sarama.mkBlock 7 0); (1, sarama.mkBlock (-1) 0)])).
  reflexivity.
Defined.

(** C3 as stated fails in its own scenario: whichever way the two partitions
    are ranged over, the current-offset sum that is sent is 6 = 7 + (-1),
    not 7. *)
Lemma current_offset_sum_counts_the_marker :
  (In (MustNewConstMetric consumergroupCurrentOffsetSum 6 ["g"; "t"])
      (getConsumerGroupMetrics Scenario.exporter Scenario.table Scenario.broker)
   /\ ~ In (MustNewConstMetric consumergroupCurrentOffsetSum 7 ["g"; "t"])
         (getConsumerGroupMetrics Scenario.exporter Scenario.table Scenario.broker))
  /\ (In (MustNewConstMetric consumergroupCurrentOffsetSum 6 ["g"; "t"])
         (topicBlocks Scenario.table "g" "t" [(1, sarama.mkBlock (-1) 0); (0, sarama.mkBlock 7 0)])
      /\ ~ In (MustNewConstMetric consumergroupCurrentOffsetSum 7 ["g"; "t"])
            (topicBlocks Scenario.table "g" "t" [(1, sarama.mkBlock (-1) 0); (0, sarama.mkBlock 7 0)])).
Proof.
  repeat split.
  - vm_compute. tauto.
  - vm_compute. intros H. repeat destruct H as [H|H]; try discriminate H. done.
  - vm_compute. tauto.
  - vm_compute. intros H. repeat destruct H as [H|H]; try discriminate H. done.
Qed.



(** ** The loop over the described groups *)

Section GroupsLoop.

Import sarama.

Variable e : Exporter.
Variable offset : OffsetTable.

Lemma addMembers_failure members r :
  (exists member, In member members /\ GetMemberAssignment member = None) ->
  addMembers members r = None.
Proof.
  revert r. induction members as [|m members IH]; intros r (member & Hin & Hnone).
  - destruct Hin.
  - simpl. destruct (GetMemberAssignment m) eqn:Hm; [|done].
    apply IH. destruct Hin as [->|Hin]; [congruence|by exists member].
Qed.

(** The [return] of l.585 ends the loop over the groups: nothing is sent for
    the group whose member does not decode, nor for the groups after it. *)
Lemma groupsLoop_assignment_failure broker group groups :
  offsetShowAll e = false ->
  (exists member, In member (Members group) /\ GetMemberAssignment member = None) ->
  groupsLoop e offset broker (group :: groups) = [].
Proof.
  intros Hall Hm. simpl. unfold buildOffsetFetchRequest. rewrite Hall.
  by rewrite addMembers_failure.
Qed.

(** When the request of a group is built, its member count is the first
    thing sent, whatever [FetchOffset] answers. *)
Lemma groupsLoop_members_first broker group groups r :
  buildOffsetFetchRequest e offset group = Some r ->
  exists rest,
    groupsLoop e offset broker (group :: groups)
    = MustNewConstMetric consumergroupMembers (len (Members group)) [GroupId group]
      :: rest
    /\ (FetchOffset broker r = None -> rest = groupsLoop e offset broker groups).
Proof.
  intros Hr. simpl. rewrite Hr. eexists. split; [reflexivity|].
  by intros ->.
Qed.

End GroupsLoop.

(** C5, on the code.  In members-only mode a broker describes the groups g1
    and g2, and the assignment of the member of g1 does not decode: the
    broker's task sends nothing at all, although g2 alone is reported in
    full. *)
Theorem assignment_failure_ends_the_broker_task :
  offsetShowAll Scenario.exporter = false
  /\ getConsumerGroupMetrics Scenario.exporter Scenario.table Scenario.broker2 = []
  /\ getConsumerGroupMetrics Scenario.exporter Scenario.table Scenario.broker2'
     = [MustNewConstMetric consumergroupMembers 1 ["g2"];
        MustNewConstMetric consumergroupCurrentOffset 7 ["g2"; "t"; "0"];
        MustNewConstMetric consumergroupLag 3 ["g2"; "t"; "0"];
        MustNewConstMetric consumergroupCurrentOffset (-1) ["g2"; "t"; "1"];
        MustNewConstMetric consumergroupLag (-1) ["g2"; "t"; "1"];
        MustNewConstMetric consumergroupCurrentOffsetSum 6 ["g2"; "t"];
        MustNewConstMetric consumergroupLagSum 3 ["g2"; "t"]].
Proof. by vm_compute. Qed.

(** C6, on the code.  The group g2 is listed, passes the group filter and is
    described with one member whose assignment decodes, yet no
    [consumergroup_members] is sent for it: the task has returned at g1. *)
Theorem members_metric_lost_after_assignment_failure :
  sarama.ListGroups Scenario.broker2 = Some ["g1"; "g2"]
  /\ groupFilter Scenario.exporter "g2" && negb (groupExclude Scenario.exporter "g2") = true
  /\ sarama.DescribeGroups Scenario.broker2 ["g1"; "g2"]
     = Some [sarama.mkGroup "g1" [sarama.mkMember None];
             sarama.mkGroup "g2" [sarama.mkMember (Some [("t", [0; 1])])]]
  /\ forall v,
      ~ In (MustNewConstMetric consumergroupMembers v ["g2"])
           (getConsumerGroupMetrics Scenario.exporter Scenario.table Scenario.broker2).
Proof.
  repeat split; try by vm_compute.
Qed.

(** ** The preferred-replica indicator *)

Lemma leaderIsPreferred_total broker replicas :
  exists v, leaderIsPreferred broker replicas = Some v.
Proof.
  unfold leaderIsPreferred.
  destruct broker as [b|]; [|by eexists].
  destruct replicas as [[|r0 r]|]; by eexists.
Qed.


Lemma zookeeperLag_sends e topic partition currentOffset ev :
  In ev (zookeeperLag e topic partition currentOffset) ->
  exists group v,
    ev = Send (MustNewConstMetric consumergroupLagZookeeper v
                 [group; topic; FormatInt partition]).
Proof.
  unfold zookeeperLag. destruct (useZooKeeperLag e); [|done].
  intros H. apply in_flat_map in H as (g & _ & H).
  destruct (0 <? kazoo.FetchOffset g topic partition); [|done].
  destruct H as [<-|[]]. by eexists _, _.
Qed.

(** ** The events of a topic *)

Section TopicEvents.

Import sarama.

Variable e : Exporter.

(** What an iteration over a partition can do: send a metric of the topic
    phase that carries the topic, or store the newest offset it fetched. *)
Lemma partitionEvents_classify topic partition ev :
  In ev (partitionEvents e topic partition) ->
  match ev with
  | Send m => topicLevel m = true /\ topicOf m = Some topic
  | SetOffset t p v =>
      t = topic /\ p = partition
      /\ GetOffset (client e) topic partition OffsetNewest = (v, true)
  | _ => False
  end.
Proof.
  unfold partitionEvents.
  destruct (leaderIsPreferred_total (Leader (client e) topic partition)
              (Replicas (client e) topic partition)) as [pref ->].
  rewrite !in_app_iff.
  intros [H|[H|[H|[H|[H|[H|[H|H]]]]]]].
  - destruct (Leader (client e) topic partition); [|done].
    by destruct H as [<-|[]].
  - destruct (GetOffset (client e) topic partition OffsetNewest) as [v ok] eqn:Hg.
    simpl in H. destruct ok; [|done].
    by destruct H as [<-|[<-|[]]].
  - destruct (GetOffset (client e) topic partition OffsetOldest) as [v ok].
    simpl in H. destruct ok; [|done].
    by destruct H as [<-|[]].
  - destruct (Replicas (client e) topic partition); [|done].
    by destruct H as [<-|[]].
  - destruct (InSyncReplicas (client e) topic partition); [|done].
    by destruct H as [<-|[]].
  - destruct pref; by destruct H as [<-|[]].
  - by destruct H as [<-|[]].
  - apply zookeeperLag_sends in H as (g & v & ->). done.
Qed.

Lemma partitionEvents_SetOffset topic partition v :
  GetOffset (client e) topic partition OffsetNewest = (v, true) ->
  In (SetOffset topic partition v) (partitionEvents e topic partition).
Proof.
  intros H. unfold partitionEvents. rewrite !in_app_iff. right. left.
  rewrite H. simpl. by left.
Qed.

Lemma getTopicMetrics_rejected topic :
  accepted e topic = false -> getTopicMetrics e topic = [].
Proof.
  unfold accepted, getTopicMetrics.
  by destruct (topicFilter e topic), (topicExclude e topic).
Qed.

Lemma getTopicMetrics_accepted topic :
  accepted e topic = true ->
  getTopicMetrics e topic
  = FetchPartitions topic ::
    match Partitions (client e) topic with
    | None => []
    | Some partitions =>
        Send (MustNewConstMetric topicPartitions (len partitions) [topic])
        :: MakeTopic topic
        :: flat_map (partitionEvents e topic) partitions
    end.
Proof.
  unfold accepted, getTopicMetrics.
  by destruct (topicFilter e topic), (topicExclude e topic).
Qed.

(** Where each kind of event sits in the work on a topic. *)
Lemma getTopicMetrics_classify topic pc ev :
  getTopicMetrics e topic !! pc = Some ev ->
  accepted e topic = true
  /\ match ev with
     | FetchPartitions t => t = topic /\ pc = 0%nat
     | MakeTopic t => t = topic /\ pc = 2%nat
     | SetOffset t p v =>
         t = topic /\ (3 <= pc)%nat
         /\ GetOffset (client e) topic p OffsetNewest = (v, true)
     | Send m => topicLevel m = true /\ topicOf m = Some topic
     | Panic => False
     end.
Proof.
  destruct (accepted e topic) eqn:Hacc;
    [|by rewrite getTopicMetrics_rejected]. split; [done|].
  rewrite getTopicMetrics_accepted in H by done.
  destruct pc as [|[|[|pc]]]; simpl in H.
  - by injection H as <-.
  - destruct (Partitions (client e) topic); [|done]. by injection H as <-.
  - destruct (Partitions (client e) topic); [|done]. by injection H as <-.
  - destruct (Partitions (client e) topic) as [partitions|]; [|done].
    simpl in H. apply list_elem_of_lookup_2, list_elem_of_In in H.
    apply in_flat_map in H as (p & _ & H).
    apply partitionEvents_classify in H.
    destruct ev as [| | |t q v|]; try done.
    destruct H as (-> & -> & H). split; [done|]. split; [lia|done].
Qed.

Lemma getTopicMetrics_MakeTopic topic ev :
  getTopicMetrics e topic !! 2%nat = Some ev -> ev = MakeTopic topic.
Proof.
  intros H. pose proof (getTopicMetrics_classify _ _ _ H) as [Hacc _].
  rewrite getTopicMetrics_accepted in H by done. simpl in H.
  destruct (Partitions (client e) topic); [|done]. by injection H.
Qed.

Lemma getTopicMetrics_fetched topic partition v :
  fetched e topic partition v ->
  In (SetOffset topic partition v) (drop 3 (getTopicMetrics e topic)).
Proof.
  intros (Hacc & partitions & Hp & Hin & Hg).
  rewrite getTopicMetrics_accepted by done. rewrite Hp. simpl.
  apply in_flat_map. exists partition. split; [done|].
  by apply partitionEvents_SetOffset.
Qed.


End TopicEvents.

(** ** Invariants of [collect] *)

Ltac fields :=
  cbn [main workers tasks wg offset history crashed withMain withWorkers
       withTasks withWg withOffset record crash pendingTopics initial].
Tactic Notation "fields" "in" hyp(H) "|-" "*" :=
  cbn [main workers tasks wg offset history crashed withMain withWorkers
       withTasks withWg withOffset record crash pendingTopics initial] in H |- *.

Section Invariants.

Import sarama.

Variable e : Exporter.

#[local] Arguments execute : simpl never.
#[local] Arguments brokerMetrics : simpl never.
#[local] Arguments getTopicMetrics : simpl never.
#[local] Arguments getConsumerGroupMetrics : simpl never.

Lemma execute_main ev s : main (execute ev s) = main s.
Proof. destruct ev; unfold execute; cbn; try done; by destruct (offset s !! topic). Qed.

Lemma execute_workers ev s : workers (execute ev s) = workers s.
Proof. destruct ev; unfold execute; cbn; try done; by destruct (offset s !! topic). Qed.

Lemma execute_tasks ev s : tasks (execute ev s) = tasks s.
Proof. destruct ev; unfold execute; cbn; try done; by destruct (offset s !! topic). Qed.

Lemma execute_wg ev s : wg (execute ev s) = wg s.
Proof. destruct ev; unfold execute; cbn; try done; by destruct (offset s !! topic). Qed.

Lemma execute_history ev s : history (execute ev s) = history s ++ [ev].
Proof. destruct ev; unfold execute; cbn; try done; by destruct (offset s !! topic). Qed.

(** No entry of the outer map is ever removed. *)
Lemma execute_offset_mono ev s t :
  is_Some (offset s !! t) -> is_Some (offset (execute ev s) !! t).
Proof.
  intros H. destruct ev as [| |topic|topic p v|]; unfold execute; cbn; try done.
  - destruct (decide (topic = t)) as [->|Hne].
    + rewrite lookup_insert_eq. by eexists.
    + by rewrite lookup_insert_ne.
  - destruct (offset s !! topic) eqn:Ht; simpl; [|done].
    destruct (decide (topic = t)) as [->|Hne].
    + rewrite lookup_insert_eq. by eexists.
    + by rewrite lookup_insert_ne.
Qed.

Lemma execute_crashed ev s :
  crashed s = false ->
  ev <> Panic ->
  (forall t p v, ev = SetOffset t p v -> is_Some (offset s !! t)) ->
  crashed (execute ev s) = false.
Proof.
  intros Hc Hp Hs. destruct ev as [| |topic|topic p v|]; unfold execute; cbn; try done.
  destruct (Hs topic p v eq_refl) as [m ->]. done.
Qed.

Lemma worker_insert_cases (ws : list Worker) i j w w' :
  <[i := w]> ws !! j = Some w' -> (i = j /\ w' = w) \/ (i <> j /\ ws !! j = Some w').
Proof.
  intros H. destruct (decide (i = j)) as [->|Hne].
  - left. split; [done|].
    destruct (decide (j < length ws)%nat).
    + rewrite list_lookup_insert_eq in H by done. by injection H.
    + rewrite list_insert_ge in H by lia.
      apply lookup_lt_Some in H. lia.
  - right. split; [done|]. by rewrite list_lookup_insert_ne in H.
Qed.

(** Induction over the executions of [collect]. *)
Lemma reachable_invariant (P : State -> Prop) :
  P initial ->
  (forall s s', reachable e s -> step e s s' -> P s -> P s') ->
  forall s, reachable e s -> P s.
Proof.
  intros H0 Hs. unfold reachable. apply (rtc_ind_r P initial H0).
  intros s s' H Hstep. by apply Hs.
Qed.

Lemma safety s :
  reachable e s -> crashed s = false /\ made_before_set s.
Proof.
  revert s. apply reachable_invariant.
  - split; [done|]. intros i t pc H. done.
  - intros s s' _ Hstep [Hc Hm].
    inversion Hstep; subst; clear Hstep;
      try (split; [done|]; intros k t q Hj Hq; simpl in Hj; by eapply Hm).
    + split; [done|]. intros k t q Hj Hq. simpl in Hj.
      unfold spawnWorkers in Hj. apply lookup_replicate in Hj as [Hj _]. done.
    + split; [done|]. intros k t q Hj Hq. simpl in Hj.
      apply worker_insert_cases in Hj as [[_ Hj]|[_ Hj]].
      * injection Hj as _ ->. lia.
      * by eapply Hm.
    + pose proof (getTopicMetrics_classify e _ _ _ H1) as [_ Hev].
      split.
      * apply execute_crashed; [done|by intros ->|].
        intros t p v ->. destruct Hev as (-> & Hpc & _). by eapply Hm.
      * intros k t q Hj Hq. rewrite execute_workers in Hj. simpl in Hj.
        apply worker_insert_cases in Hj as [[_ Hj]|[_ Hj]].
        -- injection Hj as -> ->.
           destruct (decide (3 <= pc)%nat).
           ++ apply execute_offset_mono. simpl. by eapply Hm.
           ++ assert (pc = 2%nat) as -> by lia.
              apply getTopicMetrics_MakeTopic in H1 as ->. simpl.
              rewrite lookup_insert_eq. by eexists.
        -- apply execute_offset_mono. simpl. by eapply Hm.
    + split; [done|]. intros k t q Hj Hq. simpl in Hj.
      apply worker_insert_cases in Hj as [[_ Hj]|[_ Hj]]; [done|by eapply Hm].
    + split; [done|]. intros k t q Hj Hq. simpl in Hj.
      apply worker_insert_cases in Hj as [[_ Hj]|[_ Hj]]; [done|by eapply Hm].
Qed.

Lemma flat_map_insert_perm {A B} (f : A -> list B) (l : list A) i x y :
  l !! i = Some x ->
  f y ++ flat_map f l ≡ₚ f x ++ flat_map f (<[i := y]> l).
Proof.
  revert i. induction l as [|a l IH]; intros [|i] H; simpl in *; try done.
  - injection H as ->. by rewrite !(Permutation_app_swap_app (f y)).
  - rewrite (Permutation_app_swap_app (f y)), (Permutation_app_swap_app (f x)).
    by rewrite (IH i H).
Qed.

(** A goroutine that moves on leaves behind what it has just done. *)
Lemma flat_map_insert_less {A B} (f : A -> list B) (l : list A) i x y extra :
  l !! i = Some x ->
  f x = extra ++ f y ->
  flat_map f l ≡ₚ extra ++ flat_map f (<[i := y]> l).
Proof.
  intros H Hx. pose proof (flat_map_insert_perm f l i x y H) as Hp.
  rewrite Hx in Hp. apply (Permutation_app_inv_l (f y)).
  rewrite Hp. rewrite !(assoc_L (++)). f_equiv. apply Permutation_app_comm.
Qed.

Lemma flat_map_insert_more {A B} (f : A -> list B) (l : list A) i x y :
  l !! i = Some x ->
  f x = [] ->
  flat_map f (<[i := y]> l) ≡ₚ f y ++ flat_map f l.
Proof.
  intros H Hx. pose proof (flat_map_insert_perm f l i x y H) as Hp.
  rewrite Hx in Hp. by rewrite Hp.
Qed.

Lemma count_insert {A} (p : A -> bool) (l : list A) i x y :
  l !! i = Some x ->
  (length (List.filter p (<[i := y]> l)) + (if p x then 1 else 0)
   = length (List.filter p l) + (if p y then 1 else 0))%nat.
Proof.
  revert i. induction l as [|a l IH]; intros [|i] H; simpl in *; try done.
  - injection H as ->. destruct (p x), (p y); simpl; lia.
  - specialize (IH i H). destruct (p a); simpl; lia.
Qed.

Lemma count_zero {A} (p : A -> bool) (l : list A) i x :
  length (List.filter p l) = 0%nat -> l !! i = Some x -> p x = false.
Proof.
  revert i. induction l as [|a l IH]; intros [|i] H0 H; simpl in *; try done.
  - injection H as ->. by destruct (p x).
  - destruct (p a); [done|]. by eapply IH.
Qed.

Lemma busy_zero_todo ws : busy ws = 0%nat -> flat_map (todo e) ws = [].
Proof.
  unfold busy. induction ws as [|w ws IH]; simpl; [done|].
  destruct w; simpl; try done; intros H; by rewrite IH.
Qed.

Lemma active_zero_todo o ts : active ts = 0%nat -> flat_map (taskTodo e o) ts = [].
Proof.
  unfold active. induction ts as [|t ts IH]; simpl; [done|].
  destruct t; simpl; try done; intros H; by rewrite IH.
Qed.

Lemma busy_replicate n : busy (replicate n Receiving) = 0%nat.
Proof. unfold busy. induction n; simpl; done. Qed.

Lemma todo_replicate n : flat_map (todo e) (replicate n Receiving) = [].
Proof. apply busy_zero_todo, busy_replicate. Qed.

Lemma taskTodo_spawn o brokers :
  flat_map (taskTodo e o) (List.map (fun broker => Running broker 0) brokers)
  = flat_map (fun broker => List.map Send (getConsumerGroupMetrics e o broker)) brokers.
Proof. induction brokers as [|b brokers IH]; simpl; [done|]. by rewrite IH. Qed.

Lemma active_spawn brokers :
  active (List.map (fun broker => Running broker 0) brokers) = length brokers.
Proof. unfold active. induction brokers; simpl; [done|]. by f_equal. Qed.

Lemma phases_invariant s : reachable e s -> phases e s.
Proof.
  revert s. apply reachable_invariant; [done|].
  intros s s' Hs Hstep IH. unfold phases in IH |- *.
  inversion Hstep; subst; clear Hstep.
  - (* step_no_topics *)
    rewrite H0 in IH. subst s. fields. by rewrite H1.
  - (* step_spawn *)
    rewrite H0 in IH. subst s. fields. exists topics, [].
    unfold spawnWorkers. rewrite busy_replicate, todo_replicate, app_nil_r.
    done.
  - (* step_skip *)
    rewrite H0 in IH. fields in IH |- *.
    destruct IH as (all & h & Ht & Hwg & Hts & Hh & Hperm).
    exists all, h. repeat split; try done.
    unfold topicPhase in Hperm. simpl in Hperm.
    by rewrite (getTopicMetrics_rejected e topic H1) in Hperm.
  - (* step_send *)
    rewrite H0 in IH. fields in IH |- *.
    destruct IH as (all & h & Ht & Hwg & Hts & Hh & Hperm).
    exists all, h. repeat split; try done.
    + pose proof (count_insert working _ _ _ (Working topic 0) H2) as Hc.
      simpl in Hc. unfold busy in *. lia.
    + rewrite <- Hperm. unfold topicPhase. simpl.
      rewrite (flat_map_insert_more (todo e) _ _ _ (Working topic 0) H2 eq_refl).
      simpl. f_equiv. rewrite !(assoc_L (++)). f_equiv.
      apply Permutation_app_comm.
  - (* step_close *)
    rewrite H0 in IH. fields in IH |- *. done.
  - (* step_work *)
    rewrite execute_main, execute_workers, execute_tasks, execute_wg,
      execute_history. fields.
    pose proof (count_insert working _ _ _ (Working topic (S pc)) H0) as Hc.
    assert (Hp : flat_map (todo e) (workers s)
                 ≡ₚ [ev] ++ flat_map (todo e) (<[i := Working topic (S pc)]> (workers s))).
    { apply (flat_map_insert_less (todo e) _ _ _ (Working topic (S pc)) [ev] H0). simpl.
      by apply drop_S. }
    simpl in Hc.
    destruct (main s) eqn:Hmain.
    + subst s. done.
    + destruct IH as (all & h & Ht & Hwg & Hts & Hh & Hperm).
      exists all, (h ++ [ev]). repeat split; try done.
      * unfold busy in *. lia.
      * rewrite Hh. by rewrite (assoc_L (++)).
      * rewrite <- Hperm. rewrite Hp. by rewrite <- !(assoc_L (++)).
    + destruct IH as (all & h & Ht & Hwg & Hts & Hh & Hperm).
      exists all, (h ++ [ev]). repeat split; try done.
      * unfold busy in *. lia.
      * rewrite Hh. by rewrite (assoc_L (++)).
      * rewrite <- Hperm. rewrite Hp. by rewrite <- !(assoc_L (++)).
    + destruct IH as (all & hT & hG & Ht & Hb & _).
      by pose proof (count_zero working _ _ _ Hb H0).
    + destruct IH as (Hb & _).
      by pose proof (count_zero working _ _ _ Hb H0).
  - (* step_done *)
    fields.
    pose proof (count_insert working _ _ _ Receiving H0) as Hc.
    assert (Hp : flat_map (todo e) (workers s)
                 ≡ₚ flat_map (todo e) (<[i := Receiving]> (workers s))).
    { apply (flat_map_insert_less (todo e) _ _ _ Receiving [] H0). simpl.
      by apply drop_ge, lookup_ge_None. }
    simpl in Hc.
    destruct (main s) eqn:Hmain.
    + subst s. done.
    + destruct IH as (all & h & Ht & Hwg & Hts & Hh & Hperm).
      exists all, h. repeat split; try done.
      * unfold busy in *. lia.
      * by rewrite <- Hp.
    + destruct IH as (all & h & Ht & Hwg & Hts & Hh & Hperm).
      exists all, h. repeat split; try done.
      * unfold busy in *. lia.
      * by rewrite <- Hp.
    + destruct IH as (all & hT & hG & Ht & Hb & _).
      by pose proof (count_zero working _ _ _ Hb H0).
    + destruct IH as (Hb & _).
      by pose proof (count_zero working _ _ _ Hb H0).
  - (* step_return *)
    fields.
    pose proof (count_insert working _ _ _ Returned H1) as Hc.
    assert (Hp : flat_map (todo e) (workers s)
                 ≡ₚ flat_map (todo e) (<[i := Returned]> (workers s)))
      by apply (flat_map_insert_less (todo e) _ _ _ Returned [] H1 eq_refl).
    simpl in Hc.
    destruct (main s) eqn:Hmain; try done.
    + destruct IH as (all & h & Ht & Hwg & Hts & Hh & Hperm).
      exists all, h. repeat split; try done.
      * unfold busy in *. lia.
      * by rewrite <- Hp.
    + destruct IH as (all & hT & hG & Ht & Hb & Hwg & Hh & HT & HG).
      exists all, hT, hG. repeat split; try done. unfold busy in *. lia.
    + destruct IH as (Hb & Ha & Hh). repeat split; try done.
      unfold busy in *. lia.
  - (* step_groups *)
    rewrite H0 in IH. fields in IH |- *.
    destruct IH as (all & h & Ht & Hwg & Hts & Hh & Hperm).
    rewrite H1 in Hwg. symmetry in Hwg.
    rewrite (busy_zero_todo _ Hwg) in Hperm. unfold topicPhase in Hperm at 1.
    simpl in Hperm. rewrite app_nil_r in Hperm.
    exists all, h, []. repeat split; try done.
    + by rewrite active_spawn.
    + by rewrite app_nil_r.
    + by rewrite taskTodo_spawn.
  - (* step_no_broker *)
    rewrite H0 in IH. fields in IH |- *.
    destruct IH as (all & h & Ht & Hwg & Hts & Hh & Hperm).
    rewrite H1 in Hwg. symmetry in Hwg.
    rewrite (busy_zero_todo _ Hwg) in Hperm. unfold topicPhase in Hperm at 1.
    simpl in Hperm. rewrite app_nil_r in Hperm.
    repeat split; try done.
    + by rewrite Hts.
    + rewrite Ht. exists h, []. repeat split; try done.
      * by rewrite app_nil_r.
      * unfold groupPhase. by rewrite H2.
  - (* step_task *)
    fields.
    pose proof (count_insert running _ _ _ (Running broker (S pc)) H0) as Hc.
    assert (Hp : flat_map (taskTodo e (offset s)) (tasks s)
                 ≡ₚ [Send m] ++ flat_map (taskTodo e (offset s))
                                  (<[j := Running broker (S pc)]> (tasks s))).
    { apply (flat_map_insert_less (taskTodo e (offset s)) _ _ _ (Running broker (S pc)) [Send m] H0). simpl.
      by rewrite (drop_S _ _ _ H1). }
    simpl in Hc.
    destruct (main s) eqn:Hmain.
    + subst s. done.
    + destruct IH as (all & h & Ht & Hwg & Hts & _). by rewrite Hts in H0.
    + destruct IH as (all & h & Ht & Hwg & Hts & _). by rewrite Hts in H0.
    + destruct IH as (all & hT & hG & Ht & Hb & Hwg & Hh & HT & HG).
      exists all, hT, (hG ++ [Send m]). repeat split; try done.
      * unfold active in *. lia.
      * rewrite Hh. by rewrite !(assoc_L (++)).
      * rewrite <- HG. rewrite Hp. by rewrite <- !(assoc_L (++)).
    + destruct IH as (_ & Ha & _).
      by pose proof (count_zero running _ _ _ Ha H0).
  - (* step_task_done *)
    fields.
    pose proof (count_insert running _ _ _ Done H0) as Hc.
    assert (Hp : flat_map (taskTodo e (offset s)) (tasks s)
                 ≡ₚ flat_map (taskTodo e (offset s)) (<[j := Done]> (tasks s))).
    { apply (flat_map_insert_less (taskTodo e (offset s)) _ _ _ Done [] H0). simpl.
      by rewrite drop_ge by (by apply lookup_ge_None). }
    simpl in Hc.
    destruct (main s) eqn:Hmain.
    + subst s. done.
    + destruct IH as (all & h & Ht & Hwg & Hts & _). by rewrite Hts in H0.
    + destruct IH as (all & h & Ht & Hwg & Hts & _). by rewrite Hts in H0.
    + destruct IH as (all & hT & hG & Ht & Hb & Hwg & Hh & HT & HG).
      exists all, hT, hG. repeat split; try done.
      * unfold active in *. lia.
      * by rewrite <- Hp.
    + destruct IH as (_ & Ha & _).
      by pose proof (count_zero running _ _ _ Ha H0).
  - (* step_finish *)
    rewrite H0 in IH. fields in IH |- *.
    destruct IH as (all & hT & hG & Ht & Hb & Hwg & Hh & HT & HG).
    rewrite H1 in Hwg. symmetry in Hwg.
    rewrite (active_zero_todo _ _ Hwg), app_nil_r in HG.
    repeat split; try done. rewrite Ht. by exists hT, hG.
Qed.

Lemma in_drop {A} (x : A) n (l : list A) : In x (drop n l) -> In x l.
Proof.
  revert n. induction l as [|a l IH]; intros [|n]; simpl; auto.
  intros H. right. by eapply IH.
Qed.

Lemma offsets_invariant s :
  reachable e s ->
  forall topics t p v,
    Topics (client e) = Some topics -> In t topics -> fetched e t p v ->
    offsetOnItsWay e s t p v.
Proof.
  revert s.
  apply (reachable_invariant
           (fun s => forall topics t p v,
                Topics (client e) = Some topics -> In t topics ->
                fetched e t p v -> offsetOnItsWay e s t p v)).
  - intros topics t p v _ _ _. by do 3 right.
  - intros s s' Hs Hstep IH topics t p v Ht Hin Hf.
    specialize (IH topics t p v Ht Hin Hf).
    pose proof (safety s Hs) as [_ Hmade].
    unfold offsetOnItsWay in IH |- *.
    inversion Hstep; subst; clear Hstep.
    + (* step_no_topics *) congruence.
    + (* step_spawn *)
      fields. right. right. left. congruence.
    + (* step_skip *)
      fields. rewrite H0 in IH. fields in IH |- *.
      destruct IH as [IH|[IH|[IH|IH]]]; [by left|by right; left| |done].
      destruct IH as [<-|IH]; [|by right; right; left].
      destruct Hf as [Hf _]. congruence.
    + (* step_send *)
      fields. rewrite H0 in IH. fields in IH |- *.
      destruct IH as [IH|[IH|[IH|IH]]]; [by left| | |done].
      * destruct IH as (i' & pc' & Hw & Hset). right. left. exists i', pc'.
        split; [|done]. rewrite list_lookup_insert_ne; [done|congruence].
      * destruct IH as [<-|IH]; [|by right; right; left].
        right. left. exists i, 0%nat. split.
        -- apply list_lookup_insert_eq. by eapply lookup_lt_Some.
        -- simpl. eapply in_drop. by apply getTopicMetrics_fetched.
    + (* step_close *)
      fields. rewrite H0 in IH. fields in IH |- *.
      destruct IH as [IH|[IH|[IH|IH]]]; [by left|by right; left|done|done].
    + (* step_work *)
      rewrite execute_main, execute_workers. fields.
      pose proof (getTopicMetrics_classify e _ _ _ H1) as [_ Hev].
      destruct IH as [IH|[IH|[IH|IH]]];
        [| |by right; right; left|by right; right; right].
      * (* the offset is in the table *)
        destruct ev as [t'|m|t'|t' p' v'|]; try (by left).
        -- destruct Hev as [-> ->].
           destruct (decide (topic = t)) as [->|Hne].
           ++ right. left. exists i, 3%nat. split.
              ** apply list_lookup_insert_eq. by eapply lookup_lt_Some.
              ** by apply getTopicMetrics_fetched.
           ++ left. unfold execute, lookupOffset. fields.
              rewrite lookup_insert_ne by done. exact IH.
        -- destruct Hev as (-> & Hpc & Hget).
           destruct (Hmade i topic pc H0 Hpc) as [inner Hinner].
           left. unfold execute, lookupOffset in IH |- *. fields.
           rewrite Hinner. fields.
           destruct (decide (topic = t)) as [->|Hne].
           ++ rewrite lookup_insert_eq. rewrite Hinner in IH.
              destruct (decide (p' = p)) as [->|Hp].
              ** rewrite lookup_insert_eq.
                 destruct Hf as (_ & ps & _ & _ & Hget'). congruence.
              ** by rewrite lookup_insert_ne.
           ++ by rewrite lookup_insert_ne.
      * (* a worker has still to store it *)
        destruct IH as (i' & pc' & Hw & Hset).
        destruct (decide (i' = i)) as [->|Hne].
        -- rewrite H0 in Hw. injection Hw as -> <-.
           rewrite (drop_S _ _ _ H1) in Hset. destruct Hset as [->|Hset].
           ++ destruct Hev as (_ & Hpc & _).
              destruct (Hmade i t pc H0 Hpc) as [inner Hinner].
              left. unfold execute, lookupOffset. fields.
              rewrite Hinner. fields. by rewrite !lookup_insert_eq.
           ++ right. left. exists i, (S pc). split; [|done].
              apply list_lookup_insert_eq. by eapply lookup_lt_Some.
        -- right. left. exists i', pc'. split; [|done].
           by rewrite list_lookup_insert_ne.
    + (* step_done *)
      fields.
      destruct IH as [IH|[IH|[IH|IH]]];
        [by left| |by right; right; left|by right; right; right].
      destruct IH as (i' & pc' & Hw & Hset).
      destruct (decide (i' = i)) as [->|Hne].
      * rewrite H0 in Hw. injection Hw as -> <-.
        rewrite drop_ge in Hset by (by apply lookup_ge_None). done.
      * right. left. exists i', pc'. split; [|done].
        by rewrite list_lookup_insert_ne.
    + (* step_return *)
      fields.
      destruct IH as [IH|[IH|[IH|IH]]];
        [by left| |by right; right; left|by right; right; right].
      destruct IH as (i' & pc' & Hw & Hset). right. left. exists i', pc'.
      split; [|done]. rewrite list_lookup_insert_ne; [done|congruence].
    + (* step_groups *)
      fields. rewrite H0 in IH. fields in IH |- *.
      destruct IH as [IH|[IH|[IH|IH]]]; [by left|by right; left|done|done].
    + (* step_no_broker *)
      fields. rewrite H0 in IH. fields in IH |- *.
      destruct IH as [IH|[IH|[IH|IH]]]; [by left|by right; left|done|done].
    + (* step_task *)
      fields. exact IH.
    + (* step_task_done *)
      fields. exact IH.
    + (* step_finish *)
      fields. rewrite H0 in IH. fields in IH |- *.
      destruct IH as [IH|[IH|[IH|IH]]]; [by left|by right; left|done|done].
Qed.

End Invariants.

(** ** The sequential schedule is an execution *)

Section Schedule.

Import sarama.

Variable e : Exporter.

#[local] Arguments execute : simpl never.
#[local] Arguments brokerMetrics : simpl never.
#[local] Arguments getTopicMetrics : simpl never.
#[local] Arguments getConsumerGroupMetrics : simpl never.

Lemma reachable_step s s' : reachable e s -> step e s s' -> reachable e s'.
Proof. intros H Hstep. by eapply rtc_r. Qed.

Lemma drop_cons_lookup {A} (l : list A) n x rest :
  drop n l = x :: rest -> l !! n = Some x /\ drop (S n) l = rest.
Proof.
  intros H. split.
  - pose proof (lookup_drop l n 0) as Hl. rewrite H in Hl. simpl in Hl.
    by rewrite Nat.add_0_r in Hl.
  - replace (S n) with (n + 1)%nat by lia. rewrite <- drop_drop, H. done.
Qed.

Lemma lookup_map {A B} (f : A -> B) (l : list A) k :
  List.map f l !! k = f <$> l !! k.
Proof. revert k. induction l as [|a l IH]; intros [|k]; simpl; auto. Qed.

Lemma drop_nil_lookup {A} (l : list A) n : drop n l = [] -> l !! n = None.
Proof.
  intros H. pose proof (lookup_drop l n 0) as Hl. rewrite H in Hl. simpl in Hl.
  by rewrite Nat.add_0_r in Hl.
Qed.

Lemma workOn_reachable evs : forall i topic pc s,
  reachable e s ->
  workers s !! i = Some (Working topic pc) ->
  drop pc (getTopicMetrics e topic) = evs ->
  let s' := workOn i topic pc evs s in
  reachable e s'
  /\ workers s' = <[i := Working topic (pc + length evs)]> (workers s)
  /\ main s' = main s /\ wg s' = wg s /\ tasks s' = tasks s.
Proof.
  induction evs as [|ev evs IH]; intros i topic pc s Hs Hw Hd; simpl.
  - rewrite Nat.add_0_r, list_insert_id by done. done.
  - apply drop_cons_lookup in Hd as [Hev Hd].
    pose proof (safety e s Hs) as [Hc _].
    set (s1 := execute ev (withWorkers (<[i := Working topic (S pc)]> (workers s)) s)).
    assert (Hs1 : reachable e s1)
      by (eapply reachable_step; [done|by eapply step_work]).
    assert (Hw1 : workers s1 !! i = Some (Working topic (S pc))).
    { unfold s1. rewrite execute_workers. fields.
      apply list_lookup_insert_eq. by eapply lookup_lt_Some. }
    destruct (IH i topic (S pc) s1 Hs1 Hw1 Hd) as (Hr & Hws & Hm & Hwg & Hts).
    split; [done|]. rewrite Hws, Hm, Hwg, Hts. unfold s1.
    rewrite execute_workers, execute_main, execute_wg, execute_tasks. fields.
    rewrite list_insert_insert_eq. repeat split; try done. f_equal. f_equal. lia.
Qed.

Lemma dispatch_reachable topics : forall s,
  reachable e s ->
  main s = Dispatching topics ->
  workers s !! 0%nat = Some Receiving
    \/ (forall topic, In topic topics -> accepted e topic = false) ->
  let s' := dispatch e topics s in
  reachable e s' /\ main s' = WaitTopics /\ wg s' = wg s.
Proof.
  induction topics as [|topic topics IH]; intros s Hs Hm Hw; simpl.
  - pose proof (safety e s Hs) as [Hc _].
    split; [|done]. eapply reachable_step; [done|by apply step_close].
  - pose proof (safety e s Hs) as [Hc _].
    destruct (accepted e topic) eqn:Hacc.
    + destruct Hw as [Hw|Hw]; [|by rewrite Hw in Hacc; [|left]].
      set (s1 := withMain (Dispatching topics)
                   (withWorkers (<[0%nat := Working topic 0]> (workers s))
                      (withWg (S (wg s)) s))).
      assert (Hs1 : reachable e s1)
        by (eapply reachable_step; [done|by eapply step_send]).
      assert (Hw1 : workers s1 !! 0%nat = Some (Working topic 0)).
      { unfold s1. fields. apply list_lookup_insert_eq. by eapply lookup_lt_Some. }
      destruct (workOn_reachable (getTopicMetrics e topic) 0 topic 0 s1 Hs1 Hw1 eq_refl)
        as (Hs2 & Hws2 & Hm2 & Hwg2 & Hts2).
      set (s2 := workOn 0 topic 0 (getTopicMetrics e topic) s1) in *.
      set (s3 := withWorkers (<[0%nat := Receiving]> (workers s2))
                   (withWg (pred (wg s2)) s2)).
      pose proof (safety e s2 Hs2) as [Hc2 _].
      assert (Hlt : (0 < length (workers s))%nat) by (by eapply lookup_lt_Some).
      assert (Hs3 : reachable e s3).
      { eapply reachable_step; [done|].
        eapply (step_done e s2 0 topic (0 + length (getTopicMetrics e topic))); [done| |].
        - rewrite Hws2. unfold s1. fields. rewrite list_insert_insert_eq.
          by apply list_lookup_insert_eq.
        - by apply lookup_ge_None. }
      destruct (IH s3 Hs3) as (Hr & Hm3 & Hwg3).
      * unfold s3. fields. by rewrite Hm2.
      * left. unfold s3. fields. apply list_lookup_insert_eq.
        rewrite Hws2. unfold s1. fields. by rewrite !length_insert.
      * split; [done|]. split; [done|]. rewrite Hwg3. unfold s3. fields.
        rewrite Hwg2. unfold s1. fields. done.
    + set (s1 := withMain (Dispatching topics) s).
      assert (Hs1 : reachable e s1)
        by (eapply reachable_step; [done|by eapply step_skip]).
      destruct (IH s1 Hs1) as (Hr & Hm1 & Hwg1); [done| |done].
      destruct Hw as [Hw|Hw]; [by left|]. right. intros t Ht. apply Hw. by right.
Qed.

Lemma serve_reachable ms : forall j broker pc s,
  reachable e s ->
  tasks s !! j = Some (Running broker pc) ->
  drop pc (getConsumerGroupMetrics e (offset s) broker) = ms ->
  let s' := serve j broker pc ms s in
  reachable e s'
  /\ tasks s' = <[j := Done]> (tasks s)
  /\ main s' = main s /\ wg s' = pred (wg s) /\ offset s' = offset s.
Proof.
  induction ms as [|m ms IH]; intros j broker pc s Hs Ht Hd; simpl.
  - pose proof (safety e s Hs) as [Hc _].
    split; [|done]. eapply reachable_step; [done|].
    eapply step_task_done; [done|done|]. by apply drop_nil_lookup.
  - apply drop_cons_lookup in Hd as [Hm Hd].
    pose proof (safety e s Hs) as [Hc _].
    set (s1 := record [Send m] (withTasks (<[j := Running broker (S pc)]> (tasks s)) s)).
    assert (Hs1 : reachable e s1)
      by (eapply reachable_step; [done|by eapply step_task]).
    assert (Ht1 : tasks s1 !! j = Some (Running broker (S pc))).
    { unfold s1. fields. apply list_lookup_insert_eq. by eapply lookup_lt_Some. }
    destruct (IH j broker (S pc) s1 Hs1 Ht1 Hd) as (Hr & Hts & Hmn & Hwg & Hoff).
    split; [done|]. rewrite Hts, Hmn, Hwg, Hoff. unfold s1. fields.
    by rewrite list_insert_insert_eq.
Qed.

Lemma serveAll_reachable brokers : forall j s,
  reachable e s ->
  (forall k broker, brokers !! k = Some broker ->
                    tasks s !! (j + k)%nat = Some (Running broker 0)) ->
  let s' := serveAll e j brokers s in
  reachable e s' /\ main s' = main s /\ (wg s' = wg s - length brokers)%nat.
Proof.
  induction brokers as [|broker brokers IH]; intros j s Hs Ht; simpl.
  - split; [done|]. split; [done|]. lia.
  - assert (Hj : tasks s !! j = Some (Running broker 0)).
    { specialize (Ht 0%nat broker eq_refl). by rewrite Nat.add_0_r in Ht. }
    destruct (serve_reachable (getConsumerGroupMetrics e (offset s) broker)
                j broker 0 s Hs Hj eq_refl) as (Hs1 & Hts & Hm & Hwg & Hoff).
    set (s1 := serve j broker 0 (getConsumerGroupMetrics e (offset s) broker) s) in *.
    destruct (IH (S j) s1 Hs1) as (Hr & Hm' & Hwg').
    + intros k b Hk. rewrite Hts. rewrite list_lookup_insert_ne by lia.
      replace (S j + k)%nat with (j + S k)%nat by lia. by apply Ht.
    + split; [done|]. split; [congruence|]. lia.
Qed.

Lemma groups_reachable s :
  reachable e s -> main s = WaitTopics -> wg s = 0%nat ->
  reachable e (groups e s) /\ main (groups e s) = Finished.
Proof.
  intros Hs Hm Hwg. pose proof (safety e s Hs) as [Hc _].
  unfold groups. destruct (Brokers (client e)) as [|b bs] eqn:Hb.
  - split; [|done]. eapply reachable_step; [done|by apply step_no_broker].
  - set (s1 := withMain WaitGroups
                 (withTasks (List.map (fun broker => Running broker 0) (b :: bs))
                    (withWg (length (b :: bs)) s))).
    assert (Hs1 : reachable e s1).
    { eapply reachable_step; [done|]. unfold s1. rewrite <- Hb.
      apply step_groups; try done. by rewrite Hb. }
    destruct (serveAll_reachable (b :: bs) 0 s1 Hs1) as (Hs2 & Hm2 & Hwg2).
    { intros k broker Hk. unfold s1. fields.
      change (0 + k)%nat with k. by rewrite lookup_map, Hk. }
    pose proof (safety e _ Hs2) as [Hc2 _].
    split; [|done]. eapply reachable_step; [done|].
    apply step_finish; [done|done|]. rewrite Hwg2. unfold s1. fields. lia.
Qed.

(** [collect] returns: when there is a worker to take the topics that pass
    the filter, the sequential schedule is an execution that ends with
    [collect] returned. *)
Lemma sequential_reachable :
  (forall topics,
      Topics (client e) = Some topics ->
      1 <= workerCount e topics
      \/ (forall topic, In topic topics -> accepted e topic = false)) ->
  reachable e (sequential e) /\ main (sequential e) = Finished.
Proof.
  intros Hw. unfold sequential.
  destruct (Topics (client e)) as [topics|] eqn:Ht.
  - set (s1 := withMain (Dispatching topics)
                 (withWorkers (spawnWorkers e topics)
                    (record (List.map Send (brokerMetrics e)) initial))).
    assert (Hs1 : reachable e s1).
    { eapply reachable_step; [apply rtc_refl|]. by apply step_spawn. }
    destruct (dispatch_reachable topics s1 Hs1 eq_refl) as (Hs2 & Hm2 & Hwg2).
    { destruct (Hw topics eq_refl) as [H|H]; [left|by right].
      unfold s1, spawnWorkers. fields. apply lookup_replicate. split; [done|]. lia. }
    by apply groups_reachable.
  - split; [|done]. eapply reachable_step; [apply rtc_refl|].
    by apply step_no_topics.
Qed.

End Schedule.

(** ** The worker pool, the barrier and the table at the barrier *)

Section Barrier.

Import sarama.

Variable e : Exporter.

#[local] Arguments execute : simpl never.
#[local] Arguments brokerMetrics : simpl never.
#[local] Arguments getTopicMetrics : simpl never.
#[local] Arguments getConsumerGroupMetrics : simpl never.

Lemma workers_invariant s :
  reachable e s ->
  forall topics,
    Topics (client e) = Some topics -> main s <> Start ->
    length (workers s) = Z.to_nat (workerCount e topics).
Proof.
  revert s.
  apply (reachable_invariant e
           (fun s => forall topics,
                Topics (client e) = Some topics -> main s <> Start ->
                length (workers s) = Z.to_nat (workerCount e topics))); [done|].
  intros s s' Hs Hstep IH topics Ht Hm.
  inversion Hstep; subst; clear Hstep;
    try rewrite execute_main in Hm; try rewrite execute_workers;
    fields in Hm |- *; rewrite ?length_insert;
    try (apply IH; [done|congruence]).
  unfold spawnWorkers. rewrite length_replicate. congruence.
Qed.

(** Without a worker the send of l.540 never completes. *)
Lemma no_worker_blocks topics :
  Topics (client e) = Some topics ->
  workerCount e topics <= 0 ->
  (exists topic, In topic topics /\ accepted e topic = true) ->
  forall s, reachable e s ->
    main s <> WaitTopics /\ main s <> WaitGroups /\ main s <> Finished.
Proof.
  intros Ht Hn Hacc s Hs.
  cut (workers s = []
       /\ (main s = Start
           \/ exists pend topic,
               main s = Dispatching pend /\ In topic pend /\ accepted e topic = true)).
  { intros [_ [H|(pend & t & H & _)]]; rewrite H; done. }
  revert s Hs. apply reachable_invariant; [by auto|].
  intros s s' Hs Hstep [Hw Hm].
  inversion Hstep; subst; clear Hstep;
    try rewrite execute_main; try rewrite execute_workers; fields;
    try (rewrite Hw in *; done);
    try (destruct Hm as [Hm|(pend & t & Hm & _)]; congruence).
  - split.
    + unfold spawnWorkers. replace (Z.to_nat (workerCount e topics0)) with 0%nat; [done|].
      assert (topics0 = topics) as -> by congruence. lia.
    + right. destruct Hacc as (t & Hin & Ha). exists topics0, t.
      assert (topics0 = topics) as -> by congruence. done.
  - split; [done|]. right.
    destruct Hm as [Hm|(pend & t & Hm & Hin & Ha)]; [congruence|].
    rewrite H0 in Hm. injection Hm as <-.
    destruct Hin as [->|Hin]; [congruence|]. by exists topics0, t.
  - destruct Hm as [Hm|(pend & t & Hm & Hin & Ha)]; [congruence|].
    rewrite H0 in Hm. injection Hm as <-. done.
Qed.

Lemma workerCount_many topics :
  1 < len topics -> workerCount e topics = Z.min (len topics ÷ 2) (topicWorkers e).
Proof.
  intros H. unfold workerCount, minx.
  destruct (Z.ltb_spec 1 (len topics)); [|lia].
  destruct (Z.ltb_spec (len topics ÷ 2) (topicWorkers e)); lia.
Qed.

Lemma workerCount_few topics :
  len topics <= 1 -> workerCount e topics = len topics.
Proof.
  intros H. unfold workerCount. destruct (Z.ltb_spec 1 (len topics)); [lia|done].
Qed.

Lemma workerCount_positive topics :
  1 <= topicWorkers e -> 1 <= len topics -> 1 <= workerCount e topics.
Proof.
  intros Hw Hn. destruct (Z.le_gt_cases (len topics) 1).
  - rewrite workerCount_few by done. done.
  - rewrite workerCount_many by done.
    pose proof (Z.quot_le_lower_bound (len topics) 2 1). lia.
Qed.

Lemma has_worker_or_nothing_to_do :
  1 <= topicWorkers e ->
  forall topics,
    Topics (client e) = Some topics ->
    1 <= workerCount e topics
    \/ (forall topic, In topic topics -> accepted e topic = false).
Proof.
  intros Hw topics _. destruct topics as [|t topics]; [by right|].
  left. apply workerCount_positive; [done|]. unfold len. simpl length. lia.
Qed.

(** Past the [wg.Wait()] of l.545 no worker is inside [getTopicMetrics] and
    every event of every topic has happened. *)
Lemma barrier s topics :
  reachable e s ->
  Topics (client e) = Some topics ->
  main s = WaitGroups \/ main s = Finished ->
  busy (workers s) = 0%nat
  /\ exists hT hG,
      history s = List.map Send (brokerMetrics e) ++ hT ++ hG
      /\ hT ≡ₚ topicPhase e topics
      /\ forall ev, In ev hG -> In ev (groupPhase e (offset s)).
Proof.
  intros Hs Ht Hm. pose proof (phases_invariant e s Hs) as Hp.
  unfold phases in Hp. destruct Hm as [Hm|Hm]; rewrite Hm in Hp.
  - destruct Hp as (all & hT & hG & Ht' & Hb & _ & Hh & HT & HG).
    assert (all = topics) as -> by congruence.
    split; [done|]. exists hT, hG. repeat split; try done.
    intros ev Hev. apply list_elem_of_In. rewrite <- HG.
    apply list_elem_of_In, in_app_iff. by left.
  - destruct Hp as (Hb & _ & Hp). rewrite Ht in Hp.
    destruct Hp as (hT & hG & Hh & HT & HG).
    split; [done|]. exists hT, hG. repeat split; try done.
    intros ev Hev. apply list_elem_of_In. rewrite <- HG. by apply list_elem_of_In.
Qed.


(** Every event of an execution is one of l.365-372, of a topic of the list,
    or of a broker's task. *)
Lemma history_events s ev :
  reachable e s -> In ev (history s) ->
  In ev (List.map Send (brokerMetrics e))
  \/ (exists topics topic,
        Topics (client e) = Some topics /\ In topic topics
        /\ In ev (getTopicMetrics e topic))
  \/ In ev (groupPhase e (offset s)).
Proof.
  intros Hs Hev. pose proof (phases_invariant e s Hs) as Hp.
  unfold phases in Hp.
  assert (Htopic : forall topics h rest,
             Topics (client e) = Some topics ->
             h ++ rest ≡ₚ topicPhase e topics -> In ev h ->
             exists topics topic,
               Topics (client e) = Some topics /\ In topic topics
               /\ In ev (getTopicMetrics e topic)).
  { intros topics h rest Ht Hperm Hin.
    assert (Hin' : In ev (topicPhase e topics)).
    { apply list_elem_of_In. rewrite <- Hperm.
      apply list_elem_of_In, in_app_iff. by left. }
    apply in_flat_map in Hin' as (topic & Hin1 & Hin2). by exists topics, topic. }
  destruct (main s) eqn:Hm.
  - subst s. done.
  - destruct Hp as (all & h & Ht & _ & _ & Hh & Hperm).
    rewrite Hh in Hev. apply in_app_iff in Hev as [Hev|Hev]; [by left|].
    right. left. by eapply Htopic.
  - destruct Hp as (all & h & Ht & _ & _ & Hh & Hperm).
    rewrite Hh in Hev. apply in_app_iff in Hev as [Hev|Hev]; [by left|].
    right. left. by eapply Htopic.
  - destruct Hp as (all & hT & hG & Ht & _ & _ & Hh & HT & HG).
    rewrite Hh in Hev. rewrite !in_app_iff in Hev.
    destruct Hev as [Hev|[Hev|Hev]]; [by left| |].
    + right. left. eapply (Htopic all hT []); [done|by rewrite app_nil_r|done].
    + right. right. apply list_elem_of_In. rewrite <- HG.
      apply list_elem_of_In, in_app_iff. by left.
  - destruct Hp as (_ & _ & Hp). destruct (Topics (client e)) as [all|] eqn:Ht.
    + destruct Hp as (hT & hG & Hh & HT & HG).
      rewrite Hh in Hev. rewrite !in_app_iff in Hev.
      destruct Hev as [Hev|[Hev|Hev]]; [by left| |].
      * right. left. eapply (Htopic all hT []); [done|by rewrite app_nil_r|done].
      * right. right. apply list_elem_of_In. rewrite <- HG.
        by apply list_elem_of_In.
    + left. by rewrite <- Hp.
Qed.

(** Past the barrier the table holds every newest offset that was fetched,
    and no step changes it any more. *)
Lemma table_at_barrier s topics t p v :
  reachable e s ->
  Topics (client e) = Some topics ->
  main s = WaitGroups \/ main s = Finished ->
  In t topics -> fetched e t p v ->
  lookupOffset (offset s) t p = Some v.
Proof.
  intros Hs Ht Hm Hin Hf.
  destruct (barrier s topics Hs Ht Hm) as (Hb & _).
  destruct (offsets_invariant e s Hs topics t p v Ht Hin Hf)
    as [H|[(i & pc & Hw & _)|[H|H]]]; [done| | |].
  - by pose proof (count_zero working _ _ _ Hb Hw).
  - destruct Hm as [Hm|Hm]; by rewrite Hm in H.
  - destruct Hm as [Hm|Hm]; by rewrite Hm in H.
Qed.

Lemma table_frozen s s' :
  busy (workers s) = 0%nat -> step e s s' -> offset s' = offset s.
Proof.
  intros Hb Hstep. inversion Hstep; subst; clear Hstep; try done.
  by pose proof (count_zero working _ _ _ Hb H0).
Qed.

End Barrier.

Lemma sends_map_Send ms : sends (List.map Send ms) = ms.
Proof. induction ms as [|m ms IH]; simpl; [done|]. by f_equal. Qed.



(** The scrape of the scenario under the sequential schedule: the
    consumer-group metrics that reach the caller. *)
Example scenario_scrape :
  reachable Scenario.exporter (sequential Scenario.exporter)
  /\ main (sequential Scenario.exporter) = Finished
  /\ List.filter (fun m => negb (topicLevel m)) (ch (sequential Scenario.exporter))
     = [MustNewConstMetric clusterBrokers 1 [];
        MustNewConstMetric clusterBrokerInfo 1 ["1"; "kafka:9092"];
        MustNewConstMetric consumergroupMembers 1 ["g"];
        MustNewConstMetric consumergroupCurrentOffset 7 ["g"; "t"; "0"];
        MustNewConstMetric consumergroupLag 3 ["g"; "t"; "0"];
        MustNewConstMetric consumergroupCurrentOffset (-1) ["g"; "t"; "1"];
        MustNewConstMetric consumergroupLag (-1) ["g"; "t"; "1"];
        MustNewConstMetric consumergroupCurrentOffsetSum 6 ["g"; "t"];
        MustNewConstMetric consumergroupLagSum 3 ["g"; "t"]].
Proof.
  split; [|split; [done|by vm_compute]].
  apply sequential_reachable. intros topics [= <-]. left. by vm_compute.
Qed.

(** ** No deadlock with a worker *)

Section Progress.

Import sarama.

Variable e : Exporter.

#[local] Arguments execute : simpl never.
#[local] Arguments brokerMetrics : simpl never.
#[local] Arguments getTopicMetrics : simpl never.
#[local] Arguments getConsumerGroupMetrics : simpl never.

(** The topics still to dispatch are topics of the list, and no worker
    returns before the channel is closed. *)
Lemma dispatch_invariant s :
  reachable e s ->
  (forall pend topics topic,
      main s = Dispatching pend -> Topics (client e) = Some topics ->
      In topic pend -> In topic topics)
  /\ (channelClosed (main s) = false ->
      forall i, workers s !! i <> Some Returned).
Proof.
  revert s. apply reachable_invariant.
  - split; [done|]. intros _ i. done.
  - intros s s' Hs Hstep [Hpend Hret].
    inversion Hstep; subst; clear Hstep;
      try rewrite execute_main; try rewrite execute_workers; fields;
      try (split; [done|]); try done.
    + split.
      * intros pend all topic [= <-] Hall Hin. congruence.
      * intros _ k Hk. unfold spawnWorkers in Hk.
        apply lookup_replicate in Hk as [Hk _]. done.
    + split.
      * intros pend all topic' [= <-] Hall Hin. eapply Hpend; [done|done|by right].
      * rewrite H0 in Hret. done.
    + split.
      * intros pend all topic' [= <-] Hall Hin. eapply Hpend; [done|done|by right].
      * rewrite H0 in Hret. intros _ k Hk.
        apply worker_insert_cases in Hk as [[_ Hk]|[_ Hk]]; [done|].
        by apply (Hret eq_refl k).
    + intros Hcl k Hk.
      apply worker_insert_cases in Hk as [[_ Hk]|[_ Hk]]; [done|].
      by apply (Hret Hcl k).
    + intros Hcl k Hk.
      apply worker_insert_cases in Hk as [[_ Hk]|[_ Hk]]; [done|].
      by apply (Hret Hcl k).
    + intros Hcl. congruence.
Qed.

Lemma count_positive {A} (p : A -> bool) (l : list A) :
  length (List.filter p l) <> 0%nat -> exists i x, l !! i = Some x /\ p x = true.
Proof.
  induction l as [|a l IH]; simpl; [done|].
  destruct (p a) eqn:Ha.
  - intros _. by exists 0%nat, a.
  - intros H. destruct (IH H) as (i & x & Hi & Hx). by exists (S i), x.
Qed.

Lemma worker_can_step s i topic pc :
  crashed s = false -> workers s !! i = Some (Working topic pc) ->
  exists s', step e s s'.
Proof.
  intros Hc Hw. destruct (getTopicMetrics e topic !! pc) as [ev|] eqn:Hev.
  - eexists. by eapply step_work.
  - eexists. by eapply step_done.
Qed.

(** When there is a worker for the topics that pass the filter, every state
    of an execution in which [collect] has not returned has a next step. *)
Lemma never_stuck s :
  (forall topics,
      Topics (client e) = Some topics ->
      1 <= workerCount e topics
      \/ (forall topic, In topic topics -> accepted e topic = false)) ->
  reachable e s -> main s <> Finished -> exists s', step e s s'.
Proof.
  intros Hw Hs Hm.
  pose proof (safety e s Hs) as [Hc _].
  pose proof (phases_invariant e s Hs) as Hp. unfold phases in Hp.
  pose proof (dispatch_invariant s Hs) as [Hpend Hret].
  destruct (main s) as [|pend| | |] eqn:Hmain; [| | | |done].
  - destruct (Topics (client e)) as [topics|] eqn:Ht.
    + eexists. by eapply step_spawn.
    + eexists. by eapply step_no_topics.
  - destruct pend as [|topic pend]; [eexists; by apply step_close|].
    destruct (accepted e topic) eqn:Hacc; [|eexists; by eapply step_skip].
    destruct Hp as (topics & h & Ht & _).
    assert (Hn : 1 <= workerCount e topics).
    { destruct (Hw topics Ht) as [Hn|Hn]; [done|].
      rewrite Hn in Hacc; [done|]. eapply Hpend; [done|done|by left]. }
    assert (Hlen : length (workers s) = Z.to_nat (workerCount e topics)).
    { apply workers_invariant; [done|done|congruence]. }
    destruct (workers s !! 0%nat) as [w|] eqn:H0.
    + destruct w as [|t pc|].
      * eexists. by eapply step_send.
      * by eapply worker_can_step.
      * by destruct (Hret eq_refl 0%nat).
    + apply lookup_ge_None in H0. lia.
  - destruct Hp as (topics & h & Ht & Hwg & _).
    destruct (wg s) as [|n] eqn:Hn.
    + destruct (Brokers (client e)) eqn:Hb.
      * eexists. by apply step_no_broker.
      * eexists. apply step_groups; try done. by rewrite Hb.
    + destruct (count_positive working (workers s)) as (i & w & Hi & Hworking).
      { unfold busy in Hwg. lia. }
      destruct w; try done. by eapply worker_can_step.
  - destruct Hp as (topics & hT & hG & Ht & _ & Hwg & _).
    destruct (wg s) as [|n] eqn:Hn.
    + eexists. by apply step_finish.
    + destruct (count_positive running (tasks s)) as (j & t & Hj & Hrunning).
      { unfold active in Hwg. lia. }
      destruct t as [broker pc|]; [|done].
      destruct (getConsumerGroupMetrics e (offset s) broker !! pc) eqn:Hm'.
      * eexists. by eapply step_task.
      * eexists. by eapply step_task_done.
Qed.

End Progress.

(** ** The claims about the phases *)





Lemma in_sends m evs : In m (sends evs) <-> In (Send m) evs.
Proof.
  unfold sends. rewrite <- !list_elem_of_In, list_elem_of_omap. split.
  - intros (ev & Hev & H). destruct ev; try done. by injection H as ->.
  - intros H. by exists (Send m).
Qed.

(** C4, as the code has it.  With more than one topic the scheduler starts
    max(0, min(len(topics)/2, topicWorkers)) workers, with one topic or none
    it starts len(topics); so there is a worker whenever there is a topic and
    the configured count is at least 1 (3 workers for 10 topics and a count of
    3).  No state past the [wg.Wait()] of l.545 has a worker inside
    [getTopicMetrics], and its history holds every event of every topic
    before the first send of a broker's task; with a configured count of at
    least 1 such a state is reached, [collect] returns, and no execution
    gets stuck before [collect] has returned. *)
Theorem worker_pool_and_barrier (e : Exporter) (topics : list string) :
  sarama.Topics (client e) = Some topics ->
  (forall s, reachable e s -> main s <> Start ->
             length (workers s) = Z.to_nat (workerCount e topics))
  /\ (1 < len topics ->
      workerCount e topics = Z.min (len topics ÷ 2) (topicWorkers e))
  /\ (len topics <= 1 -> workerCount e topics = len topics)
  /\ (1 <= topicWorkers e -> 1 <= len topics -> 1 <= workerCount e topics)
  /\ (len topics = 10 -> topicWorkers e = 3 -> workerCount e topics = 3)
  /\ (forall s, reachable e s -> main s = WaitGroups \/ main s = Finished ->
        busy (workers s) = 0%nat
        /\ exists hT hG,
            history s = List.map Send (brokerMetrics e) ++ hT ++ hG
            /\ hT ≡ₚ topicPhase e topics
            /\ forall ev, In ev hG -> In ev (groupPhase e (offset s)))
  /\ (1 <= topicWorkers e ->
      reachable e (sequential e) /\ main (sequential e) = Finished)
  /\ (1 <= topicWorkers e ->
      forall s, reachable e s -> main s <> Finished -> exists s', step e s s').
Proof.
  intros Ht.
  split; [|split; [|split; [|split; [|split; [|split; [|split]]]]]].
  - intros s Hs Hm. by apply workers_invariant.
  - apply workerCount_many.
  - apply workerCount_few.
  - apply workerCount_positive.
  - intros Hn Hw. rewrite workerCount_many by lia. rewrite Hn, Hw. done.
  - intros s Hs Hm. by apply barrier.
  - intros Hw. by apply sequential_reachable, has_worker_or_nothing_to_do.
  - intros Hw s Hs Hm.
    apply never_stuck; [by apply has_worker_or_nothing_to_do|done|done].
Qed.

Lemma worker_pool_and_barrier_witness :
  length (workers (sequential Scenario.exporter))
  = Z.to_nat (workerCount Scenario.exporter ["t"]).
Proof.
  apply (worker_pool_and_barrier Scenario.exporter ["t"]).
  - reflexivity.
  - apply (worker_pool_and_barrier Scenario.exporter ["t"]).
    + reflexivity.
    + vm_compute. discriminate.
  - vm_compute. discriminate.
Defined.

(** C4 as stated fails without a configured worker: for two topics and a
    count of 0 the scheduler starts no worker at all, and [collect] never
    gets past its dispatch loop. *)
Lemma no_worker_for_two_topics :
  sarama.Topics (client Scenario.noWorker) = Some ["a"; "b"]
  /\ 1 <= len ["a"; "b"]
  /\ spawnWorkers Scenario.noWorker ["a"; "b"] = []
  /\ forall s, reachable Scenario.noWorker s ->
               workers s = []
               /\ main s <> WaitTopics /\ main s <> WaitGroups /\ main s <> Finished.
Proof.
  split; [done|]. split; [done|]. split; [done|]. intros s Hs. split.
  - assert (Hm : main s = Start \/ main s <> Start)
      by (destruct (main s); auto).
    destruct Hm as [Hm|Hm].
    + pose proof (phases_invariant _ s Hs) as Hp. unfold phases in Hp.
      rewrite Hm in Hp. by subst s.
    + pose proof (workers_invariant Scenario.noWorker s Hs ["a"; "b"] eq_refl Hm) as H.
      by apply nil_length_inv.
  - apply (no_worker_blocks Scenario.noWorker ["a"; "b"]); try done.
    exists "a". split; [by left|done].
Qed.

Lemma task_runs_in_group_phase e s j broker pc :
  reachable e s -> tasks s !! j = Some (Running broker pc) -> main s = WaitGroups.
Proof.
  intros Hs Hj. pose proof (phases_invariant e s Hs) as Hp. unfold phases in Hp.
  destruct (main s); try done.
  - by subst s.
  - destruct Hp as (_ & _ & _ & _ & Hts & _). by rewrite Hts in Hj.
  - destruct Hp as (_ & _ & _ & _ & Hts & _). by rewrite Hts in Hj.
  - destruct Hp as (_ & Ha & _). by pose proof (count_zero running _ _ _ Ha Hj).
Qed.



(** C9.  In every state past the [wg.Wait()] of l.545, where the brokers'
    tasks run, the offset table holds for every partition of an accepted
    topic the newest offset that was fetched for it, and no step changes the
    table any more; a broker's task runs in such states only.  With a
    configured worker count of at least 1 such a state is reached. *)
Theorem offsets_complete_before_groups (e : Exporter) (topics : list string) :
  sarama.Topics (client e) = Some topics ->
  (forall s t p v,
      reachable e s -> main s = WaitGroups \/ main s = Finished ->
      In t topics -> fetched e t p v ->
      lookupOffset (offset s) t p = Some v)
  /\ (forall s s',
        reachable e s -> main s = WaitGroups \/ main s = Finished ->
        step e s s' -> offset s' = offset s)
  /\ (forall s j broker pc,
        reachable e s -> tasks s !! j = Some (Running broker pc) ->
        main s = WaitGroups)
  /\ (1 <= topicWorkers e ->
      reachable e (sequential e) /\ main (sequential e) = Finished).
Proof.
  intros Ht. split; [|split; [|split]].
  - intros s t p v Hs Hm Hin Hf. by eapply table_at_barrier.
  - intros s s' Hs Hm Hstep. eapply table_frozen; [|done].
    by destruct (barrier e s topics Hs Ht Hm).
  - intros s j broker pc. apply task_runs_in_group_phase.
  - intros Hw. by apply sequential_reachable, has_worker_or_nothing_to_do.
Qed.

Lemma offsets_complete_before_groups_witness :
  lookupOffset (offset (sequential Scenario.exporter)) "t" 1 = Some 20.
Proof.
  apply (offsets_complete_before_groups Scenario.exporter ["t"]).
  - reflexivity.
  - apply (offsets_complete_before_groups Scenario.exporter ["t"]).
    + reflexivity.
    + vm_compute. discriminate.
  - right. reflexivity.
  - simpl. left. reflexivity.
  - split; [reflexivity|]. exists [0; 1]. split; [reflexivity|].
    split; [simpl; right; left; reflexivity|reflexivity].
Defined.

(** ** Coalescing *)

Section Coalesce.

Variable e : Exporter.
Hypothesis coalescing : allowConcurrent e = false.

Lemma coalesced_idle : coalesced e idle.
Proof. by repeat split. Qed.

Lemma coalesced_transition x a y :
  coalesced e x -> transition e x a y -> coalesced e y.
Proof.
  intros (Hd & Hc & Hr) Ht. unfold coalesced.
  inversion Ht; subst; clear Ht; cbn [direct closed made runs sgChans sgWaitCh waiting].
  - congruence.
  - (* the first caller *)
    assert (Hs : sgChans x = []).
    { destruct (sgChans x); [done|]. rewrite length_app in H0. simpl in H0. lia. }
    destruct (runs x) as [|r [|]]; [|by destruct Hr as [Hr _]|done].
    rewrite Hs. simpl. repeat split; try done.
    + intros w Hw. specialize (Hc w Hw). lia.
    + lia.
    + intros Hin. specialize (Hc _ Hin). lia.
    + apply rtc_refl.
    + intros c' [<-|[]]. apply in_app_iff. right. by left.
  - (* a caller while a run is in flight *)
    destruct (runs x) as [|r [|]]; [|clear H0|done].
    { rewrite Hr in H0. done. }
    destruct Hr as (Hne & Hw & Hq & Hcl & Hp & Hwait).
    repeat split; try done.
    + by destruct (sgChans x).
    + intros c' Hc'. apply in_app_iff. apply in_app_iff in Hc' as [Hc'|[<-|[]]].
      * left. by apply Hwait.
      * right. left. by rewrite Hw.
  - (* a step of the run *)
    destruct (runs x) as [|r' [|]] eqn:Hruns; [done| |done].
    destruct k; [|done]. injection H as <-.
    destruct Hr as (Hne & Hw & Hq & Hcl & Hp & Hwait).
    simpl. repeat split; try done. by eapply rtc_r.
  - by rewrite Hd in H.
  - (* the hand-over *)
    destruct (runs x) as [|r' [|]] eqn:Hruns; [done| |done].
    destruct k; [|done]. injection H as <-.
    destruct Hr as (Hne & Hw & Hq & Hcl & Hp & Hwait).
    simpl. repeat split; try done.
    intros w [<-|Hin]; [done|by apply Hc].
Qed.





Lemma omap_pair_other (a c : nat) (container : list Metric) :
  a <> c ->
  omap (fun cm : nat * Metric => if decide (cm.1 = c) then Some cm.2 else None)
       (List.map (pair a) container) = [].
Proof.
  intros H. induction container as [|m container IH]; simpl; [done|].
  destruct (decide (a = c)); [done|]. exact IH.
Qed.

Lemma omap_pair_same (c : nat) (container : list Metric) :
  omap (fun cm : nat * Metric => if decide (cm.1 = c) then Some cm.2 else None)
       (List.map (pair c) container) = container.
Proof.
  induction container as [|m container IH]; simpl; [done|].
  destruct (decide (c = c)); [|done]. f_equal. exact IH.
Qed.

Lemma omap_broadcast_other c chans container :
  ~ In c chans ->
  omap (fun cm : nat * Metric => if decide (cm.1 = c) then Some cm.2 else None)
       (broadcast chans container) = [].
Proof.
  unfold broadcast. induction chans as [|a chans IH]; intros Hc; simpl; [done|].
  rewrite omap_app, IH by (intros H; apply Hc; by right).
  rewrite app_nil_r. apply omap_pair_other. intros ->. apply Hc. by left.
Qed.

Lemma omap_broadcast_one c chans container :
  NoDup chans -> In c chans ->
  omap (fun cm : nat * Metric => if decide (cm.1 = c) then Some cm.2 else None)
       (broadcast chans container) = container.
Proof.
  unfold broadcast. induction chans as [|a chans IH]; intros Hnd Hc; simpl; [done|].
  apply NoDup_cons in Hnd as [Ha Hnd]. rewrite omap_app.
  destruct Hc as [->|Hc].
  - fold (broadcast chans container).
    rewrite omap_broadcast_other by (by rewrite <- list_elem_of_In).
    by rewrite app_nil_r, omap_pair_same.
  - rewrite IH by done. rewrite omap_pair_other; [done|].
    intros ->. apply Ha. by apply list_elem_of_In.
Qed.

Lemma execution_app x acts y acts' z :
  execution e x acts y -> execution e y acts' z -> execution e x (acts ++ acts') z.
Proof.
  intros H. induction H as [|x a y acts w Ht _ IH]; [done|].
  intros H'. simpl. eapply execution_cons; [done|]. by apply IH.
Qed.

Lemma registered_call l c st :
  l <> [] -> transition e (registered l st) (Call c) (registered (l ++ [c]) st).
Proof.
  intros Hl.
  assert (Hlen : length (sgChans (registered l st) ++ [c]) <> 1%nat).
  { cbn [registered sgChans]. rewrite length_app. destruct l; [done|]. simpl. lia. }
  pose proof (call_wait e (registered l st) c coalescing Hlen) as H.
  unfold registered in H |- *.
  cbn [sgChans sgWaitCh made closed runs direct waiting delivered] in H.
  by rewrite map_app.
Qed.


Lemma execution_advance cs st st' :
  rtc (step e) st st' ->
  exists n, execution e (registered cs st) (replicate n Advance) (registered cs st').
Proof.
  intros H. induction H as [st|st st1 st2 Hstep _ [n IH]].
  - exists 0%nat. apply execution_nil.
  - exists (S n). simpl. eapply execution_cons; [|exact IH].
    by apply (advance_run e (registered cs st) 0 (mkRun 0 st) st1).
Qed.

End Coalesce.



(** ** The preferred-replica indicator in an execution *)



(** * Further properties of the exporter *)

(** ** What an iteration over a partition sends *)

Section PartitionEvents.

Import sarama.

Variable e : Exporter.

Lemma zookeeperLag_in topic partition currentOffset ev :
  In ev (zookeeperLag e topic partition currentOffset)
  <-> useZooKeeperLag e = true
      /\ exists group,
          In group (default [] (kazoo.Consumergroups (zookeeperClient e)))
          /\ 0 < kazoo.FetchOffset group topic partition
          /\ ev = Send (MustNewConstMetric consumergroupLagZookeeper
                          (sub64 currentOffset (kazoo.FetchOffset group topic partition))
                          [kazoo.Name group; topic; FormatInt partition]).
Proof.
  unfold zookeeperLag. destruct (useZooKeeperLag e); [|by split; [|intros [? _]]].
  rewrite in_flat_map. split.
  - intros (g & Hg & H). split; [done|]. exists g. split; [done|].
    destruct (Z.ltb_spec 0 (kazoo.FetchOffset g topic partition)); [|done].
    destruct H as [<-|[]]. done.
  - intros (_ & g & Hg & Hpos & ->). exists g. split; [done|].
    destruct (Z.ltb_spec 0 (kazoo.FetchOffset g topic partition)); [by left|lia].
Qed.

Lemma partitionEvents_in topic partition ev :
  let labels := [topic; FormatInt partition] in
  In ev (partitionEvents e topic partition)
  <-> (exists b, Leader (client e) topic partition = Some b
                 /\ ev = Send (MustNewConstMetric topicPartitionLeader (ID b) labels))
      \/ (exists v, GetOffset (client e) topic partition OffsetNewest = (v, true)
                    /\ (ev = SetOffset topic partition v
                        \/ ev = Send (MustNewConstMetric topicCurrentOffset v labels)))
      \/ (exists v, GetOffset (client e) topic partition OffsetOldest = (v, true)
                    /\ ev = Send (MustNewConstMetric topicOldestOffset v labels))
      \/ (exists r, Replicas (client e) topic partition = Some r
                    /\ ev = Send (MustNewConstMetric topicPartitionReplicas (len r) labels))
      \/ (exists r, InSyncReplicas (client e) topic partition = Some r
                    /\ ev = Send (MustNewConstMetric topicPartitionInSyncReplicas (len r) labels))
      \/ ev = Send (MustNewConstMetric topicPartitionUsesPreferredReplica
                      (match leaderIsPreferred (Leader (client e) topic partition)
                               (Replicas (client e) topic partition) with
                       | Some true => 1
                       | _ => 0
                       end) labels)
      \/ ev = Send (MustNewConstMetric topicUnderReplicatedPartition
                      (if underReplicated (Replicas (client e) topic partition)
                            (InSyncReplicas (client e) topic partition)
                       then 1 else 0) labels)
      \/ In ev (zookeeperLag e topic partition
                  (GetOffset (client e) topic partition OffsetNewest).1).
Proof.
  intros labels. unfold partitionEvents. fold labels.
  destruct (leaderIsPreferred_total (Leader (client e) topic partition)
              (Replicas (client e) topic partition)) as [pref Hpref].
  rewrite Hpref. rewrite !in_app_iff.
  destruct (Leader (client e) topic partition) as [b|];
  destruct (GetOffset (client e) topic partition OffsetNewest) as [vn [|]];
  destruct (GetOffset (client e) topic partition OffsetOldest) as [vo [|]];
  destruct (Replicas (client e) topic partition) as [r|];
  destruct (InSyncReplicas (client e) topic partition) as [isr|];
  destruct pref; cbn [fst snd In];
  (split;
   [ intros H; repeat destruct H as [H|H]; subst; try done; eauto 12
   | intros H;
     repeat match goal with
       | H : _ \/ _ |- _ => destruct H as [H|H]
       | H : exists _, _ |- _ => destruct H as [? H]
       | H : _ /\ _ |- _ => destruct H as [? H]
       end; simplify_eq; subst; tauto ]).
Qed.

Lemma getTopicMetrics_in topic ev :
  In ev (getTopicMetrics e topic)
  <-> accepted e topic = true
      /\ (ev = FetchPartitions topic
          \/ exists partitions,
              Partitions (client e) topic = Some partitions
              /\ (ev = Send (MustNewConstMetric topicPartitions (len partitions) [topic])
                  \/ ev = MakeTopic topic
                  \/ exists partition,
                      In partition partitions
                      /\ In ev (partitionEvents e topic partition))).
Proof.
  destruct (accepted e topic) eqn:Hacc.
  - rewrite getTopicMetrics_accepted by done.
    destruct (Partitions (client e) topic) as [partitions|]; cbn [In].
    + rewrite in_flat_map. split.
      * intros [<-|[<-|[<-|H]]]; (split; [done|]); eauto 8.
      * intros (_ & [->|(ps & [= <-] & [->|[->|H]])]); auto.
    + split.
      * intros [<-|[]]. auto.
      * intros (_ & [->|(ps & H & _)]); [auto|done].
  - rewrite getTopicMetrics_rejected by done. split; [done|]. by intros [? _].
Qed.

End PartitionEvents.

(** X1.  What the loop body of l.417-504 sends for the five fetched attributes of
    a partition: each metric is on [ch] exactly when its own fetch succeeded,
    with the fetched value; a failed fetch of one attribute suppresses that
    metric only. *)
Theorem partition_fetch_failures_are_isolated
    (e : Exporter) (topic : string) (partition : Z) :
  let labels := [topic; FormatInt partition] in
  let sent m := In (Send m) (partitionEvents e topic partition) in
  (forall v, sent (MustNewConstMetric topicPartitionLeader v labels)
             <-> exists b, sarama.Leader (client e) topic partition = Some b
                           /\ v = sarama.ID b)
  /\ (forall v, sent (MustNewConstMetric topicCurrentOffset v labels)
                <-> sarama.GetOffset (client e) topic partition sarama.OffsetNewest
                    = (v, true))
  /\ (forall v, sent (MustNewConstMetric topicOldestOffset v labels)
                <-> sarama.GetOffset (client e) topic partition sarama.OffsetOldest
                    = (v, true))
  /\ (forall v, sent (MustNewConstMetric topicPartitionReplicas v labels)
                <-> exists r, sarama.Replicas (client e) topic partition = Some r
                              /\ v = len r)
  /\ (forall v, sent (MustNewConstMetric topicPartitionInSyncReplicas v labels)
                <-> exists r, sarama.InSyncReplicas (client e) topic partition = Some r
                              /\ v = len r).
Proof.
  intros labels sent. subst sent. cbv beta.
  repeat split.
  all: try (intros H; apply partitionEvents_in in H; fold labels in H;
            repeat match goal with
              | H : _ \/ _ |- _ => destruct H as [H|H]
              | H : exists _, _ |- _ => destruct H as [? H]
              | H : _ /\ _ |- _ => destruct H as [? H]
              end;
            try (apply zookeeperLag_sends in H as (? & ? & H));
            try discriminate H; simplify_eq; eauto; fail).
  all: intros H; apply partitionEvents_in; fold labels.
  - destruct H as (b & H & ->). left. eauto.
  - right. left. eauto.
  - do 2 right. left. eauto.
  - destruct H as (r & H & ->). do 3 right. left. eauto.
  - destruct H as (r & H & ->). do 4 right. left. eauto.
Qed.


(** X3.  l.486-503: the zookeeper lag of a partition.  One metric per zookeeper
    consumer group whose stored offset is positive, of value current offset
    minus stored offset in int64; the current offset is whatever [GetOffset]
    returned, also when that call failed; nothing is sent when the option is
    off or listing the groups fails. *)
Theorem zookeeper_lag_of_partition
    (e : Exporter) (topic : string) (partition : Z) :
  let currentOffset :=
    (sarama.GetOffset (client e) topic partition sarama.OffsetNewest).1 in
  (forall m,
      desc m = consumergroupLagZookeeper ->
      In (Send m) (partitionEvents e topic partition)
      <-> useZooKeeperLag e = true
          /\ exists groups group,
              kazoo.Consumergroups (zookeeperClient e) = Some groups
              /\ In group groups
              /\ 0 < kazoo.FetchOffset group topic partition
              /\ m = MustNewConstMetric consumergroupLagZookeeper
                       (sub64 currentOffset (kazoo.FetchOffset group topic partition))
                       [kazoo.Name group; topic; FormatInt partition])
  /\ (useZooKeeperLag e = false ->
      forall m, In (Send m) (getTopicMetrics e topic) ->
                desc m <> consumergroupLagZookeeper).
Proof.
  intros currentOffset.
  assert (Hiff : forall m,
      desc m = consumergroupLagZookeeper ->
      In (Send m) (partitionEvents e topic partition)
      <-> In (Send m) (zookeeperLag e topic partition currentOffset)).
  { intros m Hd. rewrite partitionEvents_in. fold currentOffset. split.
    - intros H.
      repeat match goal with
        | H : _ \/ _ |- _ => destruct H as [H|H]
        | H : exists _, _ |- _ => destruct H as [? H]
        | H : _ /\ _ |- _ => destruct H as [? H]
        end; try done; injection H as ->; discriminate Hd.
    - intros H. by do 7 right. }
  split.
  - intros m Hd. rewrite (Hiff m Hd), zookeeperLag_in. split.
    + intros (Hz & group & Hin & Hpos & [= ->]). split; [done|].
      destruct (kazoo.Consumergroups (zookeeperClient e)) as [groups|]; [|done].
      by exists groups, group.
    + intros (Hz & groups & group & Hk & Hin & Hpos & ->). split; [done|].
      exists group. rewrite Hk. done.
  - intros Hz m H Hd. apply getTopicMetrics_in in H as (_ & [H|(ps & _ & [H|[H|H]])]).
    + discriminate H.
    + injection H as ->. discriminate Hd.
    + discriminate H.
    + destruct H as (p & _ & H).
      apply partitionEvents_classify in H as H'.
      apply partitionEvents_in in H.
      repeat match goal with
        | H : _ \/ _ |- _ => destruct H as [H|H]
        | H : exists _, _ |- _ => destruct H as [? H]
        | H : _ /\ _ |- _ => destruct H as [? H]
        end; try discriminate H; try (injection H as ->; discriminate Hd).
      apply zookeeperLag_in in H as [H _]. congruence.
Qed.

Section TopicSamples.

Variable e : Exporter.

Ltac cases H :=
  repeat match type of H with
    | _ \/ _ => destruct H as [H|H]
    | exists _, _ => let x := fresh "x" in destruct H as [x H]
    | _ /\ _ => let H' := fresh "H" in destruct H as [H' H]
    end.

Lemma partitionEvents_labels topic partition m :
  In (Send m) (partitionEvents e topic partition) ->
  desc m <> consumergroupLagZookeeper ->
  labelValues m = [topic; FormatInt partition]
  /\ desc m <> topicPartitions.
Proof.
  intros H Hd. apply partitionEvents_in in H. cases H;
    try (apply zookeeperLag_sends in H as (? & ? & H));
    try discriminate H; injection H as ->; done.
Qed.

Lemma partitionEvents_functional topic partition m m' :
  In (Send m) (partitionEvents e topic partition) ->
  In (Send m') (partitionEvents e topic partition) ->
  desc m = desc m' -> desc m <> consumergroupLagZookeeper -> m = m'.
Proof.
  intros H H' Hd Hz.
  apply partitionEvents_in in H. apply partitionEvents_in in H'.
  cases H; try (apply zookeeperLag_sends in H as (? & ? & H));
    try discriminate H; injection H as ->; try done;
  (cases H'; try (apply zookeeperLag_sends in H' as (? & ? & H'));
    try discriminate H'; injection H' as ->; try discriminate Hd; congruence).
Qed.

End TopicSamples.

(** X4.  The samples of the topic phase do not collide: two metrics sent by
    [getTopicMetrics], for the same or for two topics, that have the same
    descriptor and the same label values are the same sample of the same
    topic.  The zookeeper lag is left out: it is labelled with the name of a
    zookeeper group, and two groups may share one. *)
Theorem topic_samples_do_not_collide
    (e : Exporter) (topic topic' : string) (m m' : Metric) :
  In (Send m) (getTopicMetrics e topic) ->
  In (Send m') (getTopicMetrics e topic') ->
  desc m = desc m' -> labelValues m = labelValues m' ->
  desc m <> consumergroupLagZookeeper ->
  topic = topic' /\ m = m'.
Proof.
  intros H H' Hd Hl Hz.
  apply getTopicMetrics_in in H as (_ & [H|(ps & Hps & [H|[H|(p & _ & H)]])]);
    try discriminate H;
  apply getTopicMetrics_in in H' as (_ & [H'|(ps' & Hps' & [H'|[H'|(p' & _ & H')]])]);
    try discriminate H'.
  - injection H as ->. injection H' as ->. injection Hl as ->.
    split; [done|]. congruence.
  - injection H as ->.
    apply partitionEvents_labels in H' as [_ H']; [|congruence]. by rewrite <- Hd in H'.
  - injection H' as ->.
    apply partitionEvents_labels in H as [_ H]; [|done]. by rewrite Hd in H.
  - pose proof (partitionEvents_labels _ _ _ _ H Hz) as [Hm _].
    assert (Hz' : desc m' <> consumergroupLagZookeeper) by congruence.
    pose proof (partitionEvents_labels _ _ _ _ H' Hz') as [Hm' _].
    rewrite Hl, Hm' in Hm. injection Hm as -> Hp%FormatInt_inj. subst p'.
    split; [done|]. by eapply partitionEvents_functional.
Qed.

Lemma topic_samples_do_not_collide_witness :
  "t" = "t"
  /\ MustNewConstMetric topicCurrentOffset 10 ["t"; "0"]
     = MustNewConstMetric topicCurrentOffset 10 ["t"; "0"].
Proof.
  apply (topic_samples_do_not_collide Scenario.exporter "t" "t").
  - vm_compute. tauto.
  - vm_compute. tauto.
  - reflexivity.
  - reflexivity.
  - discriminate.
Defined.

(** ** The offset table of a scrape *)

Section Table.

Import sarama.

Variable e : Exporter.

#[local] Arguments execute : simpl never.
#[local] Arguments brokerMetrics : simpl never.
#[local] Arguments getTopicMetrics : simpl never.
#[local] Arguments getConsumerGroupMetrics : simpl never.

(** A worker only ever works on a topic of the list. *)
Lemma working_topic_listed s :
  reachable e s ->
  forall i topic pc,
    workers s !! i = Some (Working topic pc) ->
    exists topics, Topics (client e) = Some topics /\ In topic topics.
Proof.
  revert s. apply (reachable_invariant e (fun s => forall i topic pc,
    workers s !! i = Some (Working topic pc) ->
    exists topics, Topics (client e) = Some topics /\ In topic topics)).
  - intros i topic pc H. done.
  - intros s s' Hs Hstep IH k t q Hk.
    inversion Hstep; subst; clear Hstep; fields in Hk |- *;
      try (by eapply IH).
    + apply lookup_replicate in Hk as [Hk _]. done.
    + apply worker_insert_cases in Hk as [[_ Hk]|[_ Hk]]; [|by eapply IH].
      injection Hk as -> ->.
      pose proof (phases_invariant e s Hs) as Hp. unfold phases in Hp.
      rewrite H0 in Hp. destruct Hp as (all & h & Ht & _).
      exists all. split; [done|].
      destruct (dispatch_invariant e s Hs) as [Hd _].
      eapply Hd; [done|done|by left].
    + rewrite execute_workers in Hk. fields in Hk |- *.
      apply worker_insert_cases in Hk as [[_ Hk]|[_ Hk]]; [|by eapply IH].
      injection Hk as -> ->. by eapply IH.
    + apply worker_insert_cases in Hk as [[_ Hk]|[_ Hk]]; [done|by eapply IH].
    + apply worker_insert_cases in Hk as [[_ Hk]|[_ Hk]]; [done|by eapply IH].
Qed.

(** Every inner map of the table was made for a listed, accepted topic whose
    partitions were listed, and holds nothing but newest offsets that were
    fetched for these partitions. *)
Lemma table_sound s :
  reachable e s ->
  forall t inner,
    offset s !! t = Some inner ->
    (exists topics, Topics (client e) = Some topics /\ In t topics)
    /\ accepted e t = true
    /\ exists partitions,
        Partitions (client e) t = Some partitions
        /\ forall p v,
            inner !! p = Some v ->
            In p partitions
            /\ GetOffset (client e) t p OffsetNewest = (v, true).
Proof.
  revert s. apply (reachable_invariant e (fun s => forall t inner,
    offset s !! t = Some inner ->
    (exists topics, Topics (client e) = Some topics /\ In t topics)
    /\ accepted e t = true
    /\ exists partitions,
        Partitions (client e) t = Some partitions
        /\ forall p v,
            inner !! p = Some v ->
            In p partitions
            /\ GetOffset (client e) t p OffsetNewest = (v, true))).
  - intros t inner H. done.
  - intros s s' Hs Hstep IH t inner Ht.
    inversion Hstep; subst; clear Hstep; fields in Ht |- *;
      try (by eapply IH).
    pose proof (working_topic_listed s Hs _ _ _ H0) as Hlisted.
    apply list_elem_of_lookup_2, list_elem_of_In, getTopicMetrics_in in H1
      as (Hacc & Hev).
    destruct ev as [| |t0|t0 p0 v0|]; unfold execute in Ht; fields in Ht |- *;
      try (by eapply IH).
    + destruct Hev as [Hev|(ps & Hps & [Hev|[Hev|(p & _ & Hev)]])];
        try discriminate Hev.
      * injection Hev as ->.
        destruct (decide (topic = t)) as [->|Hne].
        -- rewrite lookup_insert_eq in Ht. injection Ht as <-.
           split; [done|]. split; [done|]. exists ps. split; [done|].
           intros p v Hp. by rewrite lookup_empty in Hp.
        -- rewrite lookup_insert_ne in Ht by done. by eapply IH.
      * by apply partitionEvents_classify in Hev.
    + destruct Hev as [Hev|(ps & Hps & [Hev|[Hev|(p & Hp & Hev)]])];
        try discriminate Hev.
      apply partitionEvents_classify in Hev as (-> & -> & Hget).
      destruct (offset s !! topic) as [old|] eqn:Hold; fields in Ht |- *;
        [|by eapply IH].
      destruct (decide (topic = t)) as [->|Hne].
      * rewrite lookup_insert_eq in Ht. injection Ht as <-.
        split; [done|]. split; [done|]. exists ps. split; [done|].
        intros q v Hq. destruct (decide (p = q)) as [->|Hpq].
        -- rewrite lookup_insert_eq in Hq. injection Hq as <-. done.
        -- rewrite lookup_insert_ne in Hq by done.
           destruct (IH t old Hold) as (_ & _ & ps' & Hps' & Hin).
           assert (ps' = ps) as -> by congruence. by apply Hin.
      * rewrite lookup_insert_ne in Ht by done. by eapply IH.
Qed.



End Table.

(** ** What a scrape returns *)

Section Scrape.

Import sarama.

Variable e : Exporter.

#[local] Arguments execute : simpl never.
#[local] Arguments brokerMetrics : simpl never.
#[local] Arguments getTopicMetrics : simpl never.
#[local] Arguments getConsumerGroupMetrics : simpl never.


Lemma sequential_runs :
  1 <= topicWorkers e -> reachable e (sequential e) /\ main (sequential e) = Finished.
Proof.
  intros Hw. apply sequential_reachable. by apply has_worker_or_nothing_to_do.
Qed.

End Scrape.



(** X6.  The offset table holds nothing but fetched offsets: in every state of a
    scrape an entry of the table is the newest offset that [GetOffset]
    returned without error for a partition of a listed topic that passes the
    filter, and only such a topic whose partitions were listed has an inner
    map.  Past the [wg.Wait()] of l.545 the table is exactly the map of these
    offsets. *)
Theorem offset_table_holds_the_fetched_offsets
    (e : Exporter) (topics : list string) :
  sarama.Topics (client e) = Some topics ->
  (forall s t p v,
      reachable e s -> lookupOffset (offset s) t p = Some v ->
      In t topics /\ fetched e t p v)
  /\ (forall s t,
        reachable e s -> is_Some (offset s !! t) ->
        In t topics /\ accepted e t = true
        /\ is_Some (sarama.Partitions (client e) t))
  /\ (forall s t p v,
        reachable e s -> main s = WaitGroups \/ main s = Finished ->
        lookupOffset (offset s) t p = Some v <-> In t topics /\ fetched e t p v).
Proof.
  intros Ht.
  assert (Hsound : forall s t p v,
      reachable e s -> lookupOffset (offset s) t p = Some v ->
      In t topics /\ fetched e t p v).
  { intros s t p v Hs Hl. unfold lookupOffset in Hl.
    destruct (offset s !! t) as [inner|] eqn:Hin; [|done].
    destruct (table_sound e s Hs t inner Hin)
      as ((all & Hall & Hlisted) & Hacc & ps & Hps & Hentries).
    assert (all = topics) as -> by congruence.
    destruct (Hentries p v Hl) as [Hp Hget].
    split; [done|]. split; [done|]. by exists ps. }
  split; [exact Hsound|]. split.
  - intros s t Hs [inner Hin].
    destruct (table_sound e s Hs t inner Hin)
      as ((all & Hall & Hlisted) & Hacc & ps & Hps & _).
    assert (all = topics) as -> by congruence.
    split; [done|]. split; [done|]. by exists ps.
  - intros s t p v Hs Hm. split; [by apply Hsound|].
    intros [Hin Hf]. by eapply table_at_barrier.
Qed.

Lemma offset_table_holds_the_fetched_offsets_witness :
  In "t" ["t"] /\ fetched Scenario.exporter "t" 0 10.
Proof.
  apply (proj1 (offset_table_holds_the_fetched_offsets Scenario.exporter ["t"] eq_refl)
           (sequential Scenario.exporter)).
  - apply sequential_runs. vm_compute. discriminate.
  - vm_compute. reflexivity.
Defined.



(** X8.  l.388-393: when the topics cannot be listed, [collect] returns at once.
    The scrape then consists of the cluster metrics of l.365-372 and nothing
    else: no worker and no broker task is started and the table stays
    empty. *)
Theorem topics_failure_ends_the_scrape (e : Exporter) :
  sarama.Topics (client e) = None ->
  (forall s, reachable e s ->
             s = initial
             \/ s = withMain Finished (record (List.map Send (brokerMetrics e)) initial))
  /\ reachable e (withMain Finished (record (List.map Send (brokerMetrics e)) initial))
  /\ ch (withMain Finished (record (List.map Send (brokerMetrics e)) initial))
     = brokerMetrics e.
Proof.
  intros Ht. split; [|split].
  - apply (reachable_invariant e (fun s =>
      s = initial
      \/ s = withMain Finished (record (List.map Send (brokerMetrics e)) initial))).
    + by left.
    + intros s s' _ Hstep [-> | ->]; inversion Hstep; subst; clear Hstep;
        try done; try congruence; by right.
  - eapply rtc_r; [apply rtc_refl|]. by apply step_no_topics.
  - unfold ch. cbn [history withMain record initial]. apply sends_map_Send.
Qed.

Lemma topics_failure_ends_the_scrape_witness :
  ch (withMain Finished
        (record (List.map Send (brokerMetrics Outage.exporter)) initial))
  = brokerMetrics Outage.exporter.
Proof.
  apply (topics_failure_ends_the_scrape Outage.exporter). reflexivity.
Defined.

Section Once.

Import sarama.

Variable e : Exporter.

#[local] Arguments getTopicMetrics : simpl never.

Lemma count_occ_none (l : list Event) (ev : Event) :
  ~ In ev l -> count_occ Event_eq_dec l ev = 0%nat.
Proof. apply count_occ_not_In. Qed.

Lemma count_FetchPartitions topic t :
  count_occ Event_eq_dec (getTopicMetrics e topic) (FetchPartitions t)
  = if accepted e topic && bool_decide (topic = t) then 1%nat else 0%nat.
Proof.
  destruct (accepted e topic) eqn:Hacc; simpl.
  - rewrite getTopicMetrics_accepted by done.
    assert (Hrest : ~ In (FetchPartitions t)
              match Partitions (client e) topic with
              | Some partitions =>
                  Send (MustNewConstMetric topicPartitions (len partitions) [topic])
                  :: MakeTopic topic :: flat_map (partitionEvents e topic) partitions
              | None => []
              end).
    { destruct (Partitions (client e) topic) as [ps|]; [|by intros []].
      intros [H|[H|H]]; try discriminate H.
      apply in_flat_map in H as (p & _ & H).
      by apply partitionEvents_classify in H. }
    case_bool_decide as Heq.
    + subst t. rewrite count_occ_cons_eq by done. by rewrite count_occ_none.
    + rewrite count_occ_cons_neq by congruence. by rewrite count_occ_none.
  - rewrite getTopicMetrics_rejected by done. done.
Qed.

Lemma count_topicPhase topics t :
  count_occ Event_eq_dec (topicPhase e topics) (FetchPartitions t)
  = if accepted e t then count_occ string_dec topics t else 0%nat.
Proof.
  unfold topicPhase. induction topics as [|topic topics IH]; simpl.
  - by destruct (accepted e t).
  - rewrite count_occ_app, IH, count_FetchPartitions.
    destruct (string_dec topic t) as [->|Hne].
    + rewrite bool_decide_eq_true_2 by done.
      destruct (accepted e t); simpl; done.
    + rewrite bool_decide_eq_false_2 by done. rewrite andb_false_r. done.
Qed.

End Once.

(** X9.  However many workers run, each topic is worked on once per entry of the
    topic list: when the topic phase is over, the partitions of a topic that
    passes the filter have been asked for as many times as the topic is
    listed, and those of any other topic never. *)
Theorem partitions_fetched_once_per_listed_topic
    (e : Exporter) (topics : list string) (s : State) (t : string) :
  sarama.Topics (client e) = Some topics ->
  reachable e s ->
  main s = WaitGroups \/ main s = Finished ->
  count_occ Event_eq_dec (history s) (FetchPartitions t)
  = if accepted e t then count_occ string_dec topics t else 0%nat.
Proof.
  intros Ht Hs Hm.
  destruct (barrier e s topics Hs Ht Hm) as (_ & hT & hG & -> & HT & HG).
  rewrite !count_occ_app.
  rewrite (count_occ_none (List.map Send (brokerMetrics e))).
  2: { intros H. apply in_map_iff in H as (m & H & _). discriminate H. }
  rewrite (count_occ_none hG).
  2: { intros H. apply HG in H. unfold groupPhase in H.
       apply in_flat_map in H as (b & _ & H).
       apply in_map_iff in H as (m & H & _). discriminate H. }
  rewrite (Permutation_count_occ Event_eq_dec hT (topicPhase e topics)) in HT.
  rewrite HT, count_topicPhase. simpl. lia.
Qed.

Lemma partitions_fetched_once_per_listed_topic_witness :
  count_occ Event_eq_dec (history (sequential Scenario.exporter)) (FetchPartitions "t")
  = if accepted Scenario.exporter "t" then count_occ string_dec ["t"] "t" else 0%nat.
Proof.
  apply (partitions_fetched_once_per_listed_topic Scenario.exporter ["t"]).
  - reflexivity.
  - apply sequential_runs. vm_compute. discriminate.
  - right. reflexivity.
Defined.

(** ** The offset-fetch request of a group *)

Section Request.

Import sarama.

(** The partitions that a request asks for under a topic. *)
Lemma AddPartition_lookup t p r topic :
  default [] (partitions (AddPartition t p r) !! topic)
  = default [] (partitions r !! topic) ++ (if decide (t = topic) then [p] else []).
Proof.
  unfold AddPartition. cbn [partitions].
  destruct (decide (t = topic)) as [->|Hne].
  - by rewrite lookup_insert_eq.
  - rewrite lookup_insert_ne by done. by rewrite app_nil_r.
Qed.

Lemma AddPartition_header t p r :
  ConsumerGroup (AddPartition t p r) = ConsumerGroup r
  /\ Version (AddPartition t p r) = Version r.
Proof. done. Qed.





Lemma addMembers_None members : forall r,
  addMembers members r = None
  <-> exists member, In member members /\ GetMemberAssignment member = None.
Proof.
  induction members as [|member members IH]; intros r; simpl.
  - split; [done|]. by intros (? & [] & _).
  - destruct (GetMemberAssignment member) as [assignment|] eqn:Ha.
    + rewrite IH. split.
      * intros (m & Hin & Hm). exists m. auto.
      * intros (m & [<-|Hin] & Hm); [congruence|]. by exists m.
    + split; [|done]. intros _. exists member. auto.
Qed.


Variable offset : OffsetTable.

Lemma addAll_inner t (l : list (Z * Z)) : forall r topic,
  default [] (partitions (foldl (fun r (pv : Z * Z) => AddPartition t pv.1 r) r l) !! topic)
  = default [] (partitions r !! topic) ++ (if decide (t = topic) then l.*1 else []).
Proof.
  induction l as [|pv l IH]; intros r topic; simpl.
  - destruct (decide (t = topic)); by rewrite app_nil_r.
  - rewrite IH, AddPartition_lookup.
    destruct (decide (t = topic)); [by rewrite <- app_assoc|by rewrite !app_nil_r].
Qed.

Lemma addAll_inner_header t (l : list (Z * Z)) : forall r,
  ConsumerGroup (foldl (fun r (pv : Z * Z) => AddPartition t pv.1 r) r l) = ConsumerGroup r
  /\ Version (foldl (fun r (pv : Z * Z) => AddPartition t pv.1 r) r l) = Version r.
Proof.
  induction l as [|pv l IH]; intros r; simpl; [done|].
  by rewrite !(proj1 (IH _)), !(proj2 (IH _)).
Qed.

Lemma addAll_outer (l : list (string * gmap Z Z)) : forall r topic,
  default []
    (partitions
       (foldl (fun r (tp : string * gmap Z Z) =>
                 foldl (fun r (pv : Z * Z) => AddPartition tp.1 pv.1 r) r
                       (map_to_list tp.2)) r l) !! topic)
  = default [] (partitions r !! topic)
    ++ flat_map (fun tp : string * gmap Z Z =>
                   if decide (tp.1 = topic) then (map_to_list tp.2).*1 else []) l.
Proof.
  induction l as [|tp l IH]; intros r topic; simpl.
  - by rewrite app_nil_r.
  - rewrite IH, addAll_inner. by rewrite <- app_assoc.
Qed.

Lemma addAll_outer_header (l : list (string * gmap Z Z)) : forall r,
  ConsumerGroup
    (foldl (fun r (tp : string * gmap Z Z) =>
              foldl (fun r (pv : Z * Z) => AddPartition tp.1 pv.1 r) r
                    (map_to_list tp.2)) r l) = ConsumerGroup r
  /\ Version
       (foldl (fun r (tp : string * gmap Z Z) =>
                 foldl (fun r (pv : Z * Z) => AddPartition tp.1 pv.1 r) r
                       (map_to_list tp.2)) r l) = Version r.
Proof.
  induction l as [|tp l IH]; intros r; simpl; [done|].
  destruct (IH (foldl (fun r (pv : Z * Z) => AddPartition tp.1 pv.1 r) r
                      (map_to_list tp.2))) as [-> ->].
  apply addAll_inner_header.
Qed.

Lemma addAllPartitions_requested r topic p :
  partitions r = ∅ ->
  In p (default [] (partitions (addAllPartitions offset r) !! topic))
  <-> is_Some (lookupOffset offset topic p).
Proof.
  intros Hr. unfold addAllPartitions. rewrite addAll_outer, Hr, lookup_empty. simpl.
  rewrite in_flat_map. unfold lookupOffset. split.
  - intros ([t inner] & Hin & Hp). simpl in Hp.
    destruct (decide (t = topic)) as [->|]; [|done].
    apply list_elem_of_In, elem_of_map_to_list in Hin. rewrite Hin.
    apply list_elem_of_In, list_elem_of_fmap in Hp as ([q v] & -> & Hqv).
    apply elem_of_map_to_list in Hqv. by exists v.
  - destruct (offset !! topic) as [inner|] eqn:Ht; [|by intros []].
    intros [v Hv]. exists (topic, inner). split.
    + by apply list_elem_of_In, elem_of_map_to_list.
    + simpl. rewrite decide_True by done.
      apply list_elem_of_In, list_elem_of_fmap. exists (p, v). split; [done|].
      by apply elem_of_map_to_list.
Qed.

Lemma addAllPartitions_NoDup r topic :
  partitions r = ∅ ->
  NoDup (default [] (partitions (addAllPartitions offset r) !! topic)).
Proof.
  intros Hr. unfold addAllPartitions. rewrite addAll_outer, Hr, lookup_empty. simpl.
  pose proof (NoDup_fst_map_to_list offset) as Hnd.
  assert (Hall : forall tp, tp ∈ map_to_list offset -> offset !! tp.1 = Some tp.2).
  { intros [t i] H. by apply elem_of_map_to_list. }
  induction (map_to_list offset) as [|[t inner] l IH]; simpl.
  - constructor.
  - apply NoDup_cons in Hnd as [Hnotin Hnd]. simpl in Hnotin.
    destruct (decide (t = topic)) as [->|Hne].
    + assert (Hrest : flat_map (fun tp : string * gmap Z Z =>
                         if decide (tp.1 = topic) then (map_to_list tp.2).*1 else []) l
                      = []).
      { clear -Hnotin. induction l as [|[t' i'] l IH]; simpl; [done|].
        destruct (decide (t' = topic)) as [->|Hne].
        - exfalso. apply Hnotin. simpl. left.
        - apply IH. intros H. apply Hnotin. simpl. by right. }
      rewrite Hrest, app_nil_r. apply NoDup_fst_map_to_list.
    + simpl. apply IH; [done|]. intros tp Htp. apply Hall. by right.
Qed.

End Request.



(** X11.  l.574-579: with [offsetShowAll] the request of every group asks for
    exactly the partitions that have an entry in the offset table, each
    once; the members of the group and their assignments are not looked
    at. *)
Theorem show_all_requests_the_whole_table
    (e : Exporter) (offset : OffsetTable) (group : sarama.GroupDescription) :
  offsetShowAll e = true ->
  exists r,
    buildOffsetFetchRequest e offset group = Some r
    /\ sarama.ConsumerGroup r = sarama.GroupId group
    /\ sarama.Version r = 1
    /\ (forall topic p,
          In p (default [] (sarama.partitions r !! topic))
          <-> is_Some (lookupOffset offset topic p))
    /\ forall topic, NoDup (default [] (sarama.partitions r !! topic)).
Proof.
  intros Hall. unfold buildOffsetFetchRequest. rewrite Hall.
  eexists. split; [done|].
  unfold addAllPartitions.
  destruct (addAll_outer_header (map_to_list offset)
              (sarama.mkOffsetFetchRequest (sarama.GroupId group) 1 ∅)) as [Hg Hv].
  split; [exact Hg|]. split; [exact Hv|]. split.
  - intros topic p. by apply addAllPartitions_requested.
  - intros topic. by apply addAllPartitions_NoDup.
Qed.

Lemma show_all_requests_the_whole_table_witness :
  exists r,
    buildOffsetFetchRequest ShowAll.exporter Scenario.table ShowAll.g1 = Some r
    /\ sarama.ConsumerGroup r = "g1"
    /\ sarama.Version r = 1
    /\ (forall topic p,
          In p (default [] (sarama.partitions r !! topic))
          <-> is_Some (lookupOffset Scenario.table topic p))
    /\ forall topic, NoDup (default [] (sarama.partitions r !! topic)).
Proof.
  apply (show_all_requests_the_whole_table ShowAll.exporter Scenario.table ShowAll.g1).
  reflexivity.
Defined.

Section GroupsCompose.

Import sarama.

Variable e : Exporter.
Variable offset : OffsetTable.
Variable broker : Broker.


Lemma groupsLoop_stop gs1 g gs2 :
  buildOffsetFetchRequest e offset g = None ->
  groupsLoop e offset broker (gs1 ++ g :: gs2) = groupsLoop e offset broker gs1.
Proof.
  intros Hg. induction gs1 as [|g1 gs1 IH]; simpl.
  - by rewrite Hg.
  - destruct (buildOffsetFetchRequest e offset g1); [|done]. by rewrite IH.
Qed.

End GroupsCompose.



(** X13.  The [return] of l.585 in general: when an assignment of a group does not
    decode, the task of the broker sends what it sent for the groups before
    that one and nothing more, whatever groups follow; no member count is
    sent for the group or for any group after it. *)
Theorem broker_task_stops_at_an_undecodable_assignment
    (e : Exporter) (offset : OffsetTable) (broker : sarama.Broker)
    (before after : list sarama.GroupDescription) (group : sarama.GroupDescription)
    (member : sarama.GroupMemberDescription) :
  offsetShowAll e = false ->
  In member (sarama.Members group) ->
  sarama.GetMemberAssignment member = None ->
  groupsLoop e offset broker (before ++ group :: after)
  = groupsLoop e offset broker before
  /\ groupsLoop e offset broker (group :: after) = [].
Proof.
  intros Hall Hin Hm.
  assert (Hb : buildOffsetFetchRequest e offset group = None).
  { unfold buildOffsetFetchRequest. rewrite Hall. apply addMembers_None. eauto. }
  split.
  - by apply groupsLoop_stop.
  - apply (groupsLoop_stop e offset broker [] group after Hb).
Qed.

Lemma broker_task_stops_at_an_undecodable_assignment_witness :
  groupsLoop Scenario.exporter Scenario.table Scenario.broker2
    ([ShowAll.g2] ++ ShowAll.g1 :: [ShowAll.g2])
  = groupsLoop Scenario.exporter Scenario.table Scenario.broker2 [ShowAll.g2]
  /\ groupsLoop Scenario.exporter Scenario.table Scenario.broker2
       (ShowAll.g1 :: [ShowAll.g2]) = [].
Proof.
  apply (broker_task_stops_at_an_undecodable_assignment Scenario.exporter
           Scenario.table Scenario.broker2 [ShowAll.g2] [ShowAll.g2] ShowAll.g1
           (sarama.mkMember None)).
  - reflexivity.
  - simpl. left. reflexivity.
  - reflexivity.
Defined.

(** ** The blocks of a topic in an offset-fetch response *)

(** X14.  l.605-615: a topic of the response is skipped, and nothing at all is sent
    for it, exactly when every one of its blocks has the offset -1; the test
    does not look at the error of a block. *)
Theorem unconsumed_topic_is_skipped
    (offset : OffsetTable) (group topic : string)
    (partitions : list (Z * sarama.OffsetFetchResponseBlock)) :
  topicBlocks offset group topic partitions = []
  <-> forall p b, In (p, b) partitions -> sarama.Offset b = -1.
Proof.
  destruct (topicConsumed partitions) eqn:Hc.
  - rewrite topicBlocks_consumed by done. split.
    + intros H. by apply app_eq_nil in H as [_ H].
    + intros H. exfalso. unfold topicConsumed in Hc.
      apply existsb_exists in Hc as ([p b] & Hin & Hb). simpl in Hb.
      rewrite (H p b Hin) in Hb. done.
  - rewrite topicBlocks_not_consumed by done. split; [|done].
    intros _ p b Hin. unfold topicConsumed in Hc.
    destruct (Z.eq_dec (sarama.Offset b) (-1)) as [|Hne]; [done|].
    assert (existsb (fun pb : Z * sarama.OffsetFetchResponseBlock =>
                       negb (sarama.Offset pb.2 =? -1)) partitions = true).
    { apply existsb_exists. exists (p, b). split; [done|]. simpl.
      by apply negb_true_iff, Z.eqb_neq. }
    congruence.
Qed.

Section Blocks.

Variable offset : OffsetTable.
Variables group topic : string.

Lemma errored_nothing partitions :
  (forall pb, In pb partitions -> noError pb = false) ->
  flat_map (partitionMetrics offset group topic) partitions = []
  /\ committedOffsets partitions = []
  /\ computedLags offset topic partitions = [].
Proof.
  unfold committedOffsets, computedLags.
  induction partitions as [|pb partitions IH]; intros H; simpl; [done|].
  assert (Hpb : noError pb = false) by (apply H; by left).
  destruct IH as (IH1 & IH2 & IH3); [intros pb' Hpb'; apply H; by right|].
  split; [|split].
  - unfold partitionMetrics at 1. by rewrite Hpb.
  - by rewrite Hpb.
  - destruct (negb (sarama.Offset pb.2 =? -1)); [|done]. simpl.
    unfold lagOf at 1. by rewrite Hpb.
Qed.

Lemma sent_current_offsets partitions :
  List.map value
    (List.filter (fun m => bool_decide (desc m = consumergroupCurrentOffset))
       (flat_map (partitionMetrics offset group topic) partitions))
  = committedOffsets partitions.
Proof.
  unfold committedOffsets.
  induction partitions as [|pb partitions IH]; simpl; [done|].
  rewrite List.filter_app, List.map_app, IH.
  unfold partitionMetrics. destruct (noError pb); simpl; [|done].
  by destruct (lagOf offset topic pb).
Qed.

End Blocks.

(** X15.  l.608 against l.621: a topic is taken as consumed on the offsets of its
    blocks alone.  When every block of a topic carries an error and one of
    them has an offset other than -1, no partition metric is sent for the
    topic, and the two sums are sent with the value 0. *)
Theorem errored_blocks_leave_zero_sums
    (offset : OffsetTable) (group topic : string)
    (partitions : list (Z * sarama.OffsetFetchResponseBlock)) :
  (forall p b, In (p, b) partitions -> sarama.Err b <> sarama.ErrNoError) ->
  (exists p b, In (p, b) partitions /\ sarama.Offset b <> -1) ->
  topicBlocks offset group topic partitions
  = [MustNewConstMetric consumergroupCurrentOffsetSum 0 [group; topic];
     MustNewConstMetric consumergroupLagSum 0 [group; topic]].
Proof.
  intros Herr (p & b & Hin & Hb).
  assert (Hc : topicConsumed partitions = true).
  { apply existsb_exists. exists (p, b). split; [done|]. simpl.
    by apply negb_true_iff, Z.eqb_neq. }
  rewrite topicBlocks_consumed by done.
  destruct (errored_nothing offset group topic partitions) as (-> & -> & ->); [|done].
  intros [q c] Hq. unfold noError. simpl. apply Z.eqb_neq. by eapply Herr.
Qed.

Lemma errored_blocks_leave_zero_sums_witness :
  topicBlocks Scenario.table "g" "t" [(0, sarama.mkBlock 7 3); (1, sarama.mkBlock (-1) 3)]
  = [MustNewConstMetric consumergroupCurrentOffsetSum 0 ["g"; "t"];
     MustNewConstMetric consumergroupLagSum 0 ["g"; "t"]].
Proof.
  apply (errored_blocks_leave_zero_sums Scenario.table "g" "t"
           [(0, sarama.mkBlock 7 3); (1, sarama.mkBlock (-1) 3)]).
  - intros p b [H|[H|[]]]; injection H as _ <-; vm_compute; discriminate.
  - exists 0, (sarama.mkBlock 7 3). split; [simpl; left; reflexivity|].
    vm_compute. discriminate.
Defined.

(** X16.  l.631 and l.644-646: a block without error whose partition has no entry
    in the offset table.  The committed offset of the partition is sent, and
    no lag is sent for it, not even the marker -1. *)
Theorem missing_table_entry_sends_no_lag
    (offset : OffsetTable) (group topic : string)
    (partitions : list (Z * sarama.OffsetFetchResponseBlock))
    (partition : Z) (block : sarama.OffsetFetchResponseBlock) :
  NoDup (List.map fst partitions) ->
  In (partition, block) partitions ->
  topicConsumed partitions = true ->
  sarama.Err block = sarama.ErrNoError ->
  lookupOffset offset topic partition = None ->
  (forall v,
      In (MustNewConstMetric consumergroupCurrentOffset v
            [group; topic; FormatInt partition])
         (topicBlocks offset group topic partitions)
      <-> v = sarama.Offset block)
  /\ forall v,
      ~ In (MustNewConstMetric consumergroupLag v [group; topic; FormatInt partition])
           (topicBlocks offset group topic partitions).
Proof.
  intros Hnd Hin Hc Herr Hl.
  assert (Hpm : partitionMetrics offset group topic (partition, block)
                = [MustNewConstMetric consumergroupCurrentOffset (sarama.Offset block)
                     [group; topic; FormatInt partition]]).
  { unfold partitionMetrics, lagOf, noError. simpl. rewrite Herr, Hl. done. }
  split.
  - intros v.
    rewrite (in_topicBlocks_partition offset group topic partitions partition block
               consumergroupCurrentOffset v Hnd Hin) by auto.
    rewrite Hpm. simpl. split.
    + intros (_ & [H|[]]). by injection H.
    + intros ->. auto.
  - intros v.
    rewrite (in_topicBlocks_partition offset group topic partitions partition block
               consumergroupLag v Hnd Hin) by auto.
    rewrite Hpm. simpl. intros (_ & [H|[]]). discriminate H.
Qed.

Lemma missing_table_entry_sends_no_lag_witness :
  In (MustNewConstMetric consumergroupCurrentOffset 3 ["g"; "t"; FormatInt 5])
     (topicBlocks Scenario.table "g" "t"
        [(0, sarama.mkBlock 7 0); (5, sarama.mkBlock 3 0)])
  /\ ~ In (MustNewConstMetric consumergroupLag (-1) ["g"; "t"; FormatInt 5])
         (topicBlocks Scenario.table "g" "t"
            [(0, sarama.mkBlock 7 0); (5, sarama.mkBlock 3 0)]).
Proof.
  destruct (missing_table_entry_sends_no_lag Scenario.table "g" "t"
              [(0, sarama.mkBlock 7 0); (5, sarama.mkBlock 3 0)] 5 (sarama.mkBlock 3 0))
    as [Hcur Hlag].
  - apply (bool_decide_unpack _). vm_compute. exact I.
  - simpl. right. left. reflexivity.
  - reflexivity.
  - reflexivity.
  - vm_compute. reflexivity.
  - split; [apply Hcur; reflexivity|apply Hlag].
Defined.

(** X17.  l.626-629 and l.649-651: the sum that is sent for a consumed topic is the
    [int64] sum of the committed offsets that are sent for its partitions in
    the same pass. *)
Theorem current_offset_sum_matches_sent_offsets
    (offset : OffsetTable) (group topic : string)
    (partitions : list (Z * sarama.OffsetFetchResponseBlock)) :
  topicConsumed partitions = true ->
  let out := topicBlocks offset group topic partitions in
  let offsets :=
    List.map value
      (List.filter (fun m => bool_decide (desc m = consumergroupCurrentOffset)) out) in
  forall total,
    In (MustNewConstMetric consumergroupCurrentOffsetSum total [group; topic]) out
    <-> total = wrap64 (sumZ offsets).
Proof.
  intros Hc out offsets total. subst offsets out.
  rewrite topicBlocks_consumed by done.
  rewrite List.filter_app, List.map_app, sent_current_offsets. simpl.
  rewrite app_nil_r, in_app_iff. split.
  - intros [H|[H|[H|[]]]].
    + apply in_flat_map in H as (pb & _ & H).
      apply partitionMetrics_labels in H as (_ & [H|H] & _); discriminate H.
    + by injection H.
    + discriminate H.
  - intros ->. right. by left.
Qed.

Lemma current_offset_sum_matches_sent_offsets_witness :
  In (MustNewConstMetric consumergroupCurrentOffsetSum 6 ["g"; "t"])
     (topicBlocks Scenario.table "g" "t"
        [(0, sarama.mkBlock 7 0); (1, sarama.mkBlock (-1) 0)]).
Proof.
  apply (current_offset_sum_matches_sent_offsets Scenario.table "g" "t"
           [(0, sarama.mkBlock 7 0); (1, sarama.mkBlock (-1) 0)]).
  - reflexivity.
  - vm_compute. reflexivity.
Defined.

Section GroupMetrics.

Import sarama.

Variable e : Exporter.
Variable offset : OffsetTable.

(** What a broker's task sends: member counts, and the metrics of the topics
    of the responses. *)
Lemma groupsLoop_in broker groups m :
  In m (groupsLoop e offset broker groups) ->
  (exists group,
      In group groups
      /\ m = MustNewConstMetric consumergroupMembers (len (Members group))
               [GroupId group])
  \/ exists group topic partitions,
      In group groups /\ In m (topicBlocks offset (GroupId group) topic partitions).
Proof.
  induction groups as [|group groups IH]; simpl; [done|].
  destruct (buildOffsetFetchRequest e offset group) as [r|]; [|done].
  intros [<-|H].
  - left. exists group. auto.
  - apply in_app_iff in H as [H|H].
    + destruct (FetchOffset broker r) as [response|]; [|done].
      apply in_flat_map in H as ([topic partitions] & _ & H).
      right. exists group, topic, partitions. auto.
    + destruct (IH H) as [(g & Hg & Hm)|(g & t & ps & Hg & Hm)].
      * left. exists g. auto.
      * right. exists g, t, ps. auto.
Qed.

Lemma getConsumerGroupMetrics_in broker m :
  In m (getConsumerGroupMetrics e offset broker) ->
  (exists group, desc m = consumergroupMembers
                 /\ value m = len (Members group)
                 /\ labelValues m = [GroupId group])
  \/ exists group topic partitions, In m (topicBlocks offset group topic partitions).
Proof.
  unfold getConsumerGroupMetrics.
  destruct (Open broker); [|done].
  destruct (ListGroups broker) as [groups|]; [|done].
  destruct (DescribeGroups broker _) as [describeGroups|]; [|done].
  intros H. apply groupsLoop_in in H as [(g & _ & ->)|(g & t & ps & _ & H)].
  - left. by exists g.
  - right. by exists (GroupId g), t, ps.
Qed.

Lemma topicBlocks_in group topic partitions m :
  In m (topicBlocks offset group topic partitions) ->
  (exists pb, In pb partitions /\ In m (partitionMetrics offset group topic pb))
  \/ (exists v, m = MustNewConstMetric consumergroupCurrentOffsetSum v [group; topic])
  \/ (exists v, m = MustNewConstMetric consumergroupLagSum v [group; topic]).
Proof.
  destruct (topicConsumed partitions) eqn:Hc.
  - rewrite topicBlocks_consumed by done. rewrite in_app_iff.
    intros [H|[<-|[<-|[]]]]; eauto.
    apply in_flat_map in H. auto.
  - by rewrite topicBlocks_not_consumed.
Qed.

Lemma partitionMetrics_lag group topic pb m :
  In m (partitionMetrics offset group topic pb) ->
  desc m = consumergroupLag ->
  labelValues m = [group; topic; FormatInt pb.1]
  /\ exists off, lookupOffset offset topic pb.1 = Some off.
Proof.
  unfold partitionMetrics, lagOf. destruct (noError pb); [|done].
  destruct (lookupOffset offset topic pb.1) as [off|].
  - intros [<-|[<-|[]]] Hd; [done|]. split; [done|]. by exists off.
  - intros [<-|[]] Hd. done.
Qed.

End GroupMetrics.

(** X18.  A consumer-group lag needs an entry of the offset table, so the topic
    filter governs it too: whatever the schedule, every [consumergroupLag]
    on [ch] is labelled with a group, a listed topic that passes the topic
    filter and a partition of that topic whose newest offset was fetched.
    (The committed offset of l.627 is sent without this condition.) *)
Theorem lag_needs_a_fetched_offset
    (e : Exporter) (topics : list string) (s : State) (m : Metric) :
  sarama.Topics (client e) = Some topics ->
  reachable e s ->
  In m (ch s) -> desc m = consumergroupLag ->
  exists group topic partition newest,
    labelValues m = [group; topic; FormatInt partition]
    /\ In topic topics
    /\ fetched e topic partition newest.
Proof.
  intros Ht Hs Hm Hd. apply in_sends in Hm.
  destruct (history_events e s (Send m) Hs Hm) as [H|[H|H]].
  - apply in_map_iff in H as (m' & [= ->] & H). unfold brokerMetrics in H.
    destruct H as [<-|H]; [done|].
    apply in_map_iff in H as (b & <- & _). done.
  - destruct H as (all & topic & _ & _ & H).
    apply list_elem_of_In, list_elem_of_lookup_1 in H as [pc H].
    apply getTopicMetrics_classify in H as (_ & Hl & _).
    unfold topicLevel in Hl. by rewrite Hd in Hl.
  - unfold groupPhase in H. apply in_flat_map in H as (b & _ & H).
    apply in_map_iff in H as (m' & [= ->] & H).
    apply getConsumerGroupMetrics_in in H as [(g & Hg & _)|(g & t & ps & H)];
      [congruence|].
    apply topicBlocks_in in H as [(pb & _ & H)|[(v & ->)|(v & ->)]]; try done.
    apply partitionMetrics_lag in H as (Hl & off & Hoff); [|done].
    destruct (table_sound e s Hs) with (t := t) (inner := default ∅ (offset s !! t))
      as ((all & Hall & Hlisted) & Hacc & partitions & Hps & Hentries).
    { unfold lookupOffset in Hoff. by destruct (offset s !! t). }
    assert (all = topics) as -> by congruence.
    exists g, t, pb.1, off. split; [done|]. split; [done|].
    split; [done|]. exists partitions. split; [done|].
    apply Hentries. unfold lookupOffset in Hoff. by destruct (offset s !! t).
Qed.

Lemma lag_needs_a_fetched_offset_witness :
  exists group topic partition newest,
    labelValues (MustNewConstMetric consumergroupLag 3 ["g"; "t"; "0"])
    = [group; topic; FormatInt partition]
    /\ In topic ["t"]
    /\ fetched Scenario.exporter topic partition newest.
Proof.
  apply (lag_needs_a_fetched_offset Scenario.exporter ["t"]
           (sequential Scenario.exporter)).
  - reflexivity.
  - apply sequential_runs. vm_compute. discriminate.
  - vm_compute. tauto.
  - reflexivity.
Defined.

(** ** [Collect] with and without coalescing *)

Section Independent.

Variable e : Exporter.
Hypothesis concurrent : allowConcurrent e = true.



End Independent.



Section Closing.

Variable e : Exporter.
Hypothesis coalescing : allowConcurrent e = false.



(** What [collectChans] has delivered went to callers that are released. *)
Lemma delivered_released_transition x a y :
  coalesced e x ->
  (forall c m, In (c, m) (delivered x) -> released c x) ->
  transition e x a y ->
  forall c m, In (c, m) (delivered y) -> released c y.
Proof.
  intros (_ & _ & Hr) Hrel Ht.
  assert (Hmono : forall c,
             released c x ->
             (forall cw, In cw (waiting x) -> In cw (waiting y)) ->
             (forall w, In w (closed x) -> In w (closed y)) ->
             released c y).
  { intros c (w & Hw & Hc) Hwt Hcl. exists w. split.
    - apply list_elem_of_In, Hwt. by apply list_elem_of_In.
    - apply list_elem_of_In, Hcl. by apply list_elem_of_In. }
  inversion Ht; subst; clear Ht; intros c' m Hin;
    cbn [delivered] in Hin.
  - apply Hmono; [by eapply Hrel|done|done].
  - apply Hmono; [by eapply Hrel| |done].
    cbn [waiting]. intros cw Hcw. apply in_app_iff. by left.
  - apply Hmono; [by eapply Hrel| |done].
    cbn [waiting]. intros cw Hcw. apply in_app_iff. by left.
  - apply Hmono; [by eapply Hrel|done|done].
  - apply Hmono; [by eapply Hrel|done|done].
  - destruct (runs x) as [|r' [|]] eqn:Hruns; [done| |done].
    destruct k; [|done]. injection H as <-.
    destruct Hr as (_ & _ & _ & _ & _ & Hwait).
    apply in_app_iff in Hin as [Hin|Hin].
    + apply Hmono; [by eapply Hrel|done|].
      cbn [closed]. intros w Hw. by right.
    + unfold broadcast in Hin. apply in_flat_map in Hin as (c0 & Hc0 & Hin).
      apply in_map_iff in Hin as (m0 & [= <- <-] & _).
      exists (quit r'). cbn [waiting closed]. split.
      * by apply list_elem_of_In, Hwait.
      * apply list_elem_of_In. by left.
Qed.

Lemma delivered_released_execution x acts y :
  coalesced e x ->
  (forall c m, In (c, m) (delivered x) -> released c x) ->
  execution e x acts y ->
  forall c m, In (c, m) (delivered y) -> released c y.
Proof.
  intros Hx Hrel Hex. induction Hex as [|x a y acts z Ht _ IH]; [done|].
  apply IH.
  - by eapply coalesced_transition.
  - by eapply delivered_released_transition.
Qed.

End Closing.



(** X21.  l.350-358: [collectChans] sends to registered callers only, and closes
    their wait channel in the same critical section: whenever a metric has
    been delivered to a caller, that caller is released. *)
Theorem deliveries_go_to_released_callers
    (e : Exporter) (x : Coordinator) (c : nat) (m : Metric) :
  allowConcurrent e = false ->
  attainable e x ->
  In (c, m) (delivered x) -> released c x.
Proof.
  intros Hc [acts Hex].
  eapply (delivered_released_execution e Hc idle acts x); [by apply coalesced_idle| |done].
  intros c' m' H. done.
Qed.

Lemma deliveries_go_to_released_callers_witness :
  released 1
    (mkCoordinator [] (Some 0%nat) 1 [0%nat] [] [] [(1%nat, Some 0%nat)]
       (broadcast [1%nat] (ch (sequential Scenario.exporter)))).
Proof.
  apply (deliveries_go_to_released_callers Scenario.exporter _ 1
           (MustNewConstMetric clusterBrokers 1 [])).
  - reflexivity.
  - destruct (execution_advance Scenario.exporter [1%nat] initial
                (sequential Scenario.exporter)) as [n Hadv].
    { apply sequential_runs. vm_compute. discriminate. }
    exists (Call 1 :: replicate n Advance ++ [HandOver 0]).
    eapply execution_cons.
    + apply (call_first Scenario.exporter idle 1); reflexivity.
    + eapply execution_app; [exact Hadv|].
      eapply execution_cons; [|apply execution_nil].
      apply (hand_over Scenario.exporter
               (registered [1%nat] (sequential Scenario.exporter)) 0
               (mkRun 0 (sequential Scenario.exporter))); reflexivity.
  - vm_compute. left. reflexivity.
Defined.

Section Late.

Variable e : Exporter.
Hypothesis coalescing : allowConcurrent e = false.
Hypothesis worker : 1 <= topicWorkers e.

(** The first caller's run, taken to the return of its [collect]. *)
Lemma first_run_finishes c :
  exists n,
    execution e idle (Call c :: replicate n Advance) (registered [c] (sequential e)).
Proof.
  destruct (sequential_runs e worker) as [Hseq _].
  destruct (execution_advance e [c] initial (sequential e) Hseq) as [n Hadv].
  exists n. eapply execution_cons; [|exact Hadv].
  by apply (call_first e idle c coalescing).
Qed.

End Late.

(** X22.  l.346-349: between the return of [e.collect(original)] and the lock of
    l.349 the registration list is still open.  A caller that arrives there
    starts no scrape: it is handed the metrics of the [collect] that had
    already returned when it called, and is released with them. *)
Theorem late_caller_receives_the_finished_scrape (e : Exporter) (c c' : nat) :
  allowConcurrent e = false ->
  1 <= topicWorkers e ->
  c <> c' ->
  exists acts x y,
    execution e idle acts x
    /\ ~ In (Call c') acts
    /\ runs x = [mkRun 0 (sequential e)]
    /\ main (sequential e) = Finished
    /\ execution e x [Call c'; HandOver 0] y
    /\ made y = 1%nat
    /\ received c' y = ch (sequential e)
    /\ released c' y.
Proof.
  intros Hco Hw Hne.
  destruct (first_run_finishes e Hco Hw c) as [n Hex].
  destruct (sequential_runs e Hw) as [_ Hfin].
  exists (Call c :: replicate n Advance), (registered [c] (sequential e)).
  eexists. split; [exact Hex|]. split; [|split; [done|split; [done|split]]].
  - intros [H|H]; [congruence|].
    apply list_elem_of_In, elem_of_replicate in H as [H _]. done.
  - eapply execution_cons; [by apply (registered_call e Hco [c] c')|].
    eapply execution_cons; [|apply execution_nil].
    by apply (hand_over e (registered ([c] ++ [c']) (sequential e)) 0
                (mkRun 0 (sequential e))).
  - cbn [made registered]. split; [done|]. split.
    + unfold received. cbn [delivered registered sgChans pipeline app].
      apply omap_broadcast_one.
      * apply NoDup_cons. split; [|apply NoDup_singleton].
        intros H. apply list_elem_of_In in H as [H|[]]. done.
      * right. by left.
    + exists 0%nat. cbn [waiting closed registered quit]. split.
      * apply list_elem_of_In, in_map_iff. exists c'. split; [done|]. right. by left.
      * apply list_elem_of_In. by left.
Qed.

Lemma late_caller_receives_the_finished_scrape_witness :
  exists acts x y,
    execution Scenario.exporter idle acts x
    /\ ~ In (Call 2%nat) acts
    /\ runs x = [mkRun 0 (sequential Scenario.exporter)]
    /\ main (sequential Scenario.exporter) = Finished
    /\ execution Scenario.exporter x [Call 2%nat; HandOver 0] y
    /\ made y = 1%nat
    /\ received 2%nat y = ch (sequential Scenario.exporter)
    /\ released 2%nat y.
Proof.
  apply (late_caller_receives_the_finished_scrape Scenario.exporter 1 2).
  - reflexivity.
  - vm_compute. discriminate.
  - discriminate.
Defined.

(** ** The descriptors and the metrics of a scrape *)

Section Arity.

Variable e : Exporter.
Variable labels : gmap string string.

Lemma topic_event_arity topic m :
  In (Send m) (getTopicMetrics e topic) ->
  length (labelValues m) = length (prometheus.variableLabels (Setup labels (desc m))).
Proof.
  intros H.
  apply getTopicMetrics_in in H as (_ & [H|(ps & _ & [H|[H|(p & _ & H)]])]);
    try discriminate H.
  - by injection H as ->.
  - apply partitionEvents_in in H.
    repeat match type of H with
      | _ \/ _ => destruct H as [H|H]
      | exists _, _ => let x := fresh "x" in destruct H as [x H]
      | _ /\ _ => let H' := fresh "H" in destruct H as [H' H]
      end;
    try (apply zookeeperLag_sends in H as (? & ? & H));
    try discriminate H; by injection H as ->.
Qed.

Lemma group_metric_arity offset broker m :
  In m (getConsumerGroupMetrics e offset broker) ->
  length (labelValues m) = length (prometheus.variableLabels (Setup labels (desc m))).
Proof.
  intros H.
  apply getConsumerGroupMetrics_in in H as [(g & Hd & _ & Hl)|(g & t & ps & H)].
  - by rewrite Hd, Hl.
  - apply topicBlocks_in in H as [(pb & _ & H)|[(v & ->)|(v & ->)]]; try done.
    apply partitionMetrics_labels in H as (Hl & [Hd|Hd] & _); by rewrite Hd, Hl.
Qed.

End Arity.

(** X23.  Every metric of a scrape is built with as many label values as its
    descriptor has variable labels, whatever the cluster answers and
    whatever the schedule: no call of [MustNewConstMetric] in [collect]
    panics on the number of labels. *)
Theorem label_values_match_the_descriptor
    (e : Exporter) (labels : gmap string string) (s : State) (m : Metric) :
  reachable e s -> In m (ch s) ->
  length (labelValues m) = length (prometheus.variableLabels (Setup labels (desc m))).
Proof.
  intros Hs Hm. apply in_sends in Hm.
  destruct (history_events e s (Send m) Hs Hm) as [H|[H|H]].
  - apply in_map_iff in H as (m' & [= ->] & H). unfold brokerMetrics in H.
    destruct H as [<-|H]; [done|].
    apply in_map_iff in H as (b & <- & _). done.
  - destruct H as (all & topic & _ & _ & H). by eapply topic_event_arity.
  - unfold groupPhase in H. apply in_flat_map in H as (b & _ & H).
    apply in_map_iff in H as (m' & [= ->] & H). by eapply group_metric_arity.
Qed.

Lemma label_values_match_the_descriptor_witness :
  length (labelValues (MustNewConstMetric consumergroupLag 3 ["g"; "t"; "0"]))
  = length (prometheus.variableLabels (Setup ∅ consumergroupLag)).
Proof.
  apply (label_values_match_the_descriptor Scenario.exporter ∅
           (sequential Scenario.exporter)).
  - apply sequential_runs. vm_compute. discriminate.
  - vm_compute. tauto.
Defined.

(** X24.  [Setup] gives the sixteen descriptors sixteen different names, all in
    the namespace of the exporter; the constant labels of the configuration
    go to every descriptor but the zookeeper lag, which is built with
    none. *)
Theorem descriptor_names_are_distinct (labels : gmap string string) (d d' : Desc) :
  (prometheus.fqName (Setup labels d) = prometheus.fqName (Setup labels d') <-> d = d')
  /\ (exists rest, prometheus.fqName (Setup labels d) = ("kafka_" ++ rest)%string)
  /\ (prometheus.constLabels (Setup labels d) = None <-> d = consumergroupLagZookeeper)
  /\ NoDup (prometheus.variableLabels (Setup labels d)).
Proof.
  split; [|split; [|split]].
  - split; [|by intros ->]. destruct d, d'; vm_compute; congruence.
  - destruct d; vm_compute; eauto.
  - destruct d; simpl; split; congruence.
  - destruct d; simpl; apply (bool_decide_unpack _); vm_compute; exact I.
Qed.

(** X25.  [Describe] against [collect]: the broker info of l.369-371 is sent with
    a descriptor that [Describe] does not announce, for every broker of the
    cluster, in every scrape; the member count of l.594 is the one other
    descriptor that [Describe] leaves out. *)
Theorem describe_omits_metrics_that_are_sent (e : Exporter) (s : State) :
  reachable e s -> main s <> Start ->
  (forall d, In d Describe <-> d <> clusterBrokerInfo /\ d <> consumergroupMembers)
  /\ forall broker,
      In broker (sarama.Brokers (client e)) ->
      exists m, In m (ch s)
                /\ labelValues m = [FormatInt (sarama.ID broker); sarama.Addr broker]
                /\ ~ In (desc m) Describe.
Proof.
  intros Hs Hm. split.
  - intros d. unfold Describe. simpl. split.
    + intros H. repeat (destruct H as [<-|H]; [done|]). done.
    + intros [H1 H2]. destruct d; tauto.
  - intros broker Hb.
    assert (Hpre : exists h, history s = List.map Send (brokerMetrics e) ++ h).
    { pose proof (phases_invariant e s Hs) as Hp. unfold phases in Hp.
      destruct (main s) eqn:Hmain; [done|..].
      - destruct Hp as (all & h & _ & _ & _ & Hh & _). eauto.
      - destruct Hp as (all & h & _ & _ & _ & Hh & _). eauto.
      - destruct Hp as (all & hT & hG & _ & _ & _ & Hh & _). eauto.
      - destruct Hp as (_ & _ & Hp). destruct (sarama.Topics (client e)).
        + destruct Hp as (hT & hG & Hh & _). eauto.
        + exists []. by rewrite app_nil_r. }
    destruct Hpre as [h Hh].
    exists (MustNewConstMetric clusterBrokerInfo 1
              [FormatInt (sarama.ID broker); sarama.Addr broker]).
    split; [|split; [done|]].
    + apply in_sends. rewrite Hh. apply in_app_iff. left.
      apply in_map. unfold brokerMetrics. right.
      apply in_map_iff. by exists broker.
    + unfold Describe. simpl. intros H.
      repeat (destruct H as [H|H]; [discriminate H|]). done.
Qed.

Lemma describe_omits_metrics_that_are_sent_witness :
  exists m, In m (ch (sequential Scenario.exporter))
            /\ labelValues m = [FormatInt (sarama.ID Scenario.broker);
                                sarama.Addr Scenario.broker]
            /\ ~ In (desc m) Describe.
Proof.
  apply (describe_omits_metrics_that_are_sent Scenario.exporter
           (sequential Scenario.exporter)).
  - apply sequential_runs. vm_compute. discriminate.
  - vm_compute. discriminate.
  - simpl. left. reflexivity.
Defined.

(** * Properties of package dsn *)

Section ParseKeyValue.

Import dsn.

Variables Quotation_Mark White_Space : rune -> bool.

#[local] Abbreviation iteration := (iteration Quotation_Mark White_Space).
#[local] Abbreviation loop := (loop Quotation_Mark White_Space).
#[local] Abbreviation parseKeyValue := (parseKeyValue Quotation_Mark White_Space).
#[local] Abbreviation plain := (plain Quotation_Mark White_Space).
#[local] Abbreviation word := (word Quotation_Mark White_Space).

Lemma loop_app p a b :
  loop p (a ++ b)
  = match loop p a with inl p' => loop p' b | inr o => inr o end.
Proof.
  revert p. induction a as [|c a IH]; intros p; simpl; [done|].
  destruct (iteration p c); [apply IH|done].
Qed.

Lemma iteration_plain p c :
  plain c = true ->
  iteration p c = inl (mkParser (out p) true (inQuote p) (part p ++ [c]) (key p)).
Proof.
  unfold plain, dsn.iteration. intros H.
  apply andb_true_iff in H as [H H3]. apply andb_true_iff in H as [H1 H2].
  apply negb_true_iff in H1, H2, H3. by rewrite H1, H2, H3.
Qed.

Lemma loop_plain w : forall p,
  forallb plain w = true ->
  loop p w
  = inl (mkParser (out p) (if w is [] then inPart p else true) (inQuote p)
           (part p ++ w) (key p)).
Proof.
  induction w as [|c w IH]; intros p H; simpl in *.
  - rewrite app_nil_r. by destruct p.
  - apply andb_true_iff in H as [Hc Hw].
    rewrite iteration_plain by done. rewrite IH by done. simpl.
    rewrite <- app_assoc. simpl. by destruct w.
Qed.

Lemma loop_word w p :
  word w = true ->
  loop p w = inl (mkParser (out p) true (inQuote p) (part p ++ w) (key p)).
Proof.
  unfold dsn.word. intros H. apply andb_true_iff in H as [Hl Hw].
  rewrite loop_plain by done. destruct w; [done|done].
Qed.

Lemma word_not_nil w : word w = true -> w <> [].
Proof. unfold dsn.word. by destruct w. Qed.

Hypothesis equals_sign : Quotation_Mark 61 = false /\ White_Space 61 = false.

(** A key, the sign and a value, from between two pairs. *)
Lemma loop_pair k v o k0 :
  word k = true -> word v = true ->
  loop (mkParser o false false [] k0) (k ++ [61] ++ v)
  = inl (mkParser o true false v k).
Proof.
  intros Hk Hv. destruct equals_sign as [Hq Hw].
  rewrite loop_app, loop_word by done. cbn [app dsn.loop out inQuote part key].
  unfold dsn.iteration at 1. rewrite Hq, Hw. cbn [Z.eqb Pos.eqb inPart out inQuote part key].
  by rewrite loop_word.
Qed.

Variable space : rune.
Hypothesis white_space : Quotation_Mark space = false /\ White_Space space = true.

Lemma iteration_space p :
  inQuote p = false -> key p <> [] ->
  iteration p space = inl (store p).
Proof.
  intros Hq Hk. destruct white_space as [H1 H2].
  unfold dsn.iteration. rewrite H1, H2, Hq.
  destruct (inPart p); by rewrite decide_False.
Qed.

Lemma iteration_space_no_key p :
  inQuote p = false -> key p = [] ->
  iteration p space = inr (out p).
Proof.
  intros Hq Hk. destruct white_space as [H1 H2].
  unfold dsn.iteration. rewrite H1, H2, Hq.
  destruct (inPart p); by rewrite decide_True.
Qed.

(** The pairs [k=v], each followed by one white space. *)
Lemma loop_pairs kvs : forall o k0,
  Forall (fun kv : list rune * list rune => word kv.1 = true /\ word kv.2 = true) kvs ->
  loop (mkParser o false false [] k0)
       (flat_map (fun kv : list rune * list rune => kv.1 ++ [61] ++ kv.2 ++ [space]) kvs)
  = inl (mkParser (foldl (fun m (kv : list rune * list rune) => <[kv.1 := kv.2]> m) o kvs)
           false false [] (default k0 (last kvs.*1))).
Proof.
  induction kvs as [|[k v] kvs IH]; intros o k0 H; simpl; [done|].
  apply Forall_cons in H as [[Hk Hv] H]. simpl in Hk, Hv.
  replace (k ++ 61 :: v ++ [space]) with ((k ++ [61] ++ v) ++ [space])
    by (by rewrite <- !app_assoc).
  rewrite loop_app, loop_app, loop_pair by done. cbn [dsn.loop].
  rewrite iteration_space; [|done|by apply word_not_nil].
  unfold store. cbn [out inPart inQuote part key].
  change (61 :: ?x) with ([61] ++ x). rewrite IH by done.
  cbn [foldl fst snd fmap list_fmap]. do 2 f_equal.
  rewrite last_cons. by destruct (last _).
Qed.

End ParseKeyValue.

(** X26.  [parseKeyValue] on the input it is written for: pairs [key=value] of
    parts without quotation mark, white space or equals sign, one white
    space between two pairs, with or without one at the end.  The map holds
    each key with the value of its last pair, and there is no error. *)
Theorem key_value_pairs_are_parsed
    (Quotation_Mark White_Space : dsn.rune -> bool) (space : dsn.rune)
    (kvs : list (list dsn.rune * list dsn.rune)) (k v : list dsn.rune) :
  Quotation_Mark 61 = false /\ White_Space 61 = false ->
  Quotation_Mark space = false /\ White_Space space = true ->
  Forall (fun kv : list dsn.rune * list dsn.rune =>
            dsn.word Quotation_Mark White_Space kv.1 = true
            /\ dsn.word Quotation_Mark White_Space kv.2 = true)
         (kvs ++ [(k, v)]) ->
  let input :=
    flat_map (fun kv : list dsn.rune * list dsn.rune =>
                kv.1 ++ [61] ++ kv.2 ++ [space]) kvs
    ++ k ++ [61] ++ v in
  let pairs :=
    <[k := v]> (foldl (fun m (kv : list dsn.rune * list dsn.rune) =>
                         <[kv.1 := kv.2]> m) ∅ kvs) in
  dsn.parseKeyValue Quotation_Mark White_Space input = (pairs, None)
  /\ dsn.parseKeyValue Quotation_Mark White_Space (input ++ [space]) = (pairs, None).
Proof.
  intros Heq Hsp Hall input pairs. subst input pairs.
  apply Forall_app in Hall as [Hkvs Hkv].
  apply Forall_cons in Hkv as [[Hk Hv] _]. simpl in Hk, Hv.
  pose proof (word_not_nil _ _ _ Hk) as Hk'.
  pose proof (word_not_nil _ _ _ Hv) as Hv'.
  unfold dsn.parseKeyValue. split.
  - rewrite loop_app, (loop_pairs _ _ Heq space Hsp) by done. cbv beta iota.
    rewrite loop_pair by done. cbn [dsn.out dsn.part dsn.key].
    rewrite bool_decide_eq_true_2 by done.
    destruct v; [done|]. done.
  - rewrite <- app_assoc, loop_app, (loop_pairs _ _ Heq space Hsp) by done.
    cbv beta iota.
    rewrite loop_app, loop_pair by done. cbn [dsn.loop].
    rewrite (iteration_space _ _ space Hsp) by done.
    unfold dsn.store. cbn [dsn.out dsn.part dsn.key dsn.inPart dsn.inQuote].
    by rewrite andb_false_r.
Qed.

Lemma key_value_pairs_are_parsed_witness :
  dsn.parseKeyValue dsn.asciiQuotation dsn.asciiSpace
    (flat_map (fun kv : list dsn.rune * list dsn.rune => kv.1 ++ [61] ++ kv.2 ++ [32])
              [(dsn.runes "host", dsn.runes "db")]
     ++ dsn.runes "port" ++ [61] ++ dsn.runes "5432")
  = (<[dsn.runes "port" := dsn.runes "5432"]>
       (foldl (fun m (kv : list dsn.rune * list dsn.rune) => <[kv.1 := kv.2]> m) ∅
              [(dsn.runes "host", dsn.runes "db")]),
     None).
Proof.
  apply (key_value_pairs_are_parsed dsn.asciiQuotation dsn.asciiSpace 32
           [(dsn.runes "host", dsn.runes "db")] (dsn.runes "port") (dsn.runes "5432")).
  - split; reflexivity.
  - split; reflexivity.
  - apply (bool_decide_unpack _). vm_compute. exact I.
Defined.

(** X27.  The parser keeps the key of the last pair, and a white space that does
    not end a part stores the empty part under it (l.313-319).  So a second
    white space after a pair replaces the value that was just stored by the
    empty string, and a bare word after a pair replaces it by the word
    (l.336-338). *)
Theorem white_space_after_a_pair_is_not_skipped
    (Quotation_Mark White_Space : dsn.rune -> bool) (space : dsn.rune)
    (kvs : list (list dsn.rune * list dsn.rune)) (k v w : list dsn.rune) :
  Quotation_Mark 61 = false /\ White_Space 61 = false ->
  Quotation_Mark space = false /\ White_Space space = true ->
  Forall (fun kv : list dsn.rune * list dsn.rune =>
            dsn.word Quotation_Mark White_Space kv.1 = true
            /\ dsn.word Quotation_Mark White_Space kv.2 = true)
         (kvs ++ [(k, v)]) ->
  dsn.word Quotation_Mark White_Space w = true ->
  let input :=
    flat_map (fun kv : list dsn.rune * list dsn.rune =>
                kv.1 ++ [61] ++ kv.2 ++ [space]) (kvs ++ [(k, v)]) in
  let before :=
    foldl (fun m (kv : list dsn.rune * list dsn.rune) => <[kv.1 := kv.2]> m) ∅ kvs in
  dsn.parseKeyValue Quotation_Mark White_Space (input ++ [space])
  = (<[k := []]> before, None)
  /\ dsn.parseKeyValue Quotation_Mark White_Space (input ++ w)
     = (<[k := w]> before, None).
Proof.
  intros Heq Hsp Hall Hw input before. subst input before.
  pose proof Hall as Hall'.
  apply Forall_app in Hall' as [Hkvs Hkv].
  apply Forall_cons in Hkv as [[Hk Hv] _]. simpl in Hk, Hv.
  pose proof (word_not_nil _ _ _ Hk) as Hk'.
  unfold dsn.parseKeyValue.
  rewrite !loop_app, !(loop_pairs _ _ Heq space Hsp) by done. cbv beta iota.
  rewrite foldl_app, fmap_app. cbn [fmap list_fmap foldl fst snd].
  rewrite last_snoc. cbn [default].
  split.
  - cbn [dsn.loop]. rewrite (iteration_space _ _ space Hsp) by done.
    unfold dsn.store. cbn [dsn.out dsn.part dsn.key dsn.inPart dsn.inQuote].
    rewrite andb_false_r. by rewrite insert_insert_eq.
  - rewrite loop_word by done. cbn [dsn.out dsn.part dsn.key app].
    rewrite bool_decide_eq_true_2 by done.
    pose proof (word_not_nil _ _ _ Hw) as Hw'.
    destruct w; [done|]. cbn. by rewrite insert_insert_eq.
Qed.

Lemma white_space_after_a_pair_is_not_skipped_witness :
  dsn.parseKeyValue dsn.asciiQuotation dsn.asciiSpace
    (flat_map (fun kv : list dsn.rune * list dsn.rune => kv.1 ++ [61] ++ kv.2 ++ [32])
              ([] ++ [(dsn.runes "host", dsn.runes "db")]) ++ [32])
  = (<[dsn.runes "host" := []]>
       (foldl (fun m (kv : list dsn.rune * list dsn.rune) => <[kv.1 := kv.2]> m) ∅ []),
     None).
Proof.
  apply (white_space_after_a_pair_is_not_skipped dsn.asciiQuotation dsn.asciiSpace 32
           [] (dsn.runes "host") (dsn.runes "db") (dsn.runes "x")).
  - split; reflexivity.
  - split; reflexivity.
  - apply (bool_decide_unpack _). vm_compute. exact I.
  - reflexivity.
Defined.

Section Matcher.

Import dsn.

Lemma alnum_not_sign c : alnum c = true -> c <> 32 /\ c <> 61.
Proof. unfold alnum. lia. Qed.

Lemma skip_alnum k s :
  forallb alnum k = true -> skip alnum (k ++ 61 :: s) = 61 :: s.
Proof.
  induction k as [|c k IH]; simpl; [done|].
  intros H. apply andb_true_iff in H as [Hc Hk]. rewrite Hc. by apply IH.
Qed.

Lemma skip_spaces_alnum k s :
  k <> [] -> forallb alnum k = true -> skip (Z.eqb 32) (k ++ s) = k ++ s.
Proof.
  destruct k as [|c k]; [done|]. intros _ H. cbn [forallb] in H.
  apply andb_true_iff in H as [Hc _]. apply alnum_not_sign in Hc as [Hc _].
  cbn [app skip]. by rewrite (proj2 (Z.eqb_neq 32 c)).
Qed.

Lemma connstringRe_pair k c v :
  k <> [] -> forallb alnum k = true -> c <> 61 -> c <> 32 ->
  connstringRe (k ++ [61] ++ c :: v) = true.
Proof.
  intros Hk Ha H61 H32. unfold connstringRe.
  rewrite skip_spaces_alnum by done. simpl app. rewrite skip_alnum by done.
  destruct (Nat.eqb_spec (length (61 :: c :: v)) (length (k ++ 61 :: c :: v)))
    as [Hlen|_].
  - rewrite length_app in Hlen. destruct k; [done|]. simpl in Hlen. lia.
  - cbn [skip]. change (32 =? 61) with false. cbv iota. cbn [skip].
    rewrite (proj2 (Z.eqb_neq 32 c)) by done.
    by apply negb_true_iff, Z.eqb_neq.
Qed.

End Matcher.

(** X28.  The expression of l.230 lets blanks stand before the first key, but the
    parser does not: it answers a white space that comes before any key with
    [invalid input] (l.305-306 and l.314-315).  A key-value string that
    starts with a blank passes the test of l.231 and is refused at l.239. *)
Theorem leading_white_space_is_rejected
    (Quotation_Mark White_Space : dsn.rune -> bool)
    (k v : list dsn.rune) (c : dsn.rune) :
  Quotation_Mark 32 = false /\ White_Space 32 = true ->
  k <> [] -> forallb dsn.alnum k = true -> c <> 61 -> c <> 32 ->
  (forall input,
      dsn.parseKeyValue Quotation_Mark White_Space (32 :: input)
      = (∅, Some "invalid input"))
  /\ dsn.connstringRe (32 :: k ++ [61] ++ c :: v) = true
  /\ dsn.dsnFromKeyValue Quotation_Mark White_Space (32 :: k ++ [61] ++ c :: v)
     = (dsn.zero, Some "failed to parse key-value DSN: invalid input").
Proof.
  intros Hsp Hk Ha H61 H32.
  assert (Hparse : forall input,
      dsn.parseKeyValue Quotation_Mark White_Space (32 :: input)
      = (∅, Some "invalid input")).
  { intros input. unfold dsn.parseKeyValue. cbn [dsn.loop].
    by rewrite (iteration_space_no_key _ _ 32 Hsp). }
  assert (Hre : dsn.connstringRe (32 :: k ++ [61] ++ c :: v) = true).
  { pose proof (connstringRe_pair k c v Hk Ha H61 H32) as H.
    unfold dsn.connstringRe in *. by cbn [dsn.skip Z.eqb Pos.eqb]. }
  split; [done|]. split; [done|].
  unfold dsn.dsnFromKeyValue. by rewrite Hre, Hparse.
Qed.

Lemma leading_white_space_is_rejected_witness :
  dsn.dsnFromKeyValue dsn.asciiQuotation dsn.asciiSpace
    (32 :: dsn.runes "host" ++ [61] ++ 100 :: dsn.runes "b")
  = (dsn.zero, Some "failed to parse key-value DSN: invalid input").
Proof.
  apply (leading_white_space_is_rejected dsn.asciiQuotation dsn.asciiSpace
           (dsn.runes "host") (dsn.runes "b") 100).
  - split; reflexivity.
  - discriminate.
  - reflexivity.
  - discriminate.
  - discriminate.
Defined.

Section FromPairs.

Import dsn.

Lemma reserved_distinct :
  runes "host" <> runes "port" /\ runes "host" <> runes "user"
  /\ runes "host" <> runes "password" /\ runes "port" <> runes "user"
  /\ runes "port" <> runes "password" /\ runes "user" <> runes "password".
Proof. repeat split; vm_compute; discriminate. Qed.

(** The loop of l.251-264 over pairs of distinct keys, in any order. *)
Lemma foldl_assign (l : list (list rune * list rune)) : forall f,
  NoDup l.*1 ->
  let m : gmap (list rune) (list rune) := list_to_map l in
  let r := foldl assign f l in
  hostname r = default (hostname f) (m !! runes "host")
  /\ port r = default (port f) (m !! runes "port")
  /\ user r = default (user f) (m !! runes "user")
  /\ pass r = default (pass f) (m !! runes "password")
  /\ forall k,
      rest r !! k
      = if bool_decide (k ∈ [runes "host"; runes "port"; runes "user"; runes "password"])
        then rest f !! k
        else match m !! k with Some v => Some [v] | None => rest f !! k end.
Proof.
  destruct reserved_distinct as (H1 & H2 & H3 & H4 & H5 & H6).
  induction l as [|[k0 v0] l IH]; intros f Hnd m r; subst m r.
  - simpl. repeat split; try done. intros k. by case_bool_decide.
  - apply NoDup_cons in Hnd as [Hk0 Hnd]. rewrite list_to_map_cons. cbn [foldl].
    assert (Hnone : (list_to_map l : gmap (list rune) (list rune)) !! k0 = None)
      by (by apply not_elem_of_list_to_map_1).
    destruct (IH (assign f (k0, v0)) Hnd) as (Ih & Ip & Iu & Iw & Ir).
    rewrite Ih, Ip, Iu, Iw. clear Ih Ip Iu Iw.
    assert (Hin : forall k, k ∈ [runes "host"; runes "port"; runes "user"; runes "password"]
                       <-> k = runes "host" \/ k = runes "port"
                           \/ k = runes "user" \/ k = runes "password").
    { intros k. rewrite !elem_of_cons, elem_of_nil. tauto. }
    repeat split.
    + destruct (decide (k0 = runes "host")) as [->|Hne].
      * rewrite lookup_insert_eq, Hnone. unfold assign. cbn [fst snd default].
        by rewrite decide_True.
      * rewrite lookup_insert_ne by done. f_equal.
        unfold assign. cbn [fst snd]. by repeat case_decide.
    + destruct (decide (k0 = runes "port")) as [->|Hne].
      * rewrite lookup_insert_eq, Hnone. unfold assign. cbn [fst snd default].
        repeat case_decide; cbn [hostname port user pass rest]; first [done|congruence].
      * rewrite lookup_insert_ne by done. f_equal.
        unfold assign. cbn [fst snd]. by repeat case_decide.
    + destruct (decide (k0 = runes "user")) as [->|Hne].
      * rewrite lookup_insert_eq, Hnone. unfold assign. cbn [fst snd default].
        repeat case_decide; cbn [hostname port user pass rest]; first [done|congruence].
      * rewrite lookup_insert_ne by done. f_equal.
        unfold assign. cbn [fst snd]. by repeat case_decide.
    + destruct (decide (k0 = runes "password")) as [->|Hne].
      * rewrite lookup_insert_eq, Hnone. unfold assign. cbn [fst snd default].
        repeat case_decide; cbn [hostname port user pass rest]; first [done|congruence].
      * rewrite lookup_insert_ne by done. f_equal.
        unfold assign. cbn [fst snd]. by repeat case_decide.
    + intros k. rewrite Ir. clear Ir.
      case_bool_decide as Hres.
      * apply Hin in Hres.
        unfold assign. cbn [fst snd].
        repeat case_decide; try done. cbn [rest].
        rewrite lookup_insert_ne; [done|]. intros ->. tauto.
      * rewrite Hin in Hres.
        destruct (decide (k0 = k)) as [->|Hne].
        -- rewrite lookup_insert_eq, Hnone. unfold assign. cbn [fst snd].
           repeat case_decide; try tauto. cbn [rest]. by rewrite lookup_insert_eq.
        -- rewrite lookup_insert_ne by done.
           destruct (list_to_map l !! k) eqn:Hk; [done|].
           unfold assign. cbn [fst snd].
           repeat case_decide; try done. cbn [rest].
           by rewrite lookup_insert_ne.
Qed.

End FromPairs.

Section FromPairsFields.

Import dsn.

Lemma fromPairs_fields (pairs : gmap (list rune) (list rune)) :
  scheme (fromPairs pairs) = runes "postgresql"
  /\ path (fromPairs pairs) = []
  /\ username (fromPairs pairs) = default [] (pairs !! runes "user")
  /\ password (fromPairs pairs) = default [] (pairs !! runes "password")
  /\ host (fromPairs pairs)
     = (let h := default [] (pairs !! runes "host") in
        let hostname := if decide (h = []) then runes "localhost" else h in
        let port := default [] (pairs !! runes "port") in
        if decide (port = []) then hostname else hostname ++ runes ":" ++ port)
  /\ forall k,
      query (fromPairs pairs) !! k
      = if bool_decide (k ∈ [runes "host"; runes "port"; runes "user"; runes "password"])
        then None
        else (fun v => [v]) <$> pairs !! k.
Proof.
  destruct (foldl_assign (map_to_list pairs) (mkFields [] [] [] [] ∅)
              (NoDup_fst_map_to_list pairs)) as (Hh & Hp & Hu & Hw & Hr).
  rewrite list_to_map_to_list in Hh, Hp, Hu, Hw, Hr. cbn [hostname port user pass rest] in *.
  unfold fromPairs. cbn [scheme path username password host query].
  rewrite Hh, Hp, Hu, Hw. repeat split; done.
Qed.

End FromPairsFields.

(** X29.  l.244-278: what [dsnFromKeyValue] makes of the pairs it parsed.  The
    scheme is postgresql and the path empty; user and password are the
    values of these keys; the host is the value of host, or localhost when
    it is missing or empty, followed by a colon and the port when there is
    one; every other key goes to the query with its value, and the four
    reserved keys never do.  The order in which the map is ranged over does
    not matter. *)
Theorem key_value_dsn_fields
    (Quotation_Mark White_Space : dsn.rune -> bool) (input : list dsn.rune)
    (pairs : gmap (list dsn.rune) (list dsn.rune)) :
  dsn.connstringRe input = true ->
  dsn.parseKeyValue Quotation_Mark White_Space input = (pairs, None) ->
  exists d,
    dsn.dsnFromKeyValue Quotation_Mark White_Space input = (d, None)
    /\ dsn.scheme d = dsn.runes "postgresql"
    /\ dsn.path d = []
    /\ dsn.username d = default [] (pairs !! dsn.runes "user")
    /\ dsn.password d = default [] (pairs !! dsn.runes "password")
    /\ dsn.host d
       = (let h := default [] (pairs !! dsn.runes "host") in
          let hostname := if decide (h = []) then dsn.runes "localhost" else h in
          let port := default [] (pairs !! dsn.runes "port") in
          if decide (port = []) then hostname else hostname ++ dsn.runes ":" ++ port)
    /\ forall k,
        dsn.query d !! k
        = if bool_decide (k ∈ [dsn.runes "host"; dsn.runes "port";
                               dsn.runes "user"; dsn.runes "password"])
          then None
          else (fun v => [v]) <$> pairs !! k.
Proof.
  intros Hre Hparse. exists (dsn.fromPairs pairs). split.
  - unfold dsn.dsnFromKeyValue. by rewrite Hre, Hparse.
  - apply fromPairs_fields.
Qed.

Lemma key_value_dsn_fields_witness :
  exists d,
    dsn.dsnFromKeyValue dsn.asciiQuotation dsn.asciiSpace
      (dsn.runes "port=5432 sslmode=disable user=app") = (d, None)
    /\ dsn.scheme d = dsn.runes "postgresql"
    /\ dsn.path d = [].
Proof.
  destruct (key_value_dsn_fields dsn.asciiQuotation dsn.asciiSpace
              (dsn.runes "port=5432 sslmode=disable user=app")
              (<[dsn.runes "user" := dsn.runes "app"]>
                 (<[dsn.runes "sslmode" := dsn.runes "disable"]>
                    (<[dsn.runes "port" := dsn.runes "5432"]> ∅))))
    as (d & Hd & Hs & Hp & _).
  - reflexivity.
  - vm_compute. reflexivity.
  - exists d. split; [exact Hd|]. split; [exact Hs|exact Hp].
Defined.

(** X30.  [String] with [dsnFromKeyValue]: the printed form of a key-value
    datasource that has a password does not depend on what the password
    is.  The password is printed as six asterisks, and it is not in the
    query, which is printed in full. *)
Theorem printed_dsn_hides_the_password
    (Encode : dsn.Values -> list dsn.rune)
    (pairs : gmap (list dsn.rune) (list dsn.rune)) (p q : list dsn.rune) :
  p <> [] -> q <> [] ->
  dsn.String Encode (dsn.fromPairs (<[dsn.runes "password" := p]> pairs))
  = dsn.String Encode (dsn.fromPairs (<[dsn.runes "password" := q]> pairs))
  /\ dsn.query (dsn.fromPairs (<[dsn.runes "password" := p]> pairs))
       !! dsn.runes "password" = None.
Proof.
  intros Hp Hq.
  destruct reserved_distinct as (H1 & H2 & H3 & H4 & H5 & H6).
  destruct (fromPairs_fields (<[dsn.runes "password" := p]> pairs))
    as (Hs & Hpa & Hu & Hw & Hh & Hr).
  destruct (fromPairs_fields (<[dsn.runes "password" := q]> pairs))
    as (Hs' & Hpa' & Hu' & Hw' & Hh' & Hr').
  rewrite lookup_insert_eq in Hw, Hw'.
  cbv zeta in Hh, Hh'.
  assert (Hl : forall (v k : list dsn.rune),
             k <> dsn.runes "password" ->
             <[dsn.runes "password" := v]> pairs !! k = pairs !! k)
    by (intros v k Hk; by rewrite lookup_insert_ne).
  rewrite (Hl p (dsn.runes "user")) in Hu by done.
  rewrite (Hl q (dsn.runes "user")) in Hu' by done.
  rewrite (Hl p (dsn.runes "host")), (Hl p (dsn.runes "port")) in Hh by done.
  rewrite (Hl q (dsn.runes "host")), (Hl q (dsn.runes "port")) in Hh' by done.
  assert (Hquery : dsn.query (dsn.fromPairs (<[dsn.runes "password" := p]> pairs))
                   = dsn.query (dsn.fromPairs (<[dsn.runes "password" := q]> pairs))).
  { apply map_eq. intros k. rewrite Hr, Hr'. case_bool_decide as Hk; [done|].
    assert (Hk' : dsn.runes "password" <> k) by (intros <-; apply Hk; set_solver).
    by rewrite !lookup_insert_ne. }
  split.
  - unfold dsn.String. rewrite Hw, Hw'. simpl in Hw, Hw'.
    rewrite !decide_True by done.
    by rewrite Hs, Hs', Hu, Hu', Hh, Hh', Hpa, Hpa', Hquery.
  - rewrite Hr. rewrite bool_decide_eq_true_2; [done|]. set_solver.
Qed.

Lemma printed_dsn_hides_the_password_witness :
  dsn.String (fun _ => [])
    (dsn.fromPairs (<[dsn.runes "password" := dsn.runes "s3cret"]> ∅))
  = dsn.String (fun _ => [])
      (dsn.fromPairs (<[dsn.runes "password" := dsn.runes "other"]> ∅))
  /\ dsn.query (dsn.fromPairs (<[dsn.runes "password" := dsn.runes "s3cret"]> ∅))
       !! dsn.runes "password" = None.
Proof.
  apply (printed_dsn_hides_the_password (fun _ => []) ∅
           (dsn.runes "s3cret") (dsn.runes "other")).
  - discriminate.
  - discriminate.
Defined.
